(** * RhythmDNA: the analysis orchestrator and its persistence layer

    A shallow embedding of the instrument finalizer, the library store's
    key normalizer and track merge, the tempo override, the creative
    client's confidence parser, the ensemble runner's mix-only rescue and
    the background orchestration, with the properties the specification
    states about them.

    Conventions of the embedding.
    - A JavaScript string is a [string] (a sequence of code units);
      [trim] and [toLowerCase] are modelled on the ASCII range.
    - A JavaScript [Set] that the code only queries with [has] and updates
      with [add] and [delete] is a [gset string].
    - A JavaScript number is a binary64 [float].
    - A lookup in an object literal used as a table is a lookup among the
      table's own keys: labels that name a member inherited from
      [Object.prototype] ("constructor", "toString", ...) are outside the
      embedding.
    - [path.normalize] is Node's, in its POSIX flavour: the application is
      built for macOS only. *)

From Stdlib Require Import Floats Ascii String ZArith Uint63 Lia Sorted.
From stdpp Require Import gmap strings list.

#[local] Set Warnings "-clear-no-such-hyp,-inexact-float".


(* ===================================================================== *)
(** * Part I: definitions *)
(* ===================================================================== *)

(** ** JavaScript string primitives *)

Module JsString.

(** White space removed by [String.prototype.trim] (ASCII range). *)
Definition is_ws (c : ascii) : bool :=
  let n := nat_of_ascii c in
  (Nat.eqb n 32 || (Nat.leb 9 n && Nat.leb n 13))%bool.

Fixpoint trimStart (s : string) : string :=
  match s with
  | EmptyString => EmptyString
  | String c r => if is_ws c then trimStart r else s
  end.

Fixpoint trimEnd (s : string) : string :=
  match s with
  | EmptyString => EmptyString
  | String c r =>
      match trimEnd r with
      | EmptyString => if is_ws c then EmptyString else String c EmptyString
      | r' => String c r'
      end
  end.

Definition trim (s : string) : string := trimEnd (trimStart s).

(** A string is falsy exactly when it is empty. *)
Definition truthy (s : string) : bool :=
  match s with EmptyString => false | _ => true end.

(** A string that does not start with white space keeps its head. *)
Definition starts_clean (s : string) : Prop :=
  match s with EmptyString => True | String c _ => is_ws c = false end.

Fixpoint map_chars (f : ascii -> ascii) (s : string) : string :=
  match s with
  | EmptyString => EmptyString
  | String c r => String (f c) (map_chars f r)
  end.

Definition lower_char (c : ascii) : ascii :=
  let n := nat_of_ascii c in
  if (Nat.leb 65 n && Nat.leb n 90)%bool then ascii_of_nat (n + 32) else c.

(** [String.prototype.toLowerCase] (ASCII range). *)
Definition toLowerCase (s : string) : string := map_chars lower_char s.

Definition backslash : ascii := ascii_of_nat 92.
Definition slash : ascii := ascii_of_nat 47.
Definition dot : ascii := ascii_of_nat 46.

(** [s.replace(/\\/g, '/')]. *)
Definition slashify (s : string) : string :=
  map_chars (fun c => if Ascii.eqb c backslash then slash else c) s.

(** [s.replace(c, '')]: only the first occurrence goes. *)
Fixpoint remove_first (c : ascii) (s : string) : string :=
  match s with
  | EmptyString => EmptyString
  | String d r => if Ascii.eqb d c then r else String d (remove_first c r)
  end.

(** [s.split(sep)] for a one-character separator. *)
Fixpoint split (sep : ascii) (s : string) : list string :=
  match s with
  | EmptyString => [EmptyString]
  | String c r =>
      if Ascii.eqb c sep then EmptyString :: split sep r
      else match split sep r with
           | seg :: segs => String c seg :: segs
           | [] => [String c EmptyString]
           end
  end.

(** [segs.join(sep)]. *)
Fixpoint join (sep : ascii) (segs : list string) : string :=
  match segs with
  | [] => EmptyString
  | [seg] => seg
  | seg :: r => seg +:+ String sep (join sep r)
  end.

Fixpoint last_char (s : string) : option ascii :=
  match s with
  | EmptyString => None
  | String c EmptyString => Some c
  | String _ r => last_char r
  end.

End JsString.

(** ** JavaScript sets of strings *)

Module JsSet.

(** [Set.prototype.has], [delete] and [add]. *)
Definition has (s : gset string) (x : string) : bool := bool_decide (x ∈ s).
Definition delete (x : string) (s : gset string) : gset string := s ∖ {[x]}.
Definition add (x : string) (s : gset string) : gset string := {[x]} ∪ s.

End JsSet.

(** ** JavaScript numbers *)

Module JsNumber.

(** An integer as a number; exact below 2^53. *)
Definition Z2F (z : Z) : float :=
  if (z <? 0)%Z then PrimFloat.opp (PrimFloat.of_uint63 (Uint63.of_Z (- z)))
  else PrimFloat.of_uint63 (Uint63.of_Z z).

(** [Math.round]: the nearest integer, ties towards +Infinity. A finite
    number is [±m·2^e]; with [e ≥ 0] it is an integer already. *)
Definition Math_round (x : float) : float :=
  match Prim2SF x with
  | S754_finite s m e =>
      if (0 <=? e)%Z then x
      else
        let sm := if s then Z.neg m else Z.pos m in
        let n := ((2 * sm + 2 ^ (- e)) / 2 ^ (1 - e))%Z in
        if (n =? 0)%Z then (if s then PrimFloat.neg_zero else PrimFloat.zero)
        else Z2F n
  | _ => x
  end.

(** [Number.isFinite] on a number. *)
Definition isFinite (x : float) : bool := PrimFloat.is_finite x.

(** The numbers that are falsy: [0], [-0] and [NaN]. *)
Definition falsy (x : float) : bool :=
  (PrimFloat.is_nan x || PrimFloat.is_zero x)%bool.

(** [x || 0] on a number. *)
Definition or0 (x : float) : float := if falsy x then 0%float else x.

(** [Math.max(a, b)] and [Math.min(a, b)]: [NaN] is contagious, and of two
    zeros the positive one is the larger. *)
Definition Math_max (a b : float) : float :=
  if (PrimFloat.is_nan a || PrimFloat.is_nan b)%bool then PrimFloat.nan
  else if (a <? b)%float then b
  else if (b <? a)%float then a
  else if (PrimFloat.is_zero a && PrimFloat.is_zero b)%bool then (a + b)%float
  else a.

Definition Math_min (a b : float) : float :=
  if (PrimFloat.is_nan a || PrimFloat.is_nan b)%bool then PrimFloat.nan
  else if (a <? b)%float then a
  else if (b <? a)%float then b
  else if (PrimFloat.is_zero a && PrimFloat.is_zero b)%bool then (- (- a + - b))%float
  else a.

(** The digits of a decimal numeral, as a natural number. *)
Fixpoint digits_value (acc : Z) (s : string) : Z :=
  match s with
  | EmptyString => acc
  | String c r => digits_value (10 * acc + Z.of_nat (nat_of_ascii c - 48)) r
  end.

(** A conversion of [digits] or [digits.digits] to a number, for the worked
    inputs: the correctly rounded quotient of the digits by the power of
    ten, exact as long as both are below 2^53. *)
Definition decimal (text : string) : float :=
  match JsString.split JsString.dot text with
  | [int] => Z2F (digits_value 0 int)
  | [int; frac] =>
      (Z2F (digits_value 0 (int +:+ frac)) / Z2F (10 ^ Z.of_nat (String.length frac)))%float
  | _ => PrimFloat.nan
  end.

(** The integers from [lo], [n] of them. *)
Definition Zrange (lo : Z) (n : nat) : list Z := map (fun i => (lo + Z.of_nat i)%Z) (seq 0 n).

(** [a >= b] and [a <= b]. *)
Definition ge (a b : float) : bool := (b <=? a)%float.
Definition le (a b : float) : bool := (a <=? b)%float.
Definition gt (a b : float) : bool := (b <? a)%float.
Definition lt (a b : float) : bool := (a <? b)%float.

End JsNumber.

(** ** JavaScript values read from tags and from parsed JSON *)

Module Js.

Inductive value : Type :=
| Nullish                 (** [undefined] or [null] *)
| Number (x : float)
| Str (s : string)
| Other.                  (** a boolean, an object, an array *)

End Js.

(** ** Node's [path.normalize], POSIX flavour

    The library's normalization as its documentation and source give it:
    runs of separators collapse, ["."] segments go, a [".."] segment
    removes the segment before it, a trailing separator is kept. *)

Module NodePath.
Import JsString.

(** [normalizeString]: [res] is the stack of kept segments, last first. *)
Fixpoint normalizeString (allowAboveRoot : bool) (res : list string) (segs : list string)
  : list string :=
  match segs with
  | [] => rev res
  | seg :: r =>
      if (String.eqb seg "" || String.eqb seg ".")%bool
      then normalizeString allowAboveRoot res r
      else if String.eqb seg ".."
      then match res with
           | top :: rest =>
               if String.eqb top ".."
               then normalizeString allowAboveRoot
                      (if allowAboveRoot then ".." :: res else res) r
               else normalizeString allowAboveRoot rest r
           | [] =>
               normalizeString allowAboveRoot
                 (if allowAboveRoot then [".."] else []) r
           end
      else normalizeString allowAboveRoot (seg :: res) r
  end.

(** [path.charCodeAt(0) === 47] and [path.charCodeAt(path.length - 1) === 47]. *)
Definition first_is_slash (path : string) : bool :=
  match path with String c _ => Ascii.eqb c slash | EmptyString => false end.

Definition last_is_slash (path : string) : bool :=
  match last_char path with Some d => Ascii.eqb d slash | None => false end.

(** The closing lines of [normalize], on the normalized body. *)
Definition finish (isAbsolute trailingSeparator : bool) (body : string) : string :=
  if negb (truthy body)
  then (if isAbsolute then "/" else if trailingSeparator then "./" else ".")
  else
    let body' := if trailingSeparator then body +:+ "/" else body in
    if isAbsolute then "/" +:+ body' else body'.

Definition normalize (path : string) : string :=
  if negb (truthy path) then "."
  else
    let isAbsolute := first_is_slash path in
    let trailingSeparator := last_is_slash path in
    finish isAbsolute trailingSeparator
      (join slash (normalizeString (negb isAbsolute) [] (split slash path))).

End NodePath.

(** ** The library store ([app/db/jsondb.js]) *)

Module JsonDb.
Import JsString JsSet.

(** The key of a track in [db.tracks]. *)
Definition normalizeKey (pth : string) : string :=
  if negb (truthy pth) then ""
  else toLowerCase (slashify (NodePath.normalize pth)).

(** A field of a track record as the merge reads it: absent, a string, or
    an array of strings. *)
Inductive field : Type :=
| Absent
| Scalar (s : string)
| Arr (l : list string).

Definition field_truthy (v : field) : bool :=
  match v with
  | Absent => false
  | Scalar s => truthy s
  | Arr _ => true
  end.

(** [v && Array.isArray(v) && v.length > 0]. *)
Definition nonempty_array (v : field) : bool :=
  match v with
  | Arr (_ :: _) => true
  | _ => false
  end.

Definition toArray (v : field) : list string :=
  match v with
  | Absent => []
  | Scalar s => if truthy s then [s] else []
  | Arr l => l
  end.

(** [unionInto(arr, values)]: the loop state is [(arr, seen)]. *)
Definition union_step (st : list string * gset string) (v : string)
  : list string * gset string :=
  let '(arr, seen) := st in
  if negb (has seen v) then (arr ++ [v], add v seen) else (arr, seen).

Definition unionInto (arr values : list string) : list string :=
  fst (foldl union_step (arr, list_to_set arr) values).

Record analysisRec : Type := {
  a_finalInstruments : field;
  a_final_instruments : field;
  a_instruments : field
}.

Record creativeRec : Type := {
  c_genre : field;
  c_mood : field;
  c_vocals : field;
  c_theme : field;
  c_instrument : field;
  c_suggestedInstruments : field
}.

Record trackRec : Type := {
  analysis : option analysisRec;
  finalInstruments : field;
  instruments : field;
  creative : option creativeRec
}.

(** [{}] *)
Definition emptyCreative : creativeRec :=
  {| c_genre := Absent; c_mood := Absent; c_vocals := Absent; c_theme := Absent;
     c_instrument := Absent; c_suggestedInstruments := Absent |}.

Definition emptyRec : trackRec :=
  {| analysis := None; finalInstruments := Absent; instruments := Absent;
     creative := None |}.

(** [newRec.analysis?.f] *)
Definition analysis_field (f : analysisRec -> field) (r : trackRec) : field :=
  match analysis r with Some a => f a | None => Absent end.

(** The chain of [if]s that fills [instrumentsToMerge]. *)
Definition instrumentsToMerge (newRec : trackRec) : field :=
  let cNew := default emptyCreative (creative newRec) in
  if nonempty_array (analysis_field a_finalInstruments newRec)
  then analysis_field a_finalInstruments newRec
  else if nonempty_array (analysis_field a_instruments newRec)
  then analysis_field a_instruments newRec
  else if nonempty_array (finalInstruments newRec) then finalInstruments newRec
  else if nonempty_array (instruments newRec) then instruments newRec
  else if nonempty_array (c_suggestedInstruments cNew) then c_suggestedInstruments cNew
  else if field_truthy (c_instrument cNew) then c_instrument cNew
  else Arr [].

(** [{ ...oldRec.analysis, ...newRec.analysis }] followed by the copy of
    [final_instruments]: a field present in the new record wins. *)
Definition spread (old new : field) : field :=
  match new with Absent => old | _ => new end.

Definition mergeAnalysis (old : option analysisRec) (new : option analysisRec)
  : option analysisRec :=
  match new with
  | None => old
  | Some n =>
      match old with
      | None => Some n
      | Some o =>
          Some {| a_finalInstruments := spread (a_finalInstruments o) (a_finalInstruments n);
                  a_final_instruments := spread (a_final_instruments o) (a_final_instruments n);
                  a_instruments := spread (a_instruments o) (a_instruments n) |}
      end
  end.

(** [mergeTrack(oldRec, newRec)], on the fields above. *)
Definition mergeTrack (oldRec newRec : trackRec) : trackRec :=
  let cOld := default emptyCreative (creative oldRec) in
  let cNew := default emptyCreative (creative newRec) in
  let toMerge := instrumentsToMerge newRec in
  let list_field f := Arr (unionInto (toArray (f cOld)) (toArray (f cNew))) in
  let cOut :=
    {| c_genre := list_field c_genre;
       c_mood := list_field c_mood;
       c_vocals := list_field c_vocals;
       c_theme := list_field c_theme;
       c_instrument := Arr (unionInto (toArray (c_instrument cOld)) (toArray toMerge));
       c_suggestedInstruments := c_suggestedInstruments cOld |} in
  {| analysis := mergeAnalysis (analysis oldRec) (analysis newRec);
     finalInstruments := finalInstruments oldRec;
     instruments := instruments oldRec;
     creative := Some cOut |}.

(** [rec.creative.instrument], as a list. *)
Definition instrument_list (r : trackRec) : list string :=
  toArray (c_instrument (default emptyCreative (creative r))).

(** The precedence in the words of the specification, to compare the chain
    of [if]s with: the sources from the highest down, the first non-empty
    array wins; [creative.instrument] comes last and only has to be truthy. *)
Definition precedence (newRec : trackRec) : list field :=
  [ analysis_field a_finalInstruments newRec;
    analysis_field a_instruments newRec;
    finalInstruments newRec;
    instruments newRec;
    c_suggestedInstruments (default emptyCreative (creative newRec)) ].

Definition first_nonempty_source (newRec : trackRec) : field :=
  match List.find nonempty_array (precedence newRec) with
  | Some v => v
  | None =>
      let legacy := c_instrument (default emptyCreative (creative newRec)) in
      if field_truthy legacy then legacy else Arr []
  end.

(** The record with its [analysis.final_instruments] replaced. *)
Definition with_final_instruments (v : field) (r : trackRec) : trackRec :=
  {| analysis :=
       Some {| a_finalInstruments := analysis_field a_finalInstruments r;
               a_final_instruments := v;
               a_instruments := analysis_field a_instruments r |};
     finalInstruments := finalInstruments r;
     instruments := instruments r;
     creative := creative r |}.

(** A record as the pipeline writes it, with its instruments at the root. *)
Definition pipelineRec (instr : list string) : trackRec :=
  {| analysis := None; finalInstruments := Arr instr; instruments := Arr instr;
     creative := None |}.

(** [db.tracks[key] = mergeTrack(db.tracks[key], analysis)]. *)
Definition upsertTrack (tracks : gmap string trackRec) (path : string) (rec : trackRec)
  : option (gmap string trackRec) :=
  let key := normalizeKey path in
  if negb (truthy key) then None
  else
    let prev := default emptyRec (tracks !! key) in
    Some (<[key := mergeTrack prev rec]> tracks).

End JsonDb.


(** ** The instrument finalizer: what its variants share

    The repository carries several copies of [finalize_instruments]. They
    share the merge-and-dedupe loop, the member tables of the brass and
    woodwind families, the bowed and pad tables of the Strings soft-guard
    and the closing order-assembly loops. *)

Module Finalize.
Import JsString JsSet.

Fixpoint alias (tbl : list (string * string)) (t : string) : option string :=
  match tbl with
  | [] => None
  | (k, v) :: r => if String.eqb k t then Some v else alias r t
  end.

(** [CANON_ALIASES[t] || t] with [t = (label || "").trim()]. *)
Definition normalize (tbl : list (string * string)) (label : string) : string :=
  let t := trim label in
  match alias tbl t with
  | Some v => if truthy v then v else t
  | None => t
  end.

(** The first loop: skip falsy entries, keep the first occurrence. *)
Fixpoint dedupe (seen : gset string) (merged : list string) : list string :=
  match merged with
  | [] => []
  | inst :: r =>
      if negb (truthy inst) then dedupe seen r
      else if negb (has seen inst) then inst :: dedupe (add inst seen) r
      else dedupe seen r
  end.

Definition BRASS_MEMBERS : list string :=
  [ "Trumpet"; "Trombone"; "French Horn"; "Tuba"; "Flugelhorn"; "Cornet";
    "Trumpet (mute)"; "Trumpet (muted)" ].

Definition WOODWIND_MEMBERS : list string :=
  [ "Saxophone"; "Alto Saxophone"; "Tenor Saxophone"; "Baritone Saxophone";
    "Flute"; "Clarinet"; "Oboe"; "Bassoon"; "Piccolo" ].

Definition BOWED : list string := [ "Violin"; "Viola"; "Cello"; "Double Bass" ].
Definition PADS : list string :=
  [ "Organ"; "Electric organ"; "Hammond organ"; "Keyboard"; "Synth" ].

(** [for (const mem of MEMBERS) outSet.delete(mem)]. *)
Definition delete_all (members : list string) (s : gset string) : gset string :=
  foldl (fun acc m => delete m acc) s members.

(** [[...MEMBERS].some(m => outSet.has(m))]. *)
Definition some_has (members : list string) (s : gset string) : bool :=
  existsb (has s) members.

(** The two closing loops share their body: push an item that is in [S0]
    and was not pushed before. The state is [(final, added)]. *)
Definition push_if (S0 : gset string) (st : list string * gset string) (i : string)
  : list string * gset string :=
  let '(final, added) := st in
  if (has S0 i && negb (has added i))%bool
  then (final ++ [i], add i added)
  else (final, added).

Definition assemble (labels : list string) (S0 : gset string) (out : list string)
  : list string :=
  let st := foldl (push_if S0) ([], ∅) out in
  fst (foldl (push_if S0) st labels).

End Finalize.

(** ** The instrument finalizer, canonical-token variant

    A copy of [finalize_instruments] with CommonJS exports: section forms
    are canonicalised to the plain tokens "Brass", "Woodwinds" and
    "Strings", and the Strings soft-guard takes "Brass" as an orchestral
    anchor. As written, the copy declares [const hasBrass] twice in the body
    of [finalizeInstruments], once for the brass collapse and once for the
    soft-guard, which an engine refuses when it loads the file. The
    embedding reads the body statement by statement, the second declaration
    as the binding it spells; what is proved of it holds of that text, not
    of a module that runs. *)

Module Canonical.
Import JsString JsSet Finalize.

Definition CANON_ALIASES : list (string * string) :=
  [ ("Drum set", "Drum Kit (acoustic)");
    ("Drums", "Drum Kit (acoustic)");
    ("Electric organ", "Organ");
    ("Hammond organ", "Organ");
    ("Strings (section)", "Strings");
    ("Strings", "Strings");
    ("Brass (section)", "Brass");
    ("Brass", "Brass");
    ("Woodwinds (section)", "Woodwinds");
    ("Woodwinds", "Woodwinds");
    ("Woodwind", "Woodwinds");
    ("Guitars", "Electric Guitar") ].

Definition collapse_brass (outSet : gset string) : gset string :=
  let hasBrassMember := some_has BRASS_MEMBERS outSet in
  let hasBrass := has outSet "Brass" in
  if (hasBrassMember || hasBrass)%bool
  then add "Brass" (delete "Brass (section)" (delete_all BRASS_MEMBERS outSet))
  else outSet.

Definition collapse_woodwinds (outSet : gset string) : gset string :=
  let hasWoodMember := some_has WOODWIND_MEMBERS outSet in
  let hasWoodwinds := has outSet "Woodwinds" in
  if (hasWoodMember || hasWoodwinds)%bool
  then add "Woodwinds"
         (delete "Woodwind"
            (delete "Woodwinds (section)" (delete_all WOODWIND_MEMBERS outSet)))
  else outSet.

(** The Strings soft-guard with the orchestral anchor (v1.2.0). *)
Definition soft_guard (S0 : gset string) : gset string :=
  let hasStrings := has S0 "Strings" in
  let hasBowed := some_has BOWED S0 in
  let hasPads := some_has PADS S0 in
  let hasBrass := has S0 "Brass" in
  if (hasStrings && negb hasBowed && hasPads && negb hasBrass)%bool
  then delete "Strings" S0
  else S0.

Definition FAMILY_LABELS : list string := [ "Brass"; "Woodwinds"; "Strings" ].

Definition finalizeInstruments
    (ensembleInstruments probeRescues additional : list string) : list string :=
  let merged :=
    map (normalize CANON_ALIASES) (ensembleInstruments ++ probeRescues ++ additional) in
  let out := dedupe ∅ merged in
  let outSet : gset string := list_to_set out in
  let S0 := soft_guard (collapse_woodwinds (collapse_brass outSet)) in
  assemble FAMILY_LABELS S0 out.

(** The set the finalizer ends with, [S] in the source. *)
Definition final_set (out : list string) : gset string :=
  soft_guard (collapse_woodwinds (collapse_brass (list_to_set out))).

End Canonical.

(** ** The instrument finalizer, section-tag variant

    [app/analysis/finalize_instruments.js], the ES module the ensemble
    wrapper imports: "Strings" and "Brass" are aliased to their "(section)"
    forms, a collapsed family keeps the section tag next to the plain token,
    and the soft-guard has no orchestral anchor. *)

Module SectionTags.
Import JsString JsSet Finalize.

Definition CANON_ALIASES : list (string * string) :=
  [ ("Drum set", "Drum Kit (acoustic)");
    ("Drums", "Drum Kit (acoustic)");
    ("Electric organ", "Organ");
    ("Hammond organ", "Organ");
    ("Strings", "Strings (section)");
    ("Brass", "Brass (section)");
    ("Guitars", "Electric Guitar") ].

Definition collapse_brass (outSet : gset string) : gset string :=
  let hasBrassMember := some_has BRASS_MEMBERS outSet in
  let hasBrassSection := has outSet "Brass (section)" in
  if (hasBrassMember || hasBrassSection)%bool
  then
    let s1 := delete_all BRASS_MEMBERS outSet in
    let s2 := if negb (has s1 "Brass (section)") then add "Brass (section)" s1 else s1 in
    if negb (has s2 "Brass") then add "Brass" s2 else s2
  else outSet.

Definition collapse_woodwinds (outSet : gset string) : gset string :=
  let hasWoodMember := some_has WOODWIND_MEMBERS outSet in
  let hasWoodSection := has outSet "Woodwinds (section)" in
  if (hasWoodMember || hasWoodSection)%bool
  then
    let s1 := delete_all WOODWIND_MEMBERS outSet in
    let s2 :=
      if negb (has s1 "Woodwinds (section)") then add "Woodwinds (section)" s1 else s1 in
    if negb (has s2 "Woodwinds") then add "Woodwinds" s2 else s2
  else outSet.

Definition soft_guard (S0 : gset string) : gset string :=
  let hasStringsSection := has S0 "Strings (section)" in
  let hasBowed := some_has BOWED S0 in
  let hasPads := some_has PADS S0 in
  if (hasStringsSection && negb hasBowed && hasPads)%bool
  then delete "Strings (section)" S0
  else S0.

Definition FAMILY_LABELS : list string := [ "Brass"; "Woodwinds" ].

Definition finalizeInstruments
    (ensembleInstruments probeRescues additional : list string) : list string :=
  let merged :=
    map (normalize CANON_ALIASES) (ensembleInstruments ++ probeRescues ++ additional) in
  let out := dedupe ∅ merged in
  let outSet : gset string := list_to_set out in
  let S0 := soft_guard (collapse_woodwinds (collapse_brass outSet)) in
  assemble FAMILY_LABELS S0 out.

(** A list the finalizer leaves in place, up to the plain "Brass" it
    appends: duplicate-free, its labels non-empty, fixed by the alias table
    and no family members, "Woodwinds" next to its section tag, and the
    strings tag only where the soft-guard lets it stand. *)
Definition settled (o : list string) : Prop :=
  NoDup o
  /\ (forall v, v ∈ o ->
        truthy v = true /\ normalize CANON_ALIASES v = v
        /\ (v ∉ BRASS_MEMBERS) /\ (v ∉ WOODWIND_MEMBERS))
  /\ ("Woodwinds (section)" ∈ o -> "Woodwinds" ∈ o)
  /\ ("Strings (section)" ∈ o ->
      (exists b, b ∈ BOWED /\ b ∈ o) \/ (forall p, p ∈ PADS -> p ∉ o)).

End SectionTags.

(** ** The tempo fields ([app/analysis/ffcalc.js]) *)

Module Tempo.
Import JsString JsNumber.

Definition is_digit (c : ascii) : bool :=
  let n := nat_of_ascii c in (Nat.leb 48 n && Nat.leb n 57)%bool.

(** The longest prefix of digits, and what follows it. *)
Fixpoint digits (s : string) : string * string :=
  match s with
  | EmptyString => (EmptyString, EmptyString)
  | String c r =>
      if is_digit c then let '(d, rest) := digits r in (String c d, rest)
      else (EmptyString, s)
  end.

(** [v.match(/([0-9]+(?:\.[0-9]+)?)/)]: the first run of digits, with a
    fraction when a dot and a digit follow. *)
Fixpoint first_decimal (s : string) : option string :=
  match s with
  | EmptyString => None
  | String c r =>
      if is_digit c then
        let '(int, rest) := digits s in
        match rest with
        | String d rest' =>
            if Ascii.eqb d dot then
              match digits rest' with
              | (EmptyString, _) => Some int
              | (frac, _) => Some (int +:+ String dot frac)
              end
            else Some int
        | EmptyString => Some int
        end
      else first_decimal r
  end.

Record tempoFields : Type := {
  bpm : option float;
  tempo_source : string;
  tempo_alt_half_bpm : option float;
  tempo_alt_double_bpm : option float
}.

Section WithRuntime.

(** [Number(text)] on a decimal literal, the conversion of the runtime. *)
Variable ToNumber : string -> float.

Definition in_range (n : float) : bool :=
  (isFinite n && gt n 0 && lt n 400)%bool.

(** [parseId3BpmSafe(id3Tags)], on the value of [id3Tags.bpm]. *)
Definition parseId3BpmSafe (v : Js.value) : option float :=
  match v with
  | Js.Nullish => None
  | Js.Number n => if in_range n then Some (Math_round n) else None
  | Js.Str text =>
      match first_decimal text with
      | None => None
      | Some m =>
          let n := ToNumber m in
          if in_range n then Some (Math_round n) else None
      end
  | Js.Other => None
  end.

(** [finalBpm !== __id3Parsed], [finalBpm] being a number or [null]. *)
Definition differs (finalBpm : option float) (parsed : float) : bool :=
  match finalBpm with
  | None => true
  | Some b => negb (b =? parsed)%float
  end.

(** An alternative tempo: [Math.round(finalBpm * factor)] when
    [finalBpm] is finite, kept when it lies in [50, 200]. *)
Definition altTempo (finalBpm : option float) (factor : float) : option float :=
  match finalBpm with
  | None => None
  | Some b =>
      if isFinite b then
        let alt := Math_round (b * factor)%float in
        if (isFinite alt && ge alt 50 && le alt 200)%bool then Some alt else None
      else None
  end.

(** The BPM override block of [completeAnalysisInBackground] and the
    tempo fields of the record built after it. *)
Definition overrideTempo (finalBpm : option float) (tempoSource : string)
    (id3bpm : Js.value) : tempoFields :=
  let '(finalBpm', tempoSource') :=
    match parseId3BpmSafe id3bpm with
    | Some parsed =>
        if differs finalBpm parsed then (Some parsed, "id3") else (finalBpm, tempoSource)
    | None => (finalBpm, tempoSource)
    end in
  {| bpm := finalBpm';
     tempo_source := tempoSource';
     tempo_alt_half_bpm := altTempo finalBpm' 0.5%float;
     tempo_alt_double_bpm := altTempo finalBpm' 2%float |}.

End WithRuntime.

(** What the alternative tempos of an integer tempo are. *)
Definition alt_of (n : Z) : option float :=
  if ((50 <=? n) && (n <=? 200))%Z then Some (Z2F n) else None.

Definition option_float_eqb (a b : option float) : bool :=
  match a, b with
  | Some x, Some y => PrimFloat.Leibniz.eqb x y
  | None, None => true
  | _, _ => false
  end.

(** The check behind the statements on a tag in [1, 399]. *)
Definition tag_check (z : Z) : bool :=
  (negb (PrimFloat.is_zero (Z2F z))
   && option_float_eqb (altTempo (Some (Z2F z)) 0.5%float) (alt_of ((z + 1) / 2))
   && option_float_eqb (altTempo (Some (Z2F z)) 2%float) (alt_of (2 * z)))%bool.

End Tempo.

(** ** The creative client's confidence ([runCreativeAnalysis]) *)

Module Creative.
Import JsString JsNumber.

Definition percent : ascii := ascii_of_nat 37.

(** A value read from JSON is never the number [NaN]. *)
Definition not_NaN (raw : Js.value) : Prop :=
  match raw with
  | Js.Number x => PrimFloat.is_nan x = false
  | _ => True
  end.

Section WithRuntime.

(** The runtime's [parseFloat]. *)
Variable parseFloat : string -> float.

Definition scale (num : float) : float :=
  if gt num 1 then (num / 100)%float else num.

Definition parseConfidence (raw : Js.value) : float :=
  match raw with
  | Js.Number x => scale x
  | Js.Str text =>
      let cleaned := trim (remove_first percent text) in
      let num := parseFloat cleaned in
      if isFinite num then scale num else 0.7%float
  | _ => 0.7%float
  end.

(** [Math.min(1, Math.max(0, parseConfidence(creative.confidence)))]. *)
Definition confidence (raw : Js.value) : float :=
  Math_min 1 (Math_max 0 (parseConfidence raw)).

End WithRuntime.

End Creative.

(** ** The mix-only rescue of the ensemble runners *)

Module Ensemble.
Import JsString JsNumber.

Record modelStats : Type := {
  mean_probs : gmap string float;
  pos_ratio : gmap string float
}.

(** [decision_trace.per_model]; a missing object reads as an empty one. *)
Record decisionTrace : Type := {
  panns : modelStats;
  yamnet : modelStats
}.

(** [tbl[k] || 0] *)
Definition get0 (tbl : gmap string float) (k : string) : float :=
  match tbl !! k with
  | Some v => or0 v
  | None => 0%float
  end.

Definition MEAN_ANY : float := 0.006%float.
Definition POS_ANY : float := 0.02%float.
Definition PANN_POS_BONUS : float := 0.06%float.
Definition MAX_PICKS : nat := 4.

(** [arr.sort((a, b) => b.score - a.score)]: a stable insertion sort. An
    item moves in front of the items on its left for as long as the
    comparator, called on the item and its left neighbour, is negative. *)
Section Sort.
Context {A : Type}.
Variable score : A -> float.

Definition comparator (a b : A) : float := (score b - score a)%float.

Definition before (a b : A) : bool := lt (comparator a b) 0.

(** Insert [x], which followed all of [sorted] in the input. *)
Fixpoint insert_last (sorted : list A) (x : A) : list A :=
  match sorted with
  | [] => [x]
  | l :: rest =>
      if List.forallb (before x) sorted
      then x :: sorted
      else l :: insert_last rest x
  end.

Definition sort_desc (l : list A) : list A := foldl insert_last [] l.

(** [a] may stand right in front of [b]: the comparator puts [a] first, or
    at least does not put [b] first. *)
Definition ranked (a b : A) : Prop := before a b = true \/ before b a = false.
End Sort.

(** *** [analyzeWithEnsemble] (the CommonJS runner) *)

Definition CORE : list string :=
  [ "acoustic_guitar"; "electric_guitar"; "bass_guitar"; "drum_kit";
    "piano"; "organ"; "brass"; "strings" ].

Record candidate : Type := {
  key : string;
  score : float;
  meanCombined : float;
  posCombined : float;
  posP : float
}.

Definition consider (dt : decisionTrace) (k : string) : option candidate :=
  let meanCombined := or0 (get0 (mean_probs (panns dt)) k + get0 (mean_probs (yamnet dt)) k)%float in
  let posCombined := or0 (get0 (pos_ratio (panns dt)) k + get0 (pos_ratio (yamnet dt)) k)%float in
  let posP := get0 (pos_ratio (panns dt)) k in
  let pass := ((ge meanCombined MEAN_ANY && ge posCombined POS_ANY)
               || ge posP PANN_POS_BONUS)%bool in
  if pass then
    Some {| key := k;
            score := (meanCombined * 0.7 + posCombined * 0.3)%float;
            meanCombined := meanCombined;
            posCombined := posCombined;
            posP := posP |}
  else None.

Definition candidates (dt : decisionTrace) : list candidate :=
  sort_desc score (omap (consider dt) CORE).

Definition is_word_char (c : ascii) : bool :=
  let n := nat_of_ascii c in
  ((Nat.leb 48 n && Nat.leb n 57) || (Nat.leb 65 n && Nat.leb n 90)
   || (Nat.leb 97 n && Nat.leb n 122) || Nat.eqb n 95)%bool.

Definition upper_char (c : ascii) : ascii :=
  let n := nat_of_ascii c in
  if (Nat.leb 97 n && Nat.leb n 122)%bool then ascii_of_nat (n - 32) else c.

(** [s.replace(/\b\w/g, c => c.toUpperCase())] *)
Fixpoint capitalize_words (after_word : bool) (s : string) : string :=
  match s with
  | EmptyString => EmptyString
  | String c r =>
      String (if (is_word_char c && negb after_word)%bool then upper_char c else c)
             (capitalize_words (is_word_char c) r)
  end.

Definition underscore : ascii := ascii_of_nat 95.
Definition space : ascii := ascii_of_nat 32.

Definition pretty (k : string) : string :=
  if String.eqb k "drum_kit" then "Drum Kit (acoustic)"
  else if String.eqb k "bass_guitar" then "Bass Guitar"
  else if String.eqb k "electric_guitar" then "Electric Guitar"
  else if String.eqb k "acoustic_guitar" then "Acoustic Guitar"
  else if String.eqb k "piano" then "Piano"
  else if String.eqb k "organ" then "Organ"
  else if String.eqb k "brass" then "Brass (section)"
  else if String.eqb k "strings" then "Strings (section)"
  else capitalize_words false
         (map_chars (fun c => if Ascii.eqb c underscore then space else c) k).

Definition rescuePicks (dt : decisionTrace) : list string :=
  map (fun x => pretty (key x)) (take MAX_PICKS (candidates dt)).

(** What a run of [analyzeWithEnsemble] leaves: [parsed.instruments], the
    copy of the instruments that the rescue block works on and that the log
    prints as the final instruments, and the instruments of [result], the
    object as it was read from the ensemble, which the promise resolves with
    and which the block does not touch. *)
Record ensembleRun : Type := {
  parsed_instruments : list string;
  resolved_instruments : list string
}.

(** The rescue block runs when [parsed.instruments] is empty and a decision
    trace is there, and assigns its picks to [parsed.instruments] when there
    are any. *)
Definition analyzeWithEnsemble (instruments : list string) (dt : option decisionTrace)
  : ensembleRun :=
  let parsed :=
    match instruments, dt with
    | [], Some t =>
        match rescuePicks t with
        | [] => instruments
        | picks => picks
        end
    | _, _ => instruments
    end in
  {| parsed_instruments := parsed; resolved_instruments := instruments |}.

(** *** [mixOnlyRescue] and its gate in [runEnsemble] (the ES-module wrapper) *)

Definition CANDIDATES : list (string * string) :=
  [ ("electric_guitar", "Electric Guitar");
    ("acoustic_guitar", "Acoustic Guitar");
    ("bass_guitar", "Bass Guitar");
    ("drum_kit", "Drum Kit (acoustic)");
    ("piano", "Piano");
    ("organ", "Organ") ].

Record pick : Type := { label : string; pick_score : float }.

Definition try_pick (dt : decisionTrace) (c : string * string) : option pick :=
  let '(k, lbl) := c in
  let mean := (get0 (mean_probs (panns dt)) k + get0 (mean_probs (yamnet dt)) k)%float in
  let pos := (get0 (pos_ratio (panns dt)) k + get0 (pos_ratio (yamnet dt)) k)%float in
  let pass := ((ge mean MEAN_ANY && ge pos POS_ANY)
               || ge (get0 (pos_ratio (panns dt)) k) PANN_POS_BONUS)%bool in
  if pass then Some {| label := lbl; pick_score := (mean + pos)%float |} else None.

Definition mixOnlyRescue (dt : option decisionTrace) : list string :=
  match dt with
  | None => []
  | Some t =>
      map label (take MAX_PICKS (sort_desc pick_score (omap (try_pick t) CANDIDATES)))
  end.

Definition runEnsembleInstruments (instruments : list string) (usedDemucs : bool)
    (dt : option decisionTrace) : list string :=
  match instruments with
  | [] =>
      if negb usedDemucs then
        match mixOnlyRescue dt with
        | [] => instruments
        | rescue => rescue
        end
      else instruments
  | _ => instruments
  end.

(** *** The rule in the words of the specification *)

(** A candidate passes when the two means add up to [0.006] and the two
    positive ratios to [0.02], or the PANNs positive ratio alone reaches
    [0.06]; a missing entry counts as 0. *)
Definition passes (dt : decisionTrace) (k : string) : bool :=
  let mean := (get0 (mean_probs (panns dt)) k + get0 (mean_probs (yamnet dt)) k)%float in
  let pos := (get0 (pos_ratio (panns dt)) k + get0 (pos_ratio (yamnet dt)) k)%float in
  ((ge mean 0.006 && ge pos 0.02) || ge (get0 (pos_ratio (panns dt)) k) 0.06)%bool.

(** The two rankings, by candidate key: the combined mean and the combined
    positive ratio weighted 0.7 to 0.3, a sum that is no number or zero
    counting as 0; and their plain sum. *)
Definition weighted (dt : decisionTrace) (k : string) : float :=
  let mean := or0 (get0 (mean_probs (panns dt)) k + get0 (mean_probs (yamnet dt)) k)%float in
  let pos := or0 (get0 (pos_ratio (panns dt)) k + get0 (pos_ratio (yamnet dt)) k)%float in
  (mean * 0.7 + pos * 0.3)%float.

Definition summed (dt : decisionTrace) (k : string) : float :=
  let mean := (get0 (mean_probs (panns dt)) k + get0 (mean_probs (yamnet dt)) k)%float in
  let pos := (get0 (pos_ratio (panns dt)) k + get0 (pos_ratio (yamnet dt)) k)%float in
  (mean + pos)%float.

(** The display names of the candidates. *)
Definition DISPLAY : list (string * string) :=
  [ ("acoustic_guitar", "Acoustic Guitar");
    ("electric_guitar", "Electric Guitar");
    ("bass_guitar", "Bass Guitar");
    ("drum_kit", "Drum Kit (acoustic)");
    ("piano", "Piano");
    ("organ", "Organ");
    ("brass", "Brass (section)");
    ("strings", "Strings (section)") ].

Definition display (k : string) : string := default k (Finalize.alias DISPLAY k).

(** [a] stands somewhere before [b] in [l]. *)
Definition precedes {A : Type} (a b : A) (l : list A) : Prop := [a; b] `sublist_of` l.

(** *** Worked traces *)

Definition noStats : modelStats := {| mean_probs := ∅; pos_ratio := ∅ |}.

(** The third end-to-end scenario: a guitar that only the PANNs positive
    ratio lets through. *)
Definition guitar_trace : decisionTrace :=
  {| panns := {| mean_probs := {[ "electric_guitar" := 0.01%float ]};
                 pos_ratio := {[ "electric_guitar" := 0.07%float ]} |};
     yamnet := {| mean_probs := {[ "electric_guitar" := 0%float ]};
                  pos_ratio := {[ "electric_guitar" := 0%float ]} |} |}.

Definition brass_trace : decisionTrace :=
  {| panns := {| mean_probs := {[ "brass" := 0.01%float ]};
                 pos_ratio := {[ "brass" := 0.07%float ]} |};
     yamnet := noStats |}.

(** A guitar with the larger mean and a piano with the larger ratio. *)
Definition guitar_piano_trace : decisionTrace :=
  {| panns := {| mean_probs := {[ "electric_guitar" := 0.05%float ]}
                               ∪ {[ "piano" := 0.01%float ]};
                 pos_ratio := {[ "electric_guitar" := 0.02%float ]}
                              ∪ {[ "piano" := 0.1%float ]} |};
     yamnet := noStats |}.

(** Six candidates pass; the ranking keeps four. *)
Definition crowded_trace : decisionTrace :=
  {| panns := {| mean_probs := ∅;
                 pos_ratio := {[ "piano" := 0.5%float ]} ∪ {[ "organ" := 0.4%float ]}
                              ∪ {[ "brass" := 0.3%float ]} ∪ {[ "strings" := 0.2%float ]}
                              ∪ {[ "drum_kit" := 0.9%float ]}
                              ∪ {[ "bass_guitar" := 0.1%float ]} |};
     yamnet := noStats |}.

End Ensemble.

(** ** The background orchestration ([completeAnalysisInBackground]) *)

Module Orchestration.

Inductive mode : Type := SEQUENTIAL | CONCURRENT.

Inductive phase : Type := Creative | Instrumentation.

#[global] Instance phase_eq_dec : EqDecision phase.
Proof. solve_decision. Defined.

(** An [async] function body over the two phase calls: each node is an
    [await] of a call, the continuation is what runs once it resolved.
    [creativeData] is the [data] field of the creative result, handed to
    instrumentation as its hints. *)
Inductive async (creativeData instrumentation R : Type) : Type :=
| Return (r : R)
| AwaitCreative (k : creativeData -> async creativeData instrumentation R)
| AwaitInstrumentation (hints : creativeData)
    (k : instrumentation -> async creativeData instrumentation R).

Arguments Return {creativeData instrumentation R} r.
Arguments AwaitCreative {creativeData instrumentation R} k.
Arguments AwaitInstrumentation {creativeData instrumentation R} hints k.

(** What an observer of one track sees: a phase is called, with the
    creative data it was handed if any, and a phase completes. *)
Inductive event (creativeData : Type) : Type :=
| Started (p : phase) (hints : option creativeData)
| Completed (p : phase).

Arguments Started {creativeData} p hints.
Arguments Completed {creativeData} p.

Section Async.
Context {creativeData instrumentation : Type}.

(** The two phase calls of [completeAnalysisInBackground], in both modes:
    the part of the function that this embedding covers.
    [Return (creativeResult, instrumentationResult)] stands for the point
    where both awaits have resolved and for the two results in hand there.
    The function goes on from that point (the tempo override, the finalizer,
    the writes and the upsert, none of them embedded) and has no [return]
    statement: the pair is not the value its promise resolves to. *)
Definition completeAnalysisInBackground (m : mode)
  : async creativeData instrumentation (creativeData * instrumentation) :=
  match m with
  | SEQUENTIAL =>
      AwaitCreative (fun creativeResult =>
        AwaitInstrumentation creativeResult (fun instrumentationResult =>
          Return (creativeResult, instrumentationResult)))
  | CONCURRENT =>
      AwaitCreative (fun creativeResult =>
        AwaitInstrumentation creativeResult (fun instrumentationResult =>
          Return (creativeResult, instrumentationResult)))
  end.

(** Running a body against the services: [await f(x)] starts the call,
    the body is suspended until the call completes, then the
    continuation runs. *)
Fixpoint run {R} (runCreativeAnalysis : creativeData)
    (runInstrumentationAnalysis : creativeData -> instrumentation)
    (body : async creativeData instrumentation R) : list (event creativeData) * R :=
  match body with
  | Return r => ([], r)
  | AwaitCreative k =>
      let '(tr, r) := run runCreativeAnalysis runInstrumentationAnalysis
                        (k runCreativeAnalysis) in
      (Started Creative None :: Completed Creative :: tr, r)
  | AwaitInstrumentation hints k =>
      let '(tr, r) := run runCreativeAnalysis runInstrumentationAnalysis
                        (k (runInstrumentationAnalysis hints)) in
      (Started Instrumentation (Some hints) :: Completed Instrumentation :: tr, r)
  end.

Definition is_start (p : phase) (e : event creativeData) : bool :=
  match e with
  | Started q _ => bool_decide (p = q)
  | Completed _ => false
  end.

Definition is_completion (p : phase) (e : event creativeData) : bool :=
  match e with
  | Completed q => bool_decide (p = q)
  | _ => false
  end.

(** Position of the first event that satisfies [f]. *)
Fixpoint position (f : event creativeData -> bool) (tr : list (event creativeData))
  : option nat :=
  match tr with
  | [] => None
  | e :: r => if f e then Some 0 else S <$> position f r
  end.

End Async.

(** *** The background queue

    [enqueueBackgroundTask] puts the body of a track in [backgroundQueue];
    [processNextBackgroundTask] starts the first queued body while fewer
    than [MAX_BACKGROUND_CONCURRENCY] are active. Started bodies of
    different tracks interleave at their [await]s. *)

Definition MAX_BACKGROUND_CONCURRENCY : nat := 4.

Section Queue.
Context {creativeData instrumentation R : Type}.

(** The services, per track. *)
Variable runCreativeAnalysis : nat -> creativeData.
Variable runInstrumentationAnalysis : nat -> creativeData -> instrumentation.

#[local] Abbreviation body_t := (async creativeData instrumentation R).
#[local] Abbreviation log_t := (list (nat * event creativeData)).

Inductive task : Type :=
| Queued (body : body_t)
| Ready (body : body_t)
| InCreative (k : creativeData -> body_t)
| InInstrumentation (hints : creativeData) (k : instrumentation -> body_t)
| Finished (r : R).

(** Counted by [activeBackgroundTasks]. *)
Definition is_active (t : task) : bool :=
  match t with
  | Ready _ | InCreative _ | InInstrumentation _ _ => true
  | Queued _ | Finished _ => false
  end.

Definition is_queued (t : task) : bool :=
  match t with Queued _ => true | _ => false end.

Definition active_count (tasks : list task) : nat :=
  length (List.filter is_active tasks).

(** One step of the track [i]: what it shows, if anything, and its next
    state. A completion step is an await that settles; the relation lets it
    happen and does not force it. The code sets no timeout on either
    service, and a run in which a started body never completes is a run of
    this relation as well. *)
Inductive task_step (i : nat) : task -> option (event creativeData) -> task -> Prop :=
| step_call_creative k :
    task_step i (Ready (AwaitCreative k)) (Some (Started Creative None)) (InCreative k)
| step_creative_done k :
    task_step i (InCreative k) (Some (Completed Creative))
      (Ready (k (runCreativeAnalysis i)))
| step_call_instrumentation hints k :
    task_step i (Ready (AwaitInstrumentation hints k))
      (Some (Started Instrumentation (Some hints))) (InInstrumentation hints k)
| step_instrumentation_done hints k :
    task_step i (InInstrumentation hints k) (Some (Completed Instrumentation))
      (Ready (k (runInstrumentationAnalysis i hints)))
| step_finish r :
    task_step i (Ready (Return r)) None (Finished r).

(** The entries a step adds to the log. *)
Definition logged (i : nat) (e : option (event creativeData)) : log_t :=
  match e with Some ev => [(i, ev)] | None => [] end.

(** One step of the queue: the first queued body is started when there is
    room, or a started body moves. The log pairs each event with its track. *)
Inductive queue_step : list task * log_t -> list task * log_t -> Prop :=
| step_admit tasks log i body :
    tasks !! i = Some (Queued body) ->
    (forall j t, j < i -> tasks !! j = Some t -> is_queued t = false) ->
    active_count tasks < MAX_BACKGROUND_CONCURRENCY ->
    queue_step (tasks, log) (<[i := Ready body]> tasks, log)
| step_track tasks log i t e t' :
    tasks !! i = Some t ->
    task_step i t e t' ->
    queue_step (tasks, log) (<[i := t']> tasks, log ++ logged i e).

(** The states the queue can be in after [bodies] were enqueued. *)
Inductive reachable (bodies : list body_t) : list task * log_t -> Prop :=
| reach_start : reachable bodies (Queued <$> bodies, [])
| reach_step st st' : reachable bodies st -> queue_step st st' -> reachable bodies st'.

(** What the log shows of the track [i]. *)
Definition shown (i : nat) (log : log_t) : list (event creativeData) :=
  snd <$> List.filter (fun ie => Nat.eqb (fst ie) i) log.

(** What the track [i] will still show. *)
Definition pending (i : nat) (t : task) : list (event creativeData) :=
  let rest body :=
    fst (run (runCreativeAnalysis i) (runInstrumentationAnalysis i) body) in
  match t with
  | Queued body | Ready body => rest body
  | InCreative k => Completed Creative :: rest (k (runCreativeAnalysis i))
  | InInstrumentation hints k =>
      Completed Instrumentation :: rest (k (runInstrumentationAnalysis i hints))
  | Finished _ => []
  end.

(** In the log, the track [i] starts instrumentation at a point where its
    creative phase has not completed. *)
Definition starts_instrumentation_early (i : nat) (log : log_t) : Prop :=
  exists before hints after,
    log = before ++ (i, Started Instrumentation hints) :: after
    /\ (i, Completed Creative) ∉ before.

End Queue.

(** The four events of the background work of one track. *)
Definition phases {creativeData} (creative : creativeData) : list (event creativeData) :=
  [ Started Creative None; Completed Creative;
    Started Instrumentation (Some creative); Completed Instrumentation ].

(** A worked schedule of two tracks. *)
Definition demo_creative (i : nat) : string :=
  match i with 0 => "creative 0" | _ => "creative 1" end.

Definition demo_instrumentation (i : nat) (hints : string) : string :=
  hints +:+ " + instrumentation".

Definition two_tracks_midway
  : list (task (R := string * string)) * list (nat * event string) :=
  ([ InCreative (fun creativeResult =>
       AwaitInstrumentation creativeResult (fun instrumentationResult =>
         Return (creativeResult, instrumentationResult)));
     InInstrumentation "creative 1" (fun instrumentationResult =>
       Return ("creative 1", instrumentationResult)) ],
   [ (0, Started Creative None); (1, Started Creative None);
     (1, Completed Creative); (1, Started Instrumentation (Some "creative 1")) ]).

End Orchestration.

(** ** Runs of the background queue *)

Module Scheduling.
Import Orchestration.

(** Six tracks enqueued, the first four started: the queue is full. *)
Definition six_tracks_full
  : list (task (creativeData:=string) (instrumentation:=string) (R:=string * string))
    * list (nat * event string) :=
  (map Ready (replicate 4 (completeAnalysisInBackground CONCURRENT))
   ++ map Queued (replicate 2 (completeAnalysisInBackground CONCURRENT)), []).

End Scheduling.

(** ** The criteria side of the library store ([app/db/jsondb.js]) *)

Module Criteria.
Import JsNumber.

(** [tempoToBand(bpm)]; [None] is [null]. *)
Definition tempoToBand (bpm : float) : option string :=
  if negb (isFinite bpm) then None
  else if lt bpm 60 then Some "Very Slow (Below 60 BPM)"
  else if lt bpm 90 then Some "Slow (60-90 BPM)"
  else if lt bpm 110 then Some "Medium (90-110 BPM)"
  else if lt bpm 140 then Some "Upbeat (110-140 BPM)"
  else if lt bpm 160 then Some "Fast (140-160 BPM)"
  else Some "Very Fast (160+ BPM)".

(** The creative fields that [mergeTrack] unions in its loop. *)
Definition list_fields : list (JsonDb.creativeRec -> JsonDb.field) :=
  [ JsonDb.c_genre; JsonDb.c_mood; JsonDb.c_vocals; JsonDb.c_theme ].

(** The items of a list, each at its first occurrence. *)
Fixpoint first_occurrences (l : list string) : list string :=
  match l with
  | [] => []
  | x :: r => x :: filter (fun y => y <> x) (first_occurrences r)
  end.

(** The values of [new] that [old] lacks, each once, in the order in which
    [new] first has them. *)
Definition fresh_values (old new : list string) : list string :=
  first_occurrences (filter (fun x => x ∉ old) new).

End Criteria.

(** ** The per-track JSON merger ([app/db/mergeFromTrackJson.js]) *)

Module TrackJson.
Import JsString JsSet.

(** The body of the loop of [uniqCI]; the state is [(seen, out)]. *)
Definition uniqCI_step (st : gset string * list string) (v : string)
  : gset string * list string :=
  let '(seen, out) := st in
  if negb (truthy v) then st
  else
    let k := trim v in
    let ck := toLowerCase k in
    if negb (has seen ck) then (add ck seen, out ++ [k]) else st.

Definition uniqCI (arr : list string) : list string :=
  snd (foldl uniqCI_step (∅, []) arr).

(** [s.includes(k)]. *)
Fixpoint includes (s k : string) : bool :=
  (String.prefix k s
   || match s with
      | EmptyString => false
      | String _ r => includes r k
      end)%bool.

Definition brassKeys : list string :=
  [ "trumpet"; "trombone"; "horn"; "flugelhorn"; "cornet"; "brass";
    "brass section"; "brass (section)" ].

Definition woodKeys : list string :=
  [ "sax"; "saxophone"; "tenor sax"; "alto sax"; "baritone sax"; "flute";
    "clarinet"; "woodwind"; "woodwinds"; "woodwinds (section)" ].

(** [keys.some(k => lowered.some(item => item.includes(k)))]. *)
Definition hasAny (lowered keys : list string) : bool :=
  existsb (fun k => existsb (fun item => includes item k) lowered) keys.

(** [lowered.some(x => x === a || x === b)]. *)
Definition has_label (lowered : list string) (a b : string) : bool :=
  existsb (fun x => (String.eqb x a || String.eqb x b)%bool) lowered.

(** The two tests that guard the pushes of a family label. *)
Definition lacks_brass (arr : list string) : bool :=
  let lowered := map toLowerCase arr in
  (hasAny lowered brassKeys && negb (has_label lowered "brass" "brass (section)"))%bool.

Definition lacks_woodwinds (arr : list string) : bool :=
  let lowered := map toLowerCase arr in
  (hasAny lowered woodKeys
   && negb (has_label lowered "woodwinds" "woodwinds (section)"))%bool.

(** [addInstrumentFamilies(arr)]: the contents of [arr] when it returns. *)
Definition addInstrumentFamilies (arr : list string) : list string :=
  match arr with
  | [] => []
  | _ =>
      let arr1 := if lacks_brass arr then arr ++ ["Brass"] else arr in
      let arr2 := if lacks_woodwinds arr then arr1 ++ ["Woodwinds"] else arr1 in
      uniqCI arr2
  end.

End TrackJson.

(** ** JavaScript sets in iteration order

    Where the code turns a [Set] back into an array, its insertion order
    counts: the set is the list of its elements, first insertion first. *)

Module OrderedSet.

Definition has (S0 : list string) (x : string) : bool := bool_decide (x ∈ S0).

(** [S.add(x)] appends a new element, and leaves an old one in place. *)
Definition add (x : string) (S0 : list string) : list string :=
  if has S0 x then S0 else S0 ++ [x].

Definition delete (x : string) (S0 : list string) : list string :=
  List.filter (fun y => negb (String.eqb y x)) S0.

(** [new Set(arr)]. *)
Definition of_array (arr : list string) : list string :=
  foldl (fun S0 x => add x S0) [] arr.

End OrderedSet.

(** ** The renderer's access to instruments ([app/renderer/instrument_access.js]) *)

Module InstrumentAccess.
Import JsonDb.

(** [Array.isArray(v) && v.length], and the array then returned. *)
Definition array_of (v : field) : list string :=
  match v with Arr l => l | _ => [] end.

Definition getDetectedInstruments (track : trackRec) : list string :=
  if nonempty_array (finalInstruments track) then array_of (finalInstruments track)
  else if nonempty_array (instruments track) then array_of (instruments track)
  else
    let c := default emptyCreative (creative track) in
    if nonempty_array (c_instrument c) then array_of (c_instrument c)
    else
      if nonempty_array (analysis_field a_final_instruments track)
      then array_of (analysis_field a_final_instruments track)
      else if nonempty_array (analysis_field a_finalInstruments track)
      then array_of (analysis_field a_finalInstruments track)
      else if nonempty_array (analysis_field a_instruments track)
      then array_of (analysis_field a_instruments track)
      else [].

Definition brassKids : list string := [ "Trumpet"; "Trombone"; "Saxophone"; "French Horn" ].
Definition stringsKids : list string := [ "Violin"; "Viola"; "Cello"; "Double Bass" ].

(** [kids.filter(i => S.has(i)).length]. *)
Definition count_in (S0 kids : list string) : nat :=
  length (List.filter (OrderedSet.has S0) kids).

Definition deriveSectionTags (accepted : list string) : list string :=
  let S0 := OrderedSet.of_array accepted in
  let brassCount := count_in S0 brassKids in
  let stringsCount := count_in S0 stringsKids in
  let S1 := if 2 <=? brassCount then OrderedSet.add "Brass (section)" S0
            else OrderedSet.delete "Brass (section)" S0 in
  if 2 <=? stringsCount then OrderedSet.add "Strings (section)" S1
  else OrderedSet.delete "Strings (section)" S1.

(** A series of upserts into the library store; [None] once one throws. *)
Fixpoint upsertAll (tracks : gmap string trackRec) (ops : list (string * trackRec))
  : option (gmap string trackRec) :=
  match ops with
  | [] => Some tracks
  | (path, rec) :: rest =>
      match upsertTrack tracks path rec with
      | Some tracks' => upsertAll tracks' rest
      | None => None
      end
  end.

(** What [mergeTrack] needs of the record it starts from, and keeps: no
    instruments at the root, and no duplicate in [creative.instrument]. *)
Definition plain (r : trackRec) : Prop :=
  finalInstruments r = Absent /\ instruments r = Absent /\ NoDup (instrument_list r).

(** An entry as [mergeTrack] leaves it. *)
Definition stored (r : trackRec) : Prop :=
  plain r /\ c_instrument (default emptyCreative (creative r)) = Arr (instrument_list r).

(** A key as [normalizeKey] returns it for a non-empty path. *)
Definition key_shape (k : string) : Prop :=
  k <> "" /\ JsString.toLowerCase k = k /\ JsString.slashify k = k.

End InstrumentAccess.

(** ** The renderer's normalization of an analysis object
       ([normalizeAnalysis], with [app/renderer/instrument_access.js]) *)

Module AnalysisShape.
Import JsString JsonDb.

(** The fields of the analysis object that [normalizeAnalysis] reads or
    writes. The two source flags are strings when present; [analysis_bpm]
    is [a.analysis.bpm], nullish when [a.analysis] is missing. *)
Record analysisObj : Type := {
  final_instruments : field;
  instruments_ensemble : field;
  instrument_source : option string;
  instruments : field;
  instrumentsSource : option string;
  audioDetected : field;
  bpm : Js.value;
  tempo : Js.value;
  analysis_bpm : Js.value
}.

Definition isArray (v : field) : bool :=
  match v with Arr _ => true | _ => false end.

(** [Array.isArray(v) ? v.slice() : []]. *)
Definition slice_or_empty (v : field) : field :=
  match v with Arr l => Arr l | _ => Arr [] end.

(** [x || y] on two strings that may be missing. *)
Definition or_else (x y : option string) : option string :=
  match x with
  | Some s => if truthy s then x else y
  | None => y
  end.

Definition is_number (v : Js.value) : bool :=
  match v with Js.Number _ => true | _ => false end.

Definition is_nullish (v : Js.value) : bool :=
  match v with Js.Nullish => true | _ => false end.

(** The three assignments of an instruments branch. *)
Definition set_instruments (a : analysisObj) (instr : field) (source : option string)
    (detected : field) : analysisObj :=
  {| final_instruments := final_instruments a;
     instruments_ensemble := instruments_ensemble a;
     instrument_source := instrument_source a;
     instruments := instr;
     instrumentsSource := source;
     audioDetected := detected;
     bpm := bpm a; tempo := tempo a; analysis_bpm := analysis_bpm a |}.

Definition set_bpm (a : analysisObj) (v : Js.value) : analysisObj :=
  {| final_instruments := final_instruments a;
     instruments_ensemble := instruments_ensemble a;
     instrument_source := instrument_source a;
     instruments := instruments a;
     instrumentsSource := instrumentsSource a;
     audioDetected := audioDetected a;
     bpm := v; tempo := tempo a; analysis_bpm := analysis_bpm a |}.

(** The first part of the body: the instruments. *)
Definition normalize_instruments (a : analysisObj) : analysisObj :=
  if isArray (final_instruments a)
  then set_instruments a (final_instruments a) (Some "finalized") (final_instruments a)
  else if (isArray (instruments_ensemble a)
           && bool_decide (instrument_source a = Some "ensemble"))%bool
  then set_instruments a (instruments_ensemble a) (Some "ensemble")
         (instruments_ensemble a)
  else if (negb (isArray (instruments a)) && isArray (instruments_ensemble a))%bool
  then set_instruments a (instruments_ensemble a) (Some "ensemble")
         (instruments_ensemble a)
  else set_instruments a (instruments a)
         (or_else (instrumentsSource a) (or_else (instrument_source a) (Some "legacy")))
         (slice_or_empty (instruments a)).

(** The second part: the tempo. *)
Definition normalize_tempo (a : analysisObj) : analysisObj :=
  if is_nullish (bpm a)
  then if is_number (tempo a) then set_bpm a (tempo a)
       else if is_number (analysis_bpm a) then set_bpm a (analysis_bpm a)
       else a
  else a.

Definition normalizeAnalysis (a : analysisObj) : analysisObj :=
  normalize_tempo (normalize_instruments a).

End AnalysisShape.

(** ** The schema guard of the creative client ([app/creative/llm_parse.js]) *)

Module LlmParse.
Import JsString.

#[local] Set Warnings "-register-all".

(** A value of parsed JSON, or [undefined]. *)
Inductive value : Type :=
| Undefined
| Null
| Bool (b : bool)
| Num (x : float)
| Str (s : string)
| Arr (items : list value)
| Obj.

(** The eight properties [coerceCreativeSchema] reads off [obj], each
    [Undefined] when [obj] lacks it or is itself nullish; and the object it
    returns. *)
Record creativeObj : Type := {
  genre : value;
  mood : value;
  theme : value;
  suggestedInstruments : value;
  vocals : value;
  lyricThemes : value;
  narrative : value;
  confidence : value
}.

Definition truthy_value (v : value) : bool :=
  match v with
  | Undefined | Null => false
  | Bool b => b
  | Num x => negb (JsNumber.falsy x)
  | Str s => truthy s
  | Arr _ | Obj => true
  end.

(** [Array.isArray(v) ? v : (v ? [v] : [])]. *)
Definition array_or_single (v : value) : value :=
  match v with
  | Arr _ => v
  | _ => if truthy_value v then Arr [v] else Arr []
  end.

(** [Array.isArray(v) ? v : []]. *)
Definition array_or_empty (v : value) : value :=
  match v with Arr _ => v | _ => Arr [] end.

Definition coerceCreativeSchema (obj : creativeObj) : creativeObj :=
  {| genre := array_or_single (genre obj);
     mood := array_or_single (mood obj);
     theme := array_or_empty (theme obj);
     suggestedInstruments := array_or_empty (suggestedInstruments obj);
     vocals := array_or_empty (vocals obj);
     lyricThemes := array_or_empty (lyricThemes obj);
     narrative := match narrative obj with Str s => Str s | _ => Str "" end;
     confidence :=
       match confidence obj with
       | Num x => if JsNumber.isFinite x then Num x else Num 0.6
       | _ => Num 0.6
       end |}.

Definition is_array (v : value) : bool :=
  match v with Arr _ => true | _ => false end.

(** The shape downstream code relies on: six arrays, a string and a finite
    number. *)
Definition well_formed (obj : creativeObj) : bool :=
  (is_array (genre obj) && is_array (mood obj) && is_array (theme obj)
   && is_array (suggestedInstruments obj) && is_array (vocals obj)
   && is_array (lyricThemes obj)
   && match narrative obj with Str _ => true | _ => false end
   && match confidence obj with Num x => JsNumber.isFinite x | _ => false end)%bool.

End LlmParse.

(** ** The rescue from the audio probe ([_rescueFromProbe], ensemble helpers
       of [app/analysis/ffcalc.js]) *)

Module ProbeRescue.
Import JsString.

Definition ENSEMBLE_RESCUE_PRIORITY : list string :=
  [ "Electric Guitar"; "Acoustic Guitar"; "Bass Guitar"; "Drum Kit (acoustic)";
    "Piano"; "Organ"; "Brass (section)"; "Strings" ].

Definition PROBE_TO_DISPLAY : list (string * string) :=
  [ ("electric guitar", "Electric Guitar");
    ("acoustic guitar", "Acoustic Guitar");
    ("bass", "Bass Guitar");
    ("drumkit", "Drum Kit (acoustic)");
    ("piano", "Piano");
    ("organ", "Organ");
    ("brass", "Brass (section)");
    ("strings", "Strings") ].

(** [arr.indexOf(x)], counted from [i]. *)
Fixpoint index_from (i : Z) (arr : list string) (x : string) : Z :=
  match arr with
  | [] => (-1)%Z
  | y :: rest => if String.eqb y x then i else index_from (i + 1)%Z rest x
  end.

Definition indexOf (arr : list string) (x : string) : Z := index_from 0 arr x.

(** The comparator of the sort. *)
Definition by_priority (a b : string) : Z :=
  (indexOf ENSEMBLE_RESCUE_PRIORITY a - indexOf ENSEMBLE_RESCUE_PRIORITY b)%Z.

(** A stable sort with the comparator [cmp]: each element, in input order,
    goes in front of the first one it has to precede. *)
Fixpoint insert_by (cmp : string -> string -> Z) (sorted : list string) (x : string)
  : list string :=
  match sorted with
  | [] => [x]
  | e :: rest =>
      if (cmp x e <? 0)%Z then x :: sorted else e :: insert_by cmp rest x
  end.

Definition sort_by (cmp : string -> string -> Z) (arr : list string) : list string :=
  foldl (insert_by cmp) [] arr.

(** The loop over [detected]: the display names of the known probe names. *)
Fixpoint lookup (tbl : list (string * string)) (k : string) : option string :=
  match tbl with
  | [] => None
  | (k', v) :: rest => if String.eqb k' k then Some v else lookup rest k
  end.

Definition mapped (detected : list string) : list string :=
  omap (fun raw => lookup PROBE_TO_DISPLAY (toLowerCase raw)) detected.

(** [None] is a probe that is missing or has no [detected] array. *)
Definition _rescueFromProbe (detected : option (list string)) : list string :=
  match detected with
  | None | Some [] => []
  | Some d =>
      let uniq := OrderedSet.of_array (mapped d) in
      take 4 (sort_by by_priority uniq)
  end.

End ProbeRescue.

(** ** The wrapper's view of the Python result ([normalizePyResult]) *)

Module PyResult.
Import JsString.

(** An entry of [decision_trace.boosts]: its [added] and [add] properties,
    [None] when not an array. *)
Record boostEntry : Type := {
  added : option (list Js.value);
  add : option (list Js.value)
}.

Definition added_of (e : boostEntry) : list Js.value :=
  match added e with
  | Some l => l
  | None => match add e with Some l => l | None => [] end
  end.

(** The body of the inner loop, on the instruments (strings) so far. *)
Definition push_booster (instruments : list string) (inst : Js.value) : list string :=
  match inst with
  | Js.Str s =>
      if (truthy s && negb (bool_decide (s ∈ instruments)))%bool
      then instruments ++ [s] else instruments
  | _ => instruments
  end.

(** The loop over [Object.values(boosts)]; [None] is an entry that is not
    an object. *)
Definition merge_boosters (instruments : list string) (boosts : list (option boostEntry))
  : list string :=
  foldl (fun acc entry =>
           match entry with
           | Some e => foldl push_booster acc (added_of e)
           | None => acc
           end) instruments boosts.

(** The instruments the boosters name. *)
Definition boosted (boosts : list (option boostEntry)) : list Js.value :=
  concat (map (fun entry => match entry with Some e => added_of e | None => [] end) boosts).

End PyResult.

(** ** Names made safe for files and keys

    [fileSafe] ([app/utils/fileSafeName.js]), [slugifyForFs] (the ensemble
    runner's log names) and [normalizeStem] ([app/lib/pathNormalize.js]):
    chains of [replace] with a character class, [trim] and [toLowerCase]. *)

Module Sanitize.
Import JsString.

Definition code_in (lo hi : nat) (c : ascii) : bool :=
  (Nat.leb lo (nat_of_ascii c) && Nat.leb (nat_of_ascii c) hi)%bool.

Definition code_is (n : nat) (c : ascii) : bool := Nat.eqb (nat_of_ascii c) n.

Definition underscore : ascii := ascii_of_nat 95.
Definition space : ascii := ascii_of_nat 32.

(** Every character of the string is in the class. *)
Fixpoint all_chars (P : ascii -> bool) (s : string) : bool :=
  match s with
  | EmptyString => true
  | String c r => (P c && all_chars P r)%bool
  end.

(** [s.replace(/[class]/g, '')]. *)
Fixpoint remove_chars (P : ascii -> bool) (s : string) : string :=
  match s with
  | EmptyString => EmptyString
  | String c r => if P c then remove_chars P r else String c (remove_chars P r)
  end.

(** [s.replace(/[class]+/g, rep)]: each maximal run of the class becomes
    one [rep]; [in_run] tells that the run was replaced already. *)
Fixpoint collapse_runs (P : ascii -> bool) (rep : ascii) (in_run : bool) (s : string)
  : string :=
  match s with
  | EmptyString => EmptyString
  | String c r =>
      if P c
      then (if in_run then collapse_runs P rep true r
            else String rep (collapse_runs P rep true r))
      else String c (collapse_runs P rep false r)
  end.

Definition replace_runs (P : ascii -> bool) (rep : ascii) (s : string) : string :=
  collapse_runs P rep false s.

(** [[A-Za-z0-9._ -]] *)
Definition file_safe_char (c : ascii) : bool :=
  (code_in 65 90 c || code_in 97 122 c || code_in 48 57 c
   || code_is 46 c || code_is 95 c || code_is 32 c || code_is 45 c)%bool.

Definition fileSafe (stem : string) : string :=
  map_chars (fun c => if file_safe_char c then c else underscore) stem.

(** The class of the first [replace] of [slugifyForFs]: slash, backslash,
    colon, question mark, star, double quote, angle brackets, bar. *)
Definition fs_reserved (c : ascii) : bool :=
  (code_is 47 c || code_is 92 c || code_is 58 c || code_is 63 c || code_is 42 c
   || code_is 34 c || code_is 60 c || code_is 62 c || code_is 124 c)%bool.

Definition slugifyForFs (s : string) : string :=
  toLowerCase (replace_runs is_ws underscore (replace_runs fs_reserved underscore s)).

(** What a slug is made of. *)
Definition slug_char (c : ascii) : bool :=
  (negb (fs_reserved c) && negb (is_ws c) && negb (code_in 65 90 c))%bool.

Definition is_paren (c : ascii) : bool := (code_is 40 c || code_is 41 c)%bool.

Definition underscore_to_space (c : ascii) : ascii :=
  if code_is 95 c then space else c.

Definition normalizeStem (name : string) : string :=
  toLowerCase
    (trim (replace_runs is_ws space
             (map_chars underscore_to_space (remove_chars is_paren name)))).

(** What a stem is made of, and how its white space sits: single spaces,
    none first, none last. *)
Definition stem_char (c : ascii) : bool :=
  (negb (is_paren c) && negb (code_is 95 c) && negb (code_in 65 90 c)
   && (negb (is_ws c) || code_is 32 c))%bool.

Fixpoint single_spaced (after_ws : bool) (s : string) : bool :=
  match s with
  | EmptyString => true
  | String c r =>
      if is_ws c then (negb after_ws && single_spaced true r)%bool
      else single_spaced false r
  end.

Definition ends_clean (s : string) : bool :=
  match last_char s with Some c => negb (is_ws c) | None => true end.

Definition clean_stem (s : string) : bool :=
  (all_chars stem_char s && single_spaced true s && ends_clean s)%bool.

End Sanitize.

(** ** The instrument finalizer, variant with a Strings family (v1.0.1)

    The third copy of [finalize_instruments]: the canonical-token variant
    with a collapse of the string instruments into "Strings", a soft-guard
    without orchestral anchor, and a closing pass that restores the
    capitalization of the three family tokens. *)

Module StringsFamily.
Import JsString JsSet Finalize.

Definition STRING_MEMBERS : list string :=
  [ "Violin"; "Viola"; "Cello"; "Double Bass"; "Harp" ].

Definition collapse_strings (outSet : gset string) : gset string :=
  let hasStringMember := some_has STRING_MEMBERS outSet in
  let hasStrings := has outSet "Strings" in
  if (hasStringMember || hasStrings)%bool
  then add "Strings" (delete "Strings (section)" (delete_all STRING_MEMBERS outSet))
  else outSet.

Definition soft_guard (outSet : gset string) : gset string :=
  let hasBowed := some_has BOWED outSet in
  let hasPads := some_has PADS outSet in
  if (has outSet "Strings" && negb hasBowed && hasPads)%bool
  then delete "Strings" outSet
  else outSet.

Definition canonicalizeCapitalization (inst : string) : string :=
  let low := toLowerCase inst in
  if String.eqb low "brass" then "Brass"
  else if String.eqb low "woodwinds" then "Woodwinds"
  else if String.eqb low "strings" then "Strings"
  else inst.

(** [final], the list before the capitalization pass. *)
Definition final (ensembleInstruments probeRescues additional : list string)
  : list string :=
  let merged :=
    map (normalize Canonical.CANON_ALIASES)
      (ensembleInstruments ++ probeRescues ++ additional) in
  let out := dedupe ∅ merged in
  let outSet : gset string := list_to_set out in
  let S0 :=
    soft_guard
      (collapse_strings
         (Canonical.collapse_woodwinds (Canonical.collapse_brass outSet))) in
  assemble Canonical.FAMILY_LABELS S0 out.

Definition finalizeInstruments
    (ensembleInstruments probeRescues additional : list string) : list string :=
  map canonicalizeCapitalization (final ensembleInstruments probeRescues additional).

End StringsFamily.



(** ** The audio probes: merging the hints of the windows

    [runAudioProbes] runs a CLAP probe and an AST probe on three windows of
    the file, and merges their hints. A probe that ran returns [hints], an
    object of booleans, and (CLAP only) [scores], an object of numbers; a
    probe that was skipped has neither. *)

Module Probes.
Import JsNumber.

Abbreviation hints_t := (gmap string bool).
Abbreviation scores_t := (gmap string float).

Record probe := {
  hints : option hints_t;
  scores : option scores_t;
}.

(** [h.k] in a condition: a key that is not there is falsy. *)
Definition truthy_at (h : hints_t) (k : string) : bool := default false (h !! k).

(** [orHints(a = {}, b = {})]. *)
Definition orHints (a b : option hints_t) : hints_t :=
  let a := default ∅ a in
  let b := default ∅ b in
  union_with (fun x y => Some (x || y)%bool) a b.

(** [scores.k || 0]. *)
Definition score (scores : scores_t) (k : string) : float :=
  match scores !! k with
  | Some x => or0 x
  | None => 0%float
  end.

(** [familyHit]: one of the specific brass instruments is present. *)
Definition familyHit (scores : scores_t) : bool :=
  (ge (score scores "trumpet") 0x1.70a3d70a3d70ap-3 (* 0.18 *)
   || ge (score scores "trombone") 0x1.47ae147ae147bp-3 (* 0.16 *)
   || ge (score scores "saxophone") 0x1.70a3d70a3d70ap-3 (* 0.18 *))%bool.

(** [cleanHints(hints, scores)]: the object [hints] is updated in place and
    returned; the value here is that object after the call. *)
Definition cleanHints (hints : hints_t) (scores : scores_t) : hints_t :=
  let hints :=
    if (truthy_at hints "banjo" && truthy_at hints "guitar")%bool then
      let banjoScore := score scores "banjo" in
      let guitarScore := Math_max (score scores "guitar") (score scores "electric guitar") in
      if gt guitarScore (banjoScore * 1.5)%float
      then <["banjo" := false]> hints
      else hints
    else hints in
  if truthy_at hints "brass" then
    let brass := score scores "brass" in
    let piano := score scores "piano" in
    let hints :=
      if (negb (familyHit scores) && lt brass 0x1.c28f5c28f5c29p-3 (* 0.22 *))%bool
      then <["brass" := false]> hints
      else hints in
    if (truthy_at hints "brass" && ge piano 0x1.6666666666666p-2 (* 0.35 *)
        && negb (familyHit scores) && lt brass 0x1.1eb851eb851ecp-2 (* 0.28 *))%bool
    then <["brass" := false]> hints
    else hints
  else hints.

(** What [cleanHints] leaves of the brass hint, in terms of the scores. *)
Definition brass_evidence (s : scores_t) : bool :=
  (familyHit s
   || ge (score s "brass") 0x1.1eb851eb851ecp-2
   || (ge (score s "brass") 0x1.c28f5c28f5c29p-3 && lt (score s "piano") 0x1.6666666666666p-2))%bool.

(** [p.hints && p.hints.vocals], as a condition. *)
Definition hint_of (h : option hints_t) (k : string) : bool :=
  match h with
  | Some m => truthy_at m k
  | None => false
  end.

(** The hints that [runAudioProbes] returns, from the results of the three
    CLAP probes and the hints of the three AST probes. *)
Definition runAudioProbes_hints (clapIntro clapMiddle clapOutro : probe)
    (intro middle outro : option hints_t) : hints_t :=
  let vocalsClap :=
    (hint_of (hints clapIntro) "vocals" || hint_of (hints clapMiddle) "vocals"
     || hint_of (hints clapOutro) "vocals")%bool in
  let vocalsAst :=
    (hint_of intro "vocals" || hint_of middle "vocals" || hint_of outro "vocals")%bool in
  let hints :=
    orHints
      (Some (orHints (hints clapIntro) (hints clapMiddle)))
      (Some (orHints (hints clapOutro)
               (Some (orHints intro (Some (orHints middle outro)))))) in
  let hints := <["vocals" := (vocalsClap && vocalsAst)%bool]> hints in
  (* Object.assign({}, a, b, c): a later object overrides an earlier one *)
  let allScores : scores_t :=
    default ∅ (scores clapOutro) ∪ default ∅ (scores clapMiddle)
      ∪ default ∅ (scores clapIntro) in
  cleanHints hints allScores.

End Probes.

(* ===================================================================== *)
(** * Part II: properties *)
(* ===================================================================== *)

(** ** String primitives *)

Section TrimFacts.
Import JsString.

Lemma trimEnd_String_nonempty c r :
  trimEnd r <> EmptyString -> trimEnd (String c r) = String c (trimEnd r).
Proof. simpl. destruct (trimEnd r); congruence. Qed.

Lemma trimEnd_idem s : trimEnd (trimEnd s) = trimEnd s.
Proof.
  induction s as [|c r IH]; [reflexivity|].
  simpl. destruct (trimEnd r) as [|c' r'] eqn:E.
  - destruct (is_ws c) eqn:W; [reflexivity|]. simpl. rewrite W. reflexivity.
  - rewrite trimEnd_String_nonempty; rewrite IH; congruence.
Qed.

Lemma trimStart_clean s : starts_clean (trimStart s).
Proof.
  induction s as [|c r IH]; simpl; [exact I|].
  destruct (is_ws c) eqn:W; [exact IH | simpl; exact W].
Qed.

Lemma trimStart_of_clean s : starts_clean s -> trimStart s = s.
Proof. destruct s as [|c r]; simpl; [reflexivity | intros ->; reflexivity]. Qed.

Lemma trimEnd_clean s : starts_clean s -> starts_clean (trimEnd s).
Proof.
  destruct s as [|c r]; simpl; [intros _; exact I|].
  intros W. rewrite W. destruct (trimEnd r); simpl; exact W.
Qed.

Lemma trim_idem s : trim (trim s) = trim s.
Proof.
  unfold trim.
  rewrite (trimStart_of_clean (trimEnd (trimStart s))).
  - apply trimEnd_idem.
  - apply trimEnd_clean, trimStart_clean.
Qed.

End TrimFacts.

(** ** The finalizer's shared loops *)

Section FinalizeFacts.
Import JsString JsSet Finalize.

Lemma has_true s x : has s x = true <-> x ∈ s.
Proof. unfold has. apply bool_decide_eq_true. Qed.

Lemma has_false s x : has s x = false <-> x ∉ s.
Proof. unfold has. apply bool_decide_eq_false. Qed.

(** Adding to the set of a list is the set of the list with the item
    appended: the loops keep their set and their array in step. *)
Lemma add_snoc (l : list string) (x : string) :
  add x (list_to_set l) = list_to_set (C:=gset string) (l ++ [x]).
Proof. unfold add. rewrite list_to_set_app_L. simpl. set_solver. Qed.

Lemma elem_of_delete_all members s x :
  x ∈ delete_all members s <-> x ∈ s /\ (x ∉ members).
Proof.
  unfold delete_all. revert s.
  induction members as [|m ms IH]; intros s; simpl.
  - set_solver.
  - rewrite IH. unfold delete. set_solver.
Qed.

Lemma some_has_true members s :
  some_has members s = true <-> exists x, x ∈ members /\ x ∈ s.
Proof.
  unfold some_has. rewrite existsb_exists.
  split; intros (x & H1 & H2); exists x.
  - split; [by apply list_elem_of_In | by apply has_true].
  - split; [by apply list_elem_of_In | by apply has_true].
Qed.

Lemma some_has_false members s :
  some_has members s = false <-> forall x, x ∈ members -> x ∉ s.
Proof.
  rewrite <- not_true_iff_false, some_has_true. split.
  - intros H x Hm Hs. apply H. eauto.
  - intros H (x & Hm & Hs). exact (H x Hm Hs).
Qed.

(** *** The dedupe loop *)

Lemma elem_of_dedupe seen l x :
  x ∈ dedupe seen l <-> x ∈ l /\ truthy x = true /\ (x ∉ seen).
Proof.
  revert seen. induction l as [|a r IH]; intros seen; simpl.
  - set_solver.
  - destruct (truthy a) eqn:T; simpl.
    + destruct (has seen a) eqn:Hs; simpl.
      * apply has_true in Hs. rewrite IH. set_solver.
      * apply has_false in Hs. rewrite elem_of_cons, IH. unfold add.
        split.
        -- intros [->|(?&?&?)]; [set_solver|]. set_solver.
        -- intros (Hx & Ht & Hn). destruct (decide (x = a)) as [->|Hne]; [by left|].
           right. set_solver.
    + rewrite IH. split.
      * intros (?&?&?). set_solver.
      * intros (Hx & Ht & Hn). apply elem_of_cons in Hx as [->|Hx]; [congruence|done].
Qed.

Lemma NoDup_dedupe seen l : NoDup (dedupe seen l).
Proof.
  revert seen. induction l as [|a r IH]; intros seen; simpl.
  - constructor.
  - destruct (truthy a); simpl; [|apply IH].
    destruct (has seen a); simpl; [apply IH|].
    constructor; [|apply IH].
    rewrite elem_of_dedupe. unfold add. set_solver.
Qed.

(** On a list that is already duplicate-free, free of empty strings and
    fresh for [seen], the loop changes nothing. *)
Lemma dedupe_fixed seen l :
  NoDup l -> (forall x, x ∈ l -> truthy x = true) -> (forall x, x ∈ l -> x ∉ seen) ->
  dedupe seen l = l.
Proof.
  revert seen. induction l as [|a r IH]; intros seen Hnd Ht Hs; simpl; [reflexivity|].
  inversion Hnd as [|? ? Ha Hr]; subst.
  rewrite (Ht a) by set_solver. simpl.
  assert (has seen a = false) as -> by (apply has_false, Hs; set_solver).
  simpl. f_equal. apply IH; [done| |].
  - intros x Hx. apply Ht. set_solver.
  - intros x Hx. unfold add. specialize (Hs x). set_solver.
Qed.

(** *** The order-assembly loops *)

Lemma push_if_inv S0 l final added :
  added = list_to_set final ->
  snd (foldl (push_if S0) (final, added) l)
  = list_to_set (fst (foldl (push_if S0) (final, added) l)).
Proof.
  revert final added. induction l as [|a r IH]; intros final added ->; simpl; [reflexivity|].
  destruct (has S0 a && negb (has (list_to_set final) a))%bool.
  - apply IH. unfold add. rewrite list_to_set_app_L. simpl. set_solver.
  - by apply IH.
Qed.

Lemma elem_of_push_if S0 l final x :
  x ∈ fst (foldl (push_if S0) (final, list_to_set final) l)
  <-> x ∈ final \/ (x ∈ l /\ x ∈ S0).
Proof.
  revert final. induction l as [|a r IH]; intros final; simpl.
  - set_solver.
  - destruct (has S0 a) eqn:HS; simpl.
    + apply has_true in HS.
      destruct (has (list_to_set final) a) eqn:HA; simpl.
      * apply has_true in HA. rewrite elem_of_list_to_set in HA.
        rewrite IH. set_solver.
      * rewrite (add_snoc final a).
        rewrite IH. set_solver.
    + apply has_false in HS. rewrite IH. set_solver.
Qed.

Lemma NoDup_push_if S0 l final :
  NoDup final -> NoDup (fst (foldl (push_if S0) (final, list_to_set final) l)).
Proof.
  revert final. induction l as [|a r IH]; intros final Hnd; simpl; [done|].
  destruct (has S0 a) eqn:HS; simpl; [|by apply IH].
  destruct (has (list_to_set final) a) eqn:HA; simpl; [by apply IH|].
  apply has_false in HA. rewrite elem_of_list_to_set in HA.
  rewrite (add_snoc final a).
  apply IH. apply NoDup_app. split; [done|]. split; [set_solver|]. apply NoDup_singleton.
Qed.

Lemma assemble_unfold labels S0 out :
  assemble labels S0 out
  = fst (foldl (push_if S0)
           (fst (foldl (push_if S0) ([], ∅) out),
            list_to_set (fst (foldl (push_if S0) ([], ∅) out))) labels).
Proof.
  unfold assemble.
  rewrite <- (push_if_inv S0 out [] ∅) by reflexivity.
  by destruct (foldl (push_if S0) ([], ∅) out).
Qed.

Lemma elem_of_assemble labels S0 out x :
  x ∈ assemble labels S0 out <-> (x ∈ out \/ x ∈ labels) /\ x ∈ S0.
Proof.
  rewrite assemble_unfold, elem_of_push_if.
  change (∅ : gset string) with (list_to_set (C:=gset string) []).
  rewrite elem_of_push_if. set_solver.
Qed.

Lemma NoDup_assemble labels S0 out : NoDup (assemble labels S0 out).
Proof.
  rewrite assemble_unfold. apply NoDup_push_if.
  change (∅ : gset string) with (list_to_set (C:=gset string) []).
  apply NoDup_push_if. constructor.
Qed.

End FinalizeFacts.

(** ** The canonical-token finalizer *)

Section CanonicalFacts.
Import JsString JsSet Finalize Canonical.

Lemma alias_target tbl t v : alias tbl t = Some v -> v ∈ map snd tbl.
Proof.
  induction tbl as [|[k w] r IH]; simpl; [discriminate|].
  destruct (String.eqb k t); [intros [= ->]; by left | intros H; right; auto].
Qed.

(** Every alias target is itself fixed by the table, so a normalized
    label normalizes to itself. *)
Lemma alias_target_fixed t v :
  alias CANON_ALIASES t = Some v -> normalize CANON_ALIASES v = v.
Proof.
  intros H%alias_target. revert v H. apply Forall_forall.
  repeat constructor.
Qed.

Lemma normalize_idem label :
  normalize CANON_ALIASES (normalize CANON_ALIASES label) = normalize CANON_ALIASES label.
Proof.
  unfold normalize at 2 3.
  destruct (alias CANON_ALIASES (trim label)) as [v|] eqn:E.
  - assert (Hv : normalize CANON_ALIASES v = v) by exact (alias_target_fixed _ _ E).
    destruct (truthy v) eqn:T; [exact Hv|].
    destruct v; [|discriminate]. vm_compute in Hv. 
    unfold normalize. rewrite trim_idem, E. reflexivity.
  - unfold normalize. rewrite trim_idem, E. reflexivity.
Qed.

End CanonicalFacts.

Section CanonicalFinalize.
Import JsString JsSet Finalize Canonical.

Lemma map_fixed {A} (f : A -> A) (l : list A) :
  (forall v, v ∈ l -> f v = v) -> map f l = l.
Proof.
  induction l as [|a r IH]; intros H; simpl; [reflexivity|].
  rewrite H by set_solver. f_equal. apply IH. intros v Hv. apply H. set_solver.
Qed.

Lemma finalize_unfold x y z :
  finalizeInstruments x y z
  = assemble FAMILY_LABELS
      (final_set (dedupe ∅ (map (normalize CANON_ALIASES) (x ++ y ++ z))))
      (dedupe ∅ (map (normalize CANON_ALIASES) (x ++ y ++ z))).
Proof. reflexivity. Qed.

Lemma family_label_fixed v :
  v ∈ FAMILY_LABELS -> truthy v = true /\ normalize CANON_ALIASES v = v.
Proof.
  unfold FAMILY_LABELS. rewrite !elem_of_cons, elem_of_nil.
  intros [->|[->|[->|H]]]; [| | |destruct H]; split; reflexivity.
Qed.

Lemma out_fixed l v :
  v ∈ dedupe ∅ (map (normalize CANON_ALIASES) l) ->
  truthy v = true /\ normalize CANON_ALIASES v = v.
Proof.
  rewrite elem_of_dedupe. intros (Hv & Ht & _). split; [done|].
  apply list_elem_of_In, in_map_iff in Hv as (w & <- & _). apply normalize_idem.
Qed.

Lemma finalized_fixed x y z v :
  v ∈ finalizeInstruments x y z -> truthy v = true /\ normalize CANON_ALIASES v = v.
Proof.
  rewrite finalize_unfold, elem_of_assemble. intros [[H|H] _].
  - by apply out_fixed in H.
  - by apply family_label_fixed.
Qed.

End CanonicalFinalize.

(** ** The section-tag finalizer *)

Lemma section_finalized_origin (x y z : list string) (v : string) :
  v ∈ SectionTags.finalizeInstruments x y z -> JsString.truthy v = true.
Proof.
  unfold SectionTags.finalizeInstruments. rewrite elem_of_assemble.
  intros [[H|H] _].
  - apply elem_of_dedupe in H. tauto.
  - revert H. unfold SectionTags.FAMILY_LABELS. rewrite !elem_of_cons, elem_of_nil.
    intros [->|[->|H]]; [reflexivity|reflexivity|destruct H].
Qed.

(** ** Worked inputs *)

Example section_keeps_tag :
  SectionTags.finalizeInstruments ["Strings"; "Violin"; "Organ"] [] []
  = ["Strings (section)"; "Violin"; "Organ"].
Proof. vm_compute. reflexivity. Qed.

Example section_soft_guard :
  SectionTags.finalizeInstruments ["Strings"; "Organ"; "Brass"] [] []
  = ["Organ"; "Brass (section)"; "Brass"]
  /\ SectionTags.finalizeInstruments ["Flute"; "Trumpet"] [] [] = ["Brass"; "Woodwinds"]
  /\ SectionTags.finalizeInstruments ["Brass"; "Woodwinds"] [] []
     = ["Brass (section)"; "Woodwinds"; "Brass"].
Proof. vm_compute. repeat split. Qed.

(** ** The section-tag finalizer: order and repeated passes *)

Section OrderFacts.
Import JsString JsSet Finalize.

Lemma filter_agrees {A} (P Q : A -> Prop) `{!forall x, Decision (P x)}
    `{!forall x, Decision (Q x)} (l : list A) :
  (forall x, x ∈ l -> (P x <-> Q x)) -> filter P l = filter Q l.
Proof.
  induction l as [|a r IH]; intros Hext; [reflexivity|].
  rewrite !filter_cons.
  assert (Ha : P a <-> Q a) by (apply Hext; set_solver).
  assert (Hr : filter P r = filter Q r)
    by (apply IH; intros x Hx; apply Hext; set_solver).
  rewrite Hr. destruct (decide (P a)), (decide (Q a)); tauto.
Qed.

(** One closing loop, in closed form: it appends to [final] the items of
    a duplicate-free list that are in [S0] and not yet in [final]. *)
Lemma push_if_filter S0 l : forall final,
  NoDup l ->
  fst (foldl (push_if S0) (final, list_to_set final) l)
  = final ++ filter (fun x => x ∈ S0 /\ x ∉ final) l.
Proof.
  induction l as [|a r IH]; intros final Hnd; simpl.
  - by rewrite app_nil_r.
  - inversion Hnd as [|? ? Ha Hr]; subst. rewrite filter_cons.
    destruct (has S0 a) eqn:HS; simpl.
    + apply has_true in HS.
      destruct (has (list_to_set final) a) eqn:HA; simpl.
      * apply has_true in HA. rewrite elem_of_list_to_set in HA.
        rewrite decide_False by tauto. by apply IH.
      * apply has_false in HA. rewrite elem_of_list_to_set in HA.
        rewrite decide_True by tauto.
        rewrite (add_snoc final a), IH by done. rewrite <- app_assoc. simpl.
        do 2 f_equal. apply filter_agrees. intros x Hx.
        rewrite elem_of_app, list_elem_of_singleton.
        assert (x <> a) by (intros ->; done). tauto.
    + apply has_false in HS. rewrite decide_False by tauto. by apply IH.
Qed.

(** The two closing loops: the items of [out] that are in [S0], in their
    order, then the labels that are in [S0] and were not among them. *)
Lemma assemble_closed labels S0 out :
  NoDup out -> NoDup labels ->
  assemble labels S0 out
  = filter (fun x => x ∈ S0) out
    ++ filter (fun f => f ∈ S0 /\ f ∉ filter (fun x => x ∈ S0) out) labels.
Proof.
  intros Ho Hl. rewrite assemble_unfold.
  change (∅ : gset string) with (list_to_set (C:=gset string) []).
  rewrite (push_if_filter S0 out []) by done. simpl.
  rewrite (filter_agrees (fun x => x ∈ S0 /\ x ∉ []) (fun x => x ∈ S0) out)
    by (intros x _; set_solver).
  by apply push_if_filter.
Qed.

End OrderFacts.

Section SectionTagSets.
Import JsString JsSet Finalize SectionTags.

#[local] Abbreviation N := (normalize CANON_ALIASES).
#[local] Abbreviation settled := SectionTags.settled.
#[local] Abbreviation final_of o :=
  (soft_guard (collapse_woodwinds (collapse_brass (list_to_set o)))).
(** The conditions of the three steps, on the deduplicated list. *)
#[local] Abbreviation brass_found o :=
  ((exists m, m ∈ BRASS_MEMBERS /\ m ∈ o) \/ "Brass (section)" ∈ o).
#[local] Abbreviation woodwinds_found o :=
  ((exists m, m ∈ WOODWIND_MEMBERS /\ m ∈ o) \/ "Woodwinds (section)" ∈ o).
#[local] Abbreviation guard_fires o :=
  ("Strings (section)" ∈ o /\ (forall b, b ∈ BOWED -> b ∉ o)
   /\ exists p, p ∈ PADS /\ p ∈ o).

(** The tables do not overlap, and the labels the steps add or remove are
    in none of them. *)
Lemma tables_apart :
  Forall (fun m => (m ∉ WOODWIND_MEMBERS) /\ (m ∉ BOWED) /\ (m ∉ PADS)
                   /\ m ∉ ["Brass"; "Brass (section)"; "Woodwinds";
                           "Woodwinds (section)"; "Strings (section)"])
    BRASS_MEMBERS
  /\ Forall (fun m => (m ∉ BRASS_MEMBERS) /\ (m ∉ BOWED) /\ (m ∉ PADS)
                      /\ m ∉ ["Brass"; "Brass (section)"; "Woodwinds";
                              "Woodwinds (section)"; "Strings (section)"])
       WOODWIND_MEMBERS
  /\ Forall (fun m => (m ∉ BRASS_MEMBERS) /\ m ∉ WOODWIND_MEMBERS)
       (BOWED ++ PADS ++ ["Brass"; "Brass (section)"; "Woodwinds";
                          "Woodwinds (section)"; "Strings (section)"])
  /\ Forall (fun m => m ∉ ["Brass"; "Brass (section)"; "Woodwinds";
                           "Woodwinds (section)"; "Strings (section)"])
       (BOWED ++ PADS).
Proof. apply (bool_decide_unpack _). vm_compute. exact I. Qed.

Lemma st_alias_target t v :
  alias CANON_ALIASES t = Some v -> truthy v = true /\ N v = v /\ v <> "Brass".
Proof.
  intros H%alias_target. revert v H. apply Forall_forall.
  repeat (constructor; [by repeat split|]). constructor.
Qed.

Lemma st_normalize_idem label : N (N label) = N label.
Proof.
  unfold normalize at 2 3.
  destruct (alias CANON_ALIASES (trim label)) as [v|] eqn:E.
  - destruct (st_alias_target _ _ E) as (-> & Hv & _). exact Hv.
  - unfold normalize. rewrite trim_idem, E. reflexivity.
Qed.

Lemma st_normalize_not_brass label : N label <> "Brass".
Proof.
  unfold normalize.
  destruct (alias CANON_ALIASES (trim label)) as [v|] eqn:E.
  - destruct (st_alias_target _ _ E) as (-> & _ & Hv). exact Hv.
  - intros H. rewrite H in E. discriminate E.
Qed.

Lemma elem_of_st_collapse_brass (O : gset string) v :
  v ∈ collapse_brass O <->
  (v ∈ O /\ v ∉ BRASS_MEMBERS)
  \/ (((exists m, m ∈ BRASS_MEMBERS /\ m ∈ O) \/ "Brass (section)" ∈ O)
      /\ (v = "Brass" \/ v = "Brass (section)")).
Proof.
  unfold collapse_brass.
  destruct (some_has BRASS_MEMBERS O || has O "Brass (section)")%bool eqn:E.
  - assert (HT : (exists m, m ∈ BRASS_MEMBERS /\ m ∈ O) \/ "Brass (section)" ∈ O).
    { apply orb_true_iff in E as [E|E]; [left; by apply some_has_true|right; by apply has_true]. }
    assert (Hadd : forall (x : string) (s : gset string) y,
              y ∈ (if negb (has s x) then add x s else s) <-> y = x \/ y ∈ s).
    { intros x s y. destruct (has s x) eqn:Hx; simpl.
      - apply has_true in Hx. split; [tauto|]. intros [->|?]; done.
      - unfold add. set_solver. }
    rewrite !Hadd, elem_of_delete_all. tauto.
  - apply orb_false_iff in E as [E1 E2].
    rewrite some_has_false in E1. apply has_false in E2. split.
    + intros Hv. left. split; [done|]. intros Hm. exact (E1 v Hm Hv).
    + intros [[Hv _]|[[(m & Hm & HO)|HO] _]]; [done| |done]. destruct (E1 m Hm HO).
Qed.

Lemma elem_of_st_collapse_woodwinds (O : gset string) v :
  v ∈ collapse_woodwinds O <->
  (v ∈ O /\ v ∉ WOODWIND_MEMBERS)
  \/ (((exists m, m ∈ WOODWIND_MEMBERS /\ m ∈ O) \/ "Woodwinds (section)" ∈ O)
      /\ (v = "Woodwinds" \/ v = "Woodwinds (section)")).
Proof.
  unfold collapse_woodwinds.
  destruct (some_has WOODWIND_MEMBERS O || has O "Woodwinds (section)")%bool eqn:E.
  - assert (HT : (exists m, m ∈ WOODWIND_MEMBERS /\ m ∈ O) \/ "Woodwinds (section)" ∈ O).
    { apply orb_true_iff in E as [E|E]; [left; by apply some_has_true|right; by apply has_true]. }
    assert (Hadd : forall (x : string) (s : gset string) y,
              y ∈ (if negb (has s x) then add x s else s) <-> y = x \/ y ∈ s).
    { intros x s y. destruct (has s x) eqn:Hx; simpl.
      - apply has_true in Hx. split; [tauto|]. intros [->|?]; done.
      - unfold add. set_solver. }
    rewrite !Hadd, elem_of_delete_all. tauto.
  - apply orb_false_iff in E as [E1 E2].
    rewrite some_has_false in E1. apply has_false in E2. split.
    + intros Hv. left. split; [done|]. intros Hm. exact (E1 v Hm Hv).
    + intros [[Hv _]|[[(m & Hm & HO)|HO] _]]; [done| |done]. destruct (E1 m Hm HO).
Qed.

Lemma elem_of_st_soft_guard (S0 : gset string) v :
  v ∈ soft_guard S0 <->
  v ∈ S0
  /\ ("Strings (section)" ∈ S0 -> (forall b, b ∈ BOWED -> b ∉ S0) ->
      (exists p, p ∈ PADS /\ p ∈ S0) -> v <> "Strings (section)").
Proof.
  unfold soft_guard.
  destruct (has S0 "Strings (section)") eqn:E1; cbn [andb negb].
  - apply has_true in E1.
    destruct (some_has BOWED S0) eqn:E2; cbn [andb negb].
    + apply some_has_true in E2 as (b & Hb & HS). split; [|tauto].
      intros Hv. split; [done|]. intros _ Hn. destruct (Hn b Hb HS).
    + rewrite some_has_false in E2.
      destruct (some_has PADS S0) eqn:E3.
      * apply some_has_true in E3. unfold delete.
        rewrite elem_of_difference, elem_of_singleton. tauto.
      * rewrite some_has_false in E3. split; [|tauto].
        intros Hv. split; [done|]. intros _ _ (p & Hp & HS). destruct (E3 p Hp HS).
  - apply has_false in E1. tauto.
Qed.

Lemma woodwind_member_apart m :
  m ∈ WOODWIND_MEMBERS ->
  (m ∉ BRASS_MEMBERS) /\ (m ∉ BOWED) /\ (m ∉ PADS) /\ m <> "Brass"
  /\ m <> "Brass (section)" /\ m <> "Woodwinds" /\ m <> "Woodwinds (section)"
  /\ m <> "Strings (section)".
Proof.
  intros Hm.
  destruct (proj1 (Forall_forall _ _) (proj1 (proj2 tables_apart)) m Hm)
    as (? & ? & ? & Hl).
  rewrite !not_elem_of_cons in Hl. tauto.
Qed.

Lemma plain_apart m :
  m ∈ BOWED ++ PADS ->
  (m ∉ BRASS_MEMBERS) /\ (m ∉ WOODWIND_MEMBERS) /\ m <> "Brass"
  /\ m <> "Brass (section)" /\ m <> "Woodwinds" /\ m <> "Woodwinds (section)"
  /\ m <> "Strings (section)".
Proof.
  intros Hm.
  destruct tables_apart as (_ & _ & H3 & H4).
  rewrite Forall_forall in H3, H4.
  destruct (H3 m) as [? ?]; [apply elem_of_app in Hm; rewrite !elem_of_app; tauto|].
  specialize (H4 m Hm). rewrite !not_elem_of_cons in H4. tauto.
Qed.

Lemma label_apart m :
  m ∈ ["Brass"; "Brass (section)"; "Woodwinds"; "Woodwinds (section)";
       "Strings (section)"] ->
  (m ∉ BRASS_MEMBERS) /\ (m ∉ WOODWIND_MEMBERS).
Proof.
  intros Hm. destruct tables_apart as (_ & _ & H3 & _).
  rewrite Forall_forall in H3. apply H3. rewrite !elem_of_app. tauto.
Qed.

(** A label that no family step touches is in the collapsed set exactly
    when it is in the list. *)
Lemma untouched_label (o : list string) v :
  (v ∉ BRASS_MEMBERS) -> (v ∉ WOODWIND_MEMBERS) ->
  v <> "Brass" -> v <> "Brass (section)" -> v <> "Woodwinds" ->
  v <> "Woodwinds (section)" ->
  v ∈ collapse_woodwinds (collapse_brass (list_to_set o)) <-> v ∈ o.
Proof.
  intros. rewrite elem_of_st_collapse_woodwinds, elem_of_st_collapse_brass,
    elem_of_list_to_set. tauto.
Qed.

Lemma woodwinds_found_collapsed (o : list string) :
  ((exists m, m ∈ WOODWIND_MEMBERS /\ m ∈ collapse_brass (list_to_set o))
   \/ "Woodwinds (section)" ∈ collapse_brass (list_to_set o))
  <-> woodwinds_found o.
Proof.
  assert (Hm : forall m, m ∈ WOODWIND_MEMBERS \/ m = "Woodwinds (section)" ->
                 (m ∈ collapse_brass (list_to_set o) <-> m ∈ o)).
  { intros m Hm. rewrite elem_of_st_collapse_brass, elem_of_list_to_set.
    assert ((m ∉ BRASS_MEMBERS) /\ m <> "Brass" /\ m <> "Brass (section)") as (? & ? & ?).
    { destruct Hm as [Hm| ->].
      - apply woodwind_member_apart in Hm. tauto.
      - split; [|done]. apply label_apart. set_solver. }
    tauto. }
  rewrite (Hm "Woodwinds (section)") by tauto.
  split; (intros [(m & H1 & H2)|H]; [left; exists m; split; [done|]|by right]).
  - by apply Hm; [left|].
  - by apply Hm; [left|].
Qed.

Lemma guard_fires_collapsed (o : list string) :
  let S0 := collapse_woodwinds (collapse_brass (list_to_set o)) in
  ("Strings (section)" ∈ S0 /\ (forall b, b ∈ BOWED -> b ∉ S0)
   /\ (exists p, p ∈ PADS /\ p ∈ S0))
  <-> guard_fires o.
Proof.
  intros S0.
  assert (Hs : "Strings (section)" ∈ S0 <-> "Strings (section)" ∈ o).
  { apply untouched_label; try done; apply label_apart; set_solver. }
  assert (Hp : forall m, m ∈ BOWED ++ PADS -> (m ∈ S0 <-> m ∈ o)).
  { intros m Hm%plain_apart. apply untouched_label; tauto. }
  rewrite Hs. split; intros (H1 & H2 & (p & Hp1 & Hp2)); (split; [done|]); split.
  - intros b Hb HS. apply (H2 b Hb). apply Hp; [apply elem_of_app; by left|done].
  - exists p. split; [done|]. apply Hp; [apply elem_of_app; by right|done].
  - intros b Hb HS. apply (H2 b Hb). apply Hp; [apply elem_of_app; by left|done].
  - exists p. split; [done|]. apply Hp; [apply elem_of_app; by right|done].
Qed.

(** The set the finalizer ends with, [S] in the source, pointwise. *)
Lemma elem_of_final_of (o : list string) v :
  v ∈ final_of o <->
  ((v ∈ o /\ (v ∉ BRASS_MEMBERS) /\ (v ∉ WOODWIND_MEMBERS))
   \/ (brass_found o /\ (v = "Brass" \/ v = "Brass (section)"))
   \/ (woodwinds_found o /\ (v = "Woodwinds" \/ v = "Woodwinds (section)")))
  /\ (guard_fires o -> v <> "Strings (section)").
Proof.
  rewrite elem_of_st_soft_guard.
  pose proof (guard_fires_collapsed o) as Hg. cbn zeta in Hg.
  rewrite elem_of_st_collapse_woodwinds, woodwinds_found_collapsed,
    elem_of_st_collapse_brass.
  setoid_rewrite elem_of_list_to_set.
  assert (Hb : v = "Brass" \/ v = "Brass (section)" -> v ∉ WOODWIND_MEMBERS).
  { intros [-> | ->]; apply label_apart; set_solver. }
  split.
  - intros [H1 H2]. split; [tauto|]. intros Hf. apply Hg in Hf. tauto.
  - intros [H1 H2]. split; [tauto|]. intros. apply H2, Hg. tauto.
Qed.

(** *** Passes of the finalizer *)

#[local] Abbreviation out_of l := (dedupe ∅ (map N l)).

Lemma st_finalize_unfold x y z :
  finalizeInstruments x y z
  = assemble FAMILY_LABELS (final_of (out_of (x ++ y ++ z))) (out_of (x ++ y ++ z)).
Proof. reflexivity. Qed.

Lemma st_out_fixed l v :
  v ∈ out_of l -> truthy v = true /\ N v = v /\ v <> "Brass".
Proof.
  rewrite elem_of_dedupe. intros (Hv & Ht & _). split; [done|].
  apply list_elem_of_In, in_map_iff in Hv as (w & <- & _).
  split; [apply st_normalize_idem|apply st_normalize_not_brass].
Qed.

Lemma elem_of_st_finalize x y z v :
  v ∈ finalizeInstruments x y z <->
  (v ∈ out_of (x ++ y ++ z) \/ v = "Brass" \/ v = "Woodwinds")
  /\ v ∈ final_of (out_of (x ++ y ++ z)).
Proof.
  rewrite st_finalize_unfold, elem_of_assemble. unfold FAMILY_LABELS.
  rewrite !elem_of_cons, elem_of_nil. tauto.
Qed.

Lemma dedupe_snoc seen l x :
  truthy x = false \/ x ∈ seen \/ x ∈ l -> dedupe seen (l ++ [x]) = dedupe seen l.
Proof.
  revert seen. induction l as [|a r IH]; intros seen Hx; simpl.
  - destruct (truthy x) eqn:T; simpl; [|reflexivity].
    destruct Hx as [?|[Hx|Hx]]; [done| |by apply elem_of_nil in Hx].
    apply has_true in Hx. by rewrite Hx.
  - destruct (truthy a) eqn:T; simpl.
    + destruct (has seen a) eqn:Hs; simpl.
      * apply IH. destruct Hx as [?|[?|Hx]]; [tauto|tauto|].
        apply elem_of_cons in Hx as [->|?]; [|tauto]. apply has_true in Hs. tauto.
      * f_equal. apply IH. destruct Hx as [?|[?|Hx]]; [tauto| |].
        -- right. left. unfold add. set_solver.
        -- apply elem_of_cons in Hx as [->|?]; [|tauto].
           right. left. unfold add. set_solver.
    + apply IH. destruct Hx as [?|[?|Hx]]; [tauto|tauto|].
      apply elem_of_cons in Hx as [->|?]; tauto.
Qed.

(** A settled list is assembled as it is, with the plain "Brass" appended
    when it holds the brass section tag. *)
Lemma settled_assemble o :
  settled o ->
  assemble FAMILY_LABELS (final_of o) o
  = o ++ (if decide ("Brass (section)" ∈ o) then ["Brass"] else []).
Proof.
  intros (Hnd & Hv & Hw & Hs).
  assert (Hnb : "Brass" ∉ o).
  { intros H. apply Hv in H as (_ & H & _). vm_compute in H. discriminate H. }
  assert (Hbf : brass_found o <-> "Brass (section)" ∈ o).
  { split; [|tauto]. intros [(m & Hm & Ho)|?]; [|done].
    apply Hv in Ho. tauto. }
  assert (Hwf : woodwinds_found o -> "Woodwinds" ∈ o).
  { intros [(m & Hm & Ho)|?]; [|tauto]. apply Hv in Ho. tauto. }
  assert (Hng : ~ guard_fires o).
  { intros (H1 & H2 & (p & Hp & Ho)). destruct (Hs H1) as [(b & Hb & Hbo)|Hnp].
    - exact (H2 b Hb Hbo).
    - exact (Hnp p Hp Ho). }
  assert (Hall : filter (fun x => x ∈ final_of o) o = o).
  { rewrite (filter_agrees _ (fun _ => True) o).
    - clear. induction o as [|a r IH]; [reflexivity|].
      rewrite filter_cons, decide_True by done. by rewrite IH.
    - intros x Hx. split; [done|]. intros _. rewrite elem_of_final_of.
      split; [|tauto]. left. apply Hv in Hx as Hx'. tauto. }
  rewrite assemble_closed; [|done|by apply (bool_decide_unpack _)].
  rewrite Hall. f_equal. unfold FAMILY_LABELS.
  assert (HW : ~ ("Woodwinds" ∈ final_of o /\ ("Woodwinds" ∉ o))).
  { rewrite elem_of_final_of. intros [[[H|[[_ [H|H]]|[H _]]] _] Hn];
      [tauto|discriminate H|discriminate H|tauto]. }
  assert (HB : "Brass" ∈ final_of o /\ ("Brass" ∉ o) <-> "Brass (section)" ∈ o).
  { rewrite elem_of_final_of. split.
    - intros [[[H|[[H _]|[_ [H|H]]]] _] _];
        [tauto|tauto|discriminate H|discriminate H].
    - intros H. split; [|done]. split; [|discriminate]. right. left. tauto. }
  rewrite !filter_cons, filter_nil.
  rewrite (decide_False (P:="Woodwinds" ∈ _ /\ _)) by exact HW.
  destruct (decide ("Brass (section)" ∈ o)) as [Hin|Hin].
  - rewrite decide_True by (by apply HB). reflexivity.
  - rewrite decide_False by (by rewrite HB). reflexivity.
Qed.

(** A further pass reads a settled list, and its appended "Brass", back
    as the list itself. *)
Lemma settled_out o tail :
  settled o ->
  tail = [] \/ (tail = ["Brass"] /\ "Brass (section)" ∈ o) ->
  out_of ((o ++ tail) ++ [] ++ []) = o.
Proof.
  intros (Hnd & Hv & _) Ht. rewrite !app_nil_r.
  assert (Hmap : map N o = o).
  { apply map_fixed. intros v Ho. apply Hv in Ho. tauto. }
  assert (Hd : dedupe ∅ o = o).
  { apply dedupe_fixed; [done| |set_solver]. intros v Ho. apply Hv in Ho. tauto. }
  destruct Ht as [->|[-> Hb]].
  - by rewrite app_nil_r, Hmap.
  - rewrite map_app, Hmap. change (map N ["Brass"]) with ["Brass (section)"].
    rewrite dedupe_snoc by tauto. exact Hd.
Qed.

(** Whatever a pass returns is a label of the deduplicated list or one of
    the two appended family labels, and is read back by the next pass as
    itself, the plain "Brass" as the brass section tag. *)
Lemma st_finalized_label x y z w :
  w ∈ finalizeInstruments x y z ->
  truthy w = true
  /\ (w ∉ BRASS_MEMBERS) /\ (w ∉ WOODWIND_MEMBERS)
  /\ ((N w = w /\ w <> "Brass") \/ (w = "Brass" /\ N w = "Brass (section)")).
Proof.
  intros Hw. split; [by apply (section_finalized_origin x y z)|].
  apply elem_of_st_finalize in Hw as [Ho HS].
  split; [|split].
  - apply elem_of_final_of in HS as [[H|[[_ H]|[_ H]]] _]; [tauto| |];
      apply label_apart; set_solver.
  - apply elem_of_final_of in HS as [[H|[[_ H]|[_ H]]] _]; [tauto| |];
      apply label_apart; set_solver.
  - destruct Ho as [Ho|[->| ->]].
    + left. apply st_out_fixed in Ho. tauto.
    + right. by split.
    + left. by split.
Qed.

Lemma elem_of_second_out x y z v :
  v ∈ out_of (finalizeInstruments x y z ++ [] ++ []) ->
  v ∈ finalizeInstruments x y z \/ v = "Brass (section)".
Proof.
  rewrite !app_nil_r, elem_of_dedupe. intros (Hv & _ & _).
  apply list_elem_of_In, in_map_iff in Hv as (w & <- & Hw%list_elem_of_In).
  destruct (st_finalized_label x y z w Hw) as (_ & _ & _ & [[-> _]|[_ ->]]); tauto.
Qed.

Lemma second_out_keeps x y z v :
  v ∈ finalizeInstruments x y z -> v <> "Brass" ->
  v ∈ out_of (finalizeInstruments x y z ++ [] ++ []).
Proof.
  intros Hv Hn. rewrite !app_nil_r, elem_of_dedupe.
  destruct (st_finalized_label x y z v Hv) as (Ht & _ & _ & [[HN _]|[? _]]); [|done].
  split; [|split; [done|set_solver]].
  apply list_elem_of_In, in_map_iff. exists v. split; [done|by apply list_elem_of_In].
Qed.

(** The list the second pass works on is settled. *)
Lemma second_out_settled x y z :
  settled (out_of (finalizeInstruments x y z ++ [] ++ [])).
Proof.
  set (o1 := out_of (x ++ y ++ z)).
  split; [apply NoDup_dedupe|]. split; [|split].
  - intros v Hv. pose proof (st_out_fixed _ _ Hv) as (Ht & HN & _).
    split; [done|]. split; [done|].
    apply elem_of_second_out in Hv as [Hv| ->].
    + apply st_finalized_label in Hv. tauto.
    + apply label_apart. set_solver.
  - intros Hws. apply elem_of_second_out in Hws as [Hws|Hws]; [|discriminate Hws].
    apply second_out_keeps; [|discriminate].
    apply elem_of_st_finalize in Hws as [_ HS]. fold o1 in HS.
    apply elem_of_st_finalize. fold o1. split; [tauto|].
    apply elem_of_final_of. split; [|discriminate].
    right. right. split; [|tauto].
    apply elem_of_final_of in HS as [[H|[[_ [H|H]]|[H _]]] _];
      [tauto|discriminate H|discriminate H|done].
  - intros Hss. apply elem_of_second_out in Hss as [Hss|Hss]; [|discriminate Hss].
    apply elem_of_st_finalize in Hss as [_ HS]. fold o1 in HS.
    apply elem_of_final_of in HS as [Hin Hng].
    assert (Ho : "Strings (section)" ∈ o1).
    { destruct Hin as [H|[[_ [H|H]]|[_ [H|H]]]]; [tauto|discriminate H..]. }
    assert (Hkeep : forall m, m ∈ BOWED ++ PADS -> m ∈ o1 ->
                      m ∈ out_of (finalizeInstruments x y z ++ [] ++ [])).
    { intros m Hm Hmo. pose proof (plain_apart m Hm) as Hp.
      apply second_out_keeps; [|tauto].
      apply elem_of_st_finalize. fold o1. split; [tauto|].
      apply elem_of_final_of. split; [tauto|tauto]. }
    assert (Hback : forall m, m ∈ BOWED ++ PADS ->
                      m ∈ out_of (finalizeInstruments x y z ++ [] ++ []) -> m ∈ o1).
    { intros m Hm Hmo. pose proof (plain_apart m Hm) as Hp.
      apply elem_of_second_out in Hmo as [Hmo|Hmo]; [|tauto].
      apply elem_of_st_finalize in Hmo as [_ HS]. fold o1 in HS.
      apply elem_of_final_of in HS as [[H|[[_ [H|H]]|[_ [H|H]]]] _]; tauto. }
    destruct (decide (Exists (fun b => b ∈ o1) BOWED)) as [Hb|Hb].
    + left. apply Exists_exists in Hb as (b & Hb & Hbo). exists b. split; [done|].
      apply Hkeep; [apply elem_of_app; by left|done].
    + right. intros p Hp Hpo. apply Hng; [|reflexivity].
      split; [done|]. split.
      * intros b Hbb Hbo. apply Hb, Exists_exists. eauto.
      * exists p. split; [done|]. apply Hback; [apply elem_of_app; by right|done].
Qed.

End SectionTagSets.

(** ** The claims on the finalizer *)

(** C4, as stated, fails: on the input ["Strings"; "Organ"; "Brass"] the
    finalizer does not return ["Brass"; "Strings"; "Organ"]: "Organ" comes
    first, before the brass labels. The same holds of the variant with a
    Strings family. *)
Lemma soft_guard_order_counterexample :
  SectionTags.finalizeInstruments ["Strings"; "Organ"; "Brass"] [] []
    <> ["Brass"; "Strings"; "Organ"]
  /\ head (SectionTags.finalizeInstruments ["Strings"; "Organ"; "Brass"] [] [])
     = Some "Organ"
  /\ StringsFamily.finalizeInstruments ["Strings"; "Organ"; "Brass"] [] []
    <> ["Brass"; "Strings"; "Organ"].
Proof. split; [|split]; vm_compute; (discriminate || reflexivity). Qed.

(** C4, amended: on exactly ["Strings"; "Organ"] the finalizer returns
    ["Organ"]; on exactly ["Strings"; "Organ"; "Brass"] the labels it keeps
    stay in their order of first appearance, "Organ" and the brass section
    tag among them, and the plain "Brass" comes last. For every input the
    result is a selection of the deduplicated labels, in their order,
    followed by the family labels the collapse added. *)
Theorem soft_guard_kept_order (x y z : list string) :
  SectionTags.finalizeInstruments ["Strings"; "Organ"] [] [] = ["Organ"]
  /\ (exists kept,
        SectionTags.finalizeInstruments ["Strings"; "Organ"; "Brass"] [] []
        = kept ++ ["Brass"]
        /\ kept `sublist_of` ["Strings (section)"; "Organ"; "Brass (section)"]
        /\ "Organ" ∈ kept /\ "Brass (section)" ∈ kept)
  /\ (exists kept appended,
        SectionTags.finalizeInstruments x y z = kept ++ appended
        /\ kept `sublist_of`
             Finalize.dedupe ∅
               (map (Finalize.normalize SectionTags.CANON_ALIASES) (x ++ y ++ z))
        /\ appended `sublist_of` ["Brass"; "Woodwinds"]).
Proof.
  split; [by vm_compute|]. split.
  - exists ["Organ"; "Brass (section)"]. split; [by vm_compute|].
    split; [|set_solver]. apply sublist_cons. reflexivity.
  - rewrite st_finalize_unfold.
    rewrite assemble_closed; [|apply NoDup_dedupe|by apply (bool_decide_unpack _)].
    eexists _, _. split; [reflexivity|]. split; apply sublist_filter.
Qed.



(** C10: for every input, the list the finalizer returns has no duplicate
    entry and no empty string; this holds of the section-tag finalizer and
    of the canonical-token one. *)
Theorem finalize_nodup_nonempty (x y z : list string) :
  (NoDup (SectionTags.finalizeInstruments x y z)
   /\ "" ∉ SectionTags.finalizeInstruments x y z)
  /\ (NoDup (Canonical.finalizeInstruments x y z)
      /\ "" ∉ Canonical.finalizeInstruments x y z).
Proof.
  split; split.
  - apply NoDup_assemble.
  - intros H. by apply section_finalized_origin in H.
  - apply NoDup_assemble.
  - intros H. by apply finalized_fixed in H as [H _].
Qed.

(** ** The track key *)

Section KeyFacts.
Import JsString.

Lemma map_chars_app f a b :
  map_chars f (a +:+ b) = map_chars f a +:+ map_chars f b.
Proof. induction a as [|c r IH]; simpl; [reflexivity | by rewrite IH]. Qed.

Lemma map_chars_compose f g s :
  map_chars f (map_chars g s) = map_chars (fun c => f (g c)) s.
Proof. induction s as [|c r IH]; simpl; [reflexivity | by rewrite IH]. Qed.

Lemma map_chars_ext f g s :
  (forall c, f c = g c) -> map_chars f s = map_chars g s.
Proof. intros H. induction s as [|c r IH]; simpl; [reflexivity | by rewrite H, IH]. Qed.

Lemma map_chars_empty f s : map_chars f s = EmptyString <-> s = EmptyString.
Proof. destruct s; simpl; split; congruence. Qed.

(** A character map that keeps the separator and the dot apart from all
    other characters; lowercasing is one. *)
Section SegmentPreserving.
Variable f : ascii -> ascii.
Hypothesis f_slash : forall c, Ascii.eqb (f c) slash = Ascii.eqb c slash.
Hypothesis f_dot : forall c, Ascii.eqb (f c) dot = Ascii.eqb c dot.

#[local] Abbreviation F := (map_chars f).

Lemma split_map s : split slash (F s) = map F (split slash s).
Proof.
  induction s as [|c r IH]; simpl; [reflexivity|].
  rewrite f_slash. destruct (Ascii.eqb c slash); simpl.
  - by rewrite <- IH.
  - rewrite IH. by destruct (split slash r).
Qed.

Lemma f_slash_fixed : f slash = slash.
Proof. apply Ascii.eqb_eq. rewrite f_slash. apply Ascii.eqb_refl. Qed.

Lemma f_dot_fixed : f dot = dot.
Proof. apply Ascii.eqb_eq. rewrite f_dot. apply Ascii.eqb_refl. Qed.

Lemma join_map segs : join slash (map F segs) = F (join slash segs).
Proof.
  induction segs as [|seg r IH]; [reflexivity|].
  destruct r as [|seg' r']; [reflexivity|].
  change (join slash (map F (seg :: seg' :: r')))
    with (F seg +:+ String slash (join slash (map F (seg' :: r')))).
  rewrite IH.
  change (join slash (seg :: seg' :: r'))
    with (seg +:+ String slash (join slash (seg' :: r'))).
  rewrite map_chars_app. simpl. by rewrite f_slash_fixed.
Qed.

Lemma eqb_empty_map s : String.eqb (F s) "" = String.eqb s "".
Proof. by destruct s. Qed.

Lemma eqb_dot_map s : String.eqb (F s) "." = String.eqb s ".".
Proof.
  destruct s as [|c [|d r]]; simpl; try reflexivity.
  - change "."%char with dot. by rewrite f_dot.
  - change "."%char with dot. rewrite f_dot. by destruct (Ascii.eqb c dot).
Qed.

Lemma eqb_dotdot_map s : String.eqb (F s) ".." = String.eqb s "..".
Proof.
  destruct s as [|c [|d [|e r]]]; simpl; try reflexivity;
    change "."%char with dot; rewrite ?f_dot;
    destruct (Ascii.eqb c dot); try reflexivity;
    destruct (Ascii.eqb d dot); reflexivity.
Qed.

Lemma F_dotdot : F ".." = "..".
Proof. simpl. change "."%char with dot. by rewrite f_dot_fixed. Qed.

Lemma normalizeString_map allow res segs :
  NodePath.normalizeString allow (map F res) (map F segs)
  = map F (NodePath.normalizeString allow res segs).
Proof.
  revert res. induction segs as [|seg r IH]; intros res; simpl.
  - by rewrite map_rev.
  - rewrite eqb_empty_map, eqb_dot_map, eqb_dotdot_map.
    destruct (String.eqb seg "" || String.eqb seg ".")%bool; [apply IH|].
    destruct (String.eqb seg "..").
    + destruct res as [|top rest]; simpl.
      * destruct allow; [|apply (IH [])].
        specialize (IH [".."]).
        change (map F [".."]) with [F ".."] in IH.
        rewrite F_dotdot in IH. exact IH.
      * rewrite eqb_dotdot_map. destruct (String.eqb top ".."); [|apply IH].
        destruct allow; [|apply (IH (top :: rest))].
        specialize (IH (".." :: top :: rest)).
        change (map F (".." :: top :: rest)) with (F ".." :: map F (top :: rest)) in IH.
        rewrite F_dotdot in IH. exact IH.
    + apply (IH (seg :: res)).
Qed.

Lemma last_char_map s : last_char (F s) = f <$> last_char s.
Proof.
  induction s as [|c r IH]; [reflexivity|].
  destruct r as [|d r']; [reflexivity|].
  change (last_char (F (String c (String d r')))) with (last_char (F (String d r'))).
  rewrite IH. reflexivity.
Qed.

Lemma first_is_slash_map p : NodePath.first_is_slash (F p) = NodePath.first_is_slash p.
Proof. destruct p; simpl; [reflexivity | apply f_slash]. Qed.

Lemma last_is_slash_map p : NodePath.last_is_slash (F p) = NodePath.last_is_slash p.
Proof.
  unfold NodePath.last_is_slash. rewrite last_char_map.
  destruct (last_char p); simpl; [apply f_slash | reflexivity].
Qed.

Lemma finish_map a t body :
  NodePath.finish a t (F body) = F (NodePath.finish a t body).
Proof.
  unfold NodePath.finish.
  assert (truthy (F body) = truthy body) as -> by (by destruct body).
  destruct (truthy body), a, t; simpl; rewrite ?map_chars_app; simpl;
    change "/"%char with slash; change "."%char with dot;
    rewrite ?f_slash_fixed, ?f_dot_fixed; reflexivity.
Qed.

Lemma normalize_map p : NodePath.normalize (F p) = F (NodePath.normalize p).
Proof.
  unfold NodePath.normalize.
  assert (truthy (F p) = truthy p) as -> by (by destruct p).
  destruct (truthy p); simpl.
  - rewrite first_is_slash_map, last_is_slash_map, split_map.
    change (@nil string) with (map F []) at 1.
    rewrite normalizeString_map, join_map. apply finish_map.
  - change "."%char with dot. by rewrite f_dot_fixed.
Qed.

End SegmentPreserving.

Lemma lower_char_slash c : Ascii.eqb (lower_char c) slash = Ascii.eqb c slash.
Proof. destruct c as [[] [] [] [] [] [] [] []]; reflexivity. Qed.

Lemma lower_char_dot c : Ascii.eqb (lower_char c) dot = Ascii.eqb c dot.
Proof. destruct c as [[] [] [] [] [] [] [] []]; reflexivity. Qed.

Lemma lower_char_idem c : lower_char (lower_char c) = lower_char c.
Proof. destruct c as [[] [] [] [] [] [] [] []]; reflexivity. Qed.

Lemma lower_char_slashify c :
  lower_char (if Ascii.eqb c backslash then slash else c)
  = (if Ascii.eqb (lower_char c) backslash then slash else lower_char c).
Proof. destruct c as [[] [] [] [] [] [] [] []]; reflexivity. Qed.

Lemma toLowerCase_idem s : toLowerCase (toLowerCase s) = toLowerCase s.
Proof.
  unfold toLowerCase. rewrite map_chars_compose.
  apply map_chars_ext, lower_char_idem.
Qed.

Lemma slashify_idem s : slashify (slashify s) = slashify s.
Proof.
  unfold slashify. rewrite map_chars_compose. apply map_chars_ext.
  intros c. destruct (Ascii.eqb c backslash) eqn:E; [reflexivity|]. by rewrite E.
Qed.

Lemma toLowerCase_slashify s : toLowerCase (slashify s) = slashify (toLowerCase s).
Proof.
  unfold toLowerCase, slashify. rewrite !map_chars_compose.
  apply map_chars_ext, lower_char_slashify.
Qed.

(** Path normalization does not look at letter case. *)
Lemma normalize_toLowerCase p :
  NodePath.normalize (toLowerCase p) = toLowerCase (NodePath.normalize p).
Proof. apply normalize_map; [apply lower_char_slash | apply lower_char_dot]. Qed.

Lemma truthy_map_chars f s : truthy (map_chars f s) = truthy s.
Proof. by destruct s. Qed.

(** Two paths that differ only in letter case have the same key. *)
Lemma normalizeKey_case_insensitive p :
  JsonDb.normalizeKey (toLowerCase p) = JsonDb.normalizeKey p.
Proof.
  unfold JsonDb.normalizeKey. unfold toLowerCase at 1. rewrite truthy_map_chars.
  destruct (truthy p); [simpl|reflexivity].
  fold (toLowerCase p).
  rewrite normalize_toLowerCase, <- toLowerCase_slashify, toLowerCase_idem.
  reflexivity.
Qed.

End KeyFacts.

Example normalizeKey_examples :
  JsonDb.normalizeKey "/Music/Song.mp3" = "/music/song.mp3"
  /\ JsonDb.normalizeKey "/music/Song.MP3" = "/music/song.mp3"
  /\ JsonDb.normalizeKey "C:\Music\Song.mp3" = "c:/music/song.mp3"
  /\ JsonDb.normalizeKey "/Music//Sub/../Song.mp3" = "/music/song.mp3"
  /\ JsonDb.normalizeKey "" = "".
Proof. vm_compute. repeat split. Qed.

(** C2, as stated, fails: the key of a Windows-style path with a [..]
    segment differs from the key of its slashed, lowercased form, and a
    doubled separator shows that the key is not just replacement followed by
    lowercasing. *)
Lemma normalizeKey_counterexample :
  JsonDb.normalizeKey "C:\Music\..\Song.mp3"
    <> JsonDb.normalizeKey
         (JsString.toLowerCase (JsString.slashify "C:\Music\..\Song.mp3"))
  /\ JsonDb.normalizeKey "/Music//Song.mp3"
    <> JsString.toLowerCase (JsString.slashify "/Music//Song.mp3").
Proof. split; vm_compute; discriminate. Qed.

(** C2, amended: the key of a non-empty path is the path normalized by
    [path.normalize], then backslashes replaced, then lowercased; it does
    not depend on letter case. For a path that normalization leaves
    unchanged, before and after the replacement, the key is the replacement
    followed by lowercasing, and it equals the key of that form. *)
Theorem normalizeKey_canonical (p : string) :
  (p <> "" ->
   JsonDb.normalizeKey p
   = JsString.toLowerCase (JsString.slashify (NodePath.normalize p)))
  /\ JsonDb.normalizeKey (JsString.toLowerCase p) = JsonDb.normalizeKey p
  /\ (NodePath.normalize p = p ->
      NodePath.normalize (JsString.slashify p) = JsString.slashify p ->
      JsonDb.normalizeKey p = JsString.toLowerCase (JsString.slashify p)
      /\ JsonDb.normalizeKey p
         = JsonDb.normalizeKey (JsString.toLowerCase (JsString.slashify p))).
Proof.
  split; [by destruct p|]. split; [apply normalizeKey_case_insensitive|].
  intros Hp Hs.
  assert (H1 : JsonDb.normalizeKey p = JsString.toLowerCase (JsString.slashify p)).
  { unfold JsonDb.normalizeKey. rewrite Hp. by destruct p. }
  split; [exact H1|].
  rewrite normalizeKey_case_insensitive, H1.
  unfold JsonDb.normalizeKey.
  unfold JsString.slashify at 2. rewrite truthy_map_chars.
  destruct (JsString.truthy p) eqn:T.
  - simpl. fold (JsString.slashify p). by rewrite Hs, slashify_idem.
  - by destruct p.
Qed.

Lemma normalizeKey_canonical_witness :
  JsonDb.normalizeKey "C:\Music\Song.MP3" = "c:/music/song.mp3"
  /\ JsonDb.normalizeKey "C:\Music\Song.MP3" = JsonDb.normalizeKey "c:/music/song.mp3".
Proof.
  destruct (normalizeKey_canonical "C:\Music\Song.MP3") as (_ & _ & H).
  exact (H eq_refl eq_refl).
Defined.

(** ** The track merge *)

Section MergeFacts.
Import JsString JsSet JsonDb.

Lemma union_step_spec arr values :
  exists appended,
    fst (foldl union_step (arr, list_to_set arr) values) = arr ++ appended
    /\ NoDup appended
    /\ (forall x, x ∈ appended <-> x ∈ values /\ (x ∉ arr)).
Proof.
  revert arr. induction values as [|v r IH]; intros arr; simpl.
  - exists []. rewrite app_nil_r. split; [done|]. split; [constructor|]. set_solver.
  - destruct (has (list_to_set arr) v) eqn:E; simpl.
    + apply has_true in E. rewrite elem_of_list_to_set in E.
      destruct (IH arr) as (app & Heq & Hnd & Hin).
      exists app. split; [done|]. split; [done|].
      intros x. rewrite Hin. set_solver.
    + apply has_false in E. rewrite elem_of_list_to_set in E.
      rewrite (add_snoc arr v).
      destruct (IH (arr ++ [v])) as (app & Heq & Hnd & Hin).
      exists (v :: app). split; [by rewrite Heq, <- app_assoc|].
      split.
      * constructor; [|done]. rewrite Hin. set_solver.
      * intros x. rewrite elem_of_cons, Hin. split.
        -- intros [->|(Hx & Hn)]; [set_solver|]. set_solver.
        -- intros (Hx & Hn). destruct (decide (x = v)) as [|Hne]; [by left|right].
           set_solver.
Qed.

Lemma unionInto_spec arr values :
  exists appended,
    unionInto arr values = arr ++ appended
    /\ NoDup appended
    /\ (forall x, x ∈ appended <-> x ∈ values /\ (x ∉ arr)).
Proof. apply union_step_spec. Qed.

Lemma elem_of_unionInto arr values x :
  x ∈ unionInto arr values <-> x ∈ arr \/ x ∈ values.
Proof.
  destruct (unionInto_spec arr values) as (app & -> & _ & Hin).
  rewrite elem_of_app, Hin. destruct (decide (x ∈ arr)); tauto.
Qed.

Lemma mergeTrack_instrument oldRec newRec :
  instrument_list (mergeTrack oldRec newRec)
  = unionInto (instrument_list oldRec) (toArray (instrumentsToMerge newRec)).
Proof. reflexivity. Qed.

Lemma instrumentsToMerge_precedence newRec :
  instrumentsToMerge newRec = first_nonempty_source newRec.
Proof.
  unfold instrumentsToMerge, first_nonempty_source, precedence. simpl.
  repeat (match goal with |- context [nonempty_array ?v] =>
            destruct (nonempty_array v); [reflexivity|] end).
  reflexivity.
Qed.

End MergeFacts.

Example mergeTrack_prefers_final :
  JsonDb.instrument_list
    (JsonDb.mergeTrack JsonDb.emptyRec
       {| JsonDb.analysis :=
            Some {| JsonDb.a_finalInstruments := JsonDb.Arr ["Piano"; "Brass"];
                    JsonDb.a_final_instruments := JsonDb.Absent;
                    JsonDb.a_instruments := JsonDb.Arr ["Piano"; "Trumpet"] |};
          JsonDb.finalInstruments := JsonDb.Arr ["Organ"];
          JsonDb.instruments := JsonDb.Absent;
          JsonDb.creative := None |})
  = ["Piano"; "Brass"].
Proof. vm_compute. reflexivity. Qed.

(** C3, as stated, fails: a record whose [analysis.final_instruments] is
    ["Piano"] and whose [analysis.instruments] is ["Guitar"] merges to
    ["Guitar"]; the snake-case field is not read. *)
Lemma precedence_counterexample :
  JsonDb.instrument_list
    (JsonDb.mergeTrack JsonDb.emptyRec
       {| JsonDb.analysis :=
            Some {| JsonDb.a_finalInstruments := JsonDb.Absent;
                    JsonDb.a_final_instruments := JsonDb.Arr ["Piano"];
                    JsonDb.a_instruments := JsonDb.Arr ["Guitar"] |};
          JsonDb.finalInstruments := JsonDb.Absent;
          JsonDb.instruments := JsonDb.Absent;
          JsonDb.creative := None |})
  = ["Guitar"]
  /\ "Piano" ∉ ["Guitar"].
Proof. split; [vm_compute; reflexivity | set_solver]. Qed.

(** C3, amended: the list merged into [creative.instrument] is the first
    non-empty array in the order [analysis.finalInstruments],
    [analysis.instruments], root [finalInstruments], root [instruments],
    [creative.suggestedInstruments], then [creative.instrument] if truthy,
    else nothing; [analysis.final_instruments] has no part in it; and the
    merged [creative.instrument] is the old list with that list unioned in. *)
Theorem instrument_precedence (oldRec newRec : JsonDb.trackRec) :
  JsonDb.instrumentsToMerge newRec = JsonDb.first_nonempty_source newRec
  /\ JsonDb.instrument_list (JsonDb.mergeTrack oldRec newRec)
     = JsonDb.unionInto (JsonDb.instrument_list oldRec)
         (JsonDb.toArray (JsonDb.first_nonempty_source newRec))
  /\ (forall v,
        JsonDb.instrument_list
          (JsonDb.mergeTrack oldRec (JsonDb.with_final_instruments v newRec))
        = JsonDb.instrument_list (JsonDb.mergeTrack oldRec newRec)).
Proof.
  split; [apply instrumentsToMerge_precedence|]. split.
  - by rewrite mergeTrack_instrument, instrumentsToMerge_precedence.
  - intros v. rewrite !mergeTrack_instrument. reflexivity.
Qed.

(** C9: an upsert never removes a stored instrument. The merged
    [creative.instrument] is the old list, in its order, followed by the
    values of the selected list that were not there, each once; so every
    instrument present before the merge is present after it. *)
Theorem mergeTrack_keeps_instruments (oldRec newRec : JsonDb.trackRec) :
  exists appended,
    JsonDb.instrument_list (JsonDb.mergeTrack oldRec newRec)
    = JsonDb.instrument_list oldRec ++ appended
    /\ NoDup appended
    /\ (forall x, x ∈ appended <->
          x ∈ JsonDb.toArray (JsonDb.instrumentsToMerge newRec)
          /\ (x ∉ JsonDb.instrument_list oldRec))
    /\ (forall x, x ∈ JsonDb.instrument_list oldRec ->
          x ∈ JsonDb.instrument_list (JsonDb.mergeTrack oldRec newRec)).
Proof.
  rewrite mergeTrack_instrument.
  destruct (unionInto_spec (JsonDb.instrument_list oldRec)
              (JsonDb.toArray (JsonDb.instrumentsToMerge newRec)))
    as (app & Heq & Hnd & Hin).
  exists app. rewrite Heq. split; [done|]. split; [done|]. split; [exact Hin|].
  intros x Hx. apply elem_of_app. by left.
Qed.

(** ** Numbers *)

Section NumberFacts.
Import JsNumber.

Lemma SFcompare_Eq_inv x y :
  SFcompare x y = Some Eq ->
  x = y \/ (exists a b, x = S754_zero a /\ y = S754_zero b).
Proof.
  destruct x as [a|a| |s1 m1 e1], y as [b|b| |s2 m2 e2]; simpl; try discriminate;
    try (destruct a; discriminate); try (destruct b; discriminate);
    try (destruct s1; discriminate); try (destruct s2; discriminate).
  - intros _. right. eauto.
  - destruct a, b; try discriminate; auto.
  - destruct s1, s2; try discriminate.
    + destruct (Z.compare_spec e1 e2); try discriminate. subst.
      intros [= H]. left. f_equal.
      destruct (Pos.compare_cont Eq m1 m2) eqn:E; try discriminate.
      apply Pos.compare_eq in E. congruence.
    + destruct (Z.compare_spec e1 e2); try discriminate. subst.
      intros [= H]. left. f_equal. apply Pos.compare_eq in H. congruence.
Qed.

(** Equal numbers are the same number, the two zeros apart. *)
Lemma eqb_eq_nonzero (x y : float) :
  (x =? y)%float = true -> PrimFloat.is_zero y = false -> x = y.
Proof.
  rewrite FloatAxioms.eqb_spec. unfold SFeqb. intros H Hz.
  destruct (SFcompare (Prim2SF x) (Prim2SF y)) as [[]|] eqn:E; try discriminate.
  apply SFcompare_Eq_inv in E as [E|(a & b & Ea & Eb)].
  - by apply Prim2SF_inj.
  - unfold PrimFloat.is_zero in Hz. rewrite FloatAxioms.eqb_spec, Eb in Hz.
    simpl in Hz. discriminate.
Qed.

Lemma ltb_leb (x y : float) : (x <? y)%float = true -> (x <=? y)%float = true.
Proof.
  rewrite FloatAxioms.ltb_spec, FloatAxioms.leb_spec. unfold SFltb, SFleb.
  by destruct (SFcompare _ _) as [[]|].
Qed.

Lemma elem_of_Zrange lo n z :
  (lo <= z < lo + Z.of_nat n)%Z -> z ∈ Zrange lo n.
Proof.
  intros H. unfold Zrange. apply list_elem_of_In, in_map_iff.
  exists (Z.to_nat (z - lo)). split; [lia|]. apply in_seq. lia.
Qed.

(** A check that computes to [true] on a range holds of each integer in it. *)
Lemma Zrange_check (P : Z -> bool) lo n :
  forallb P (Zrange lo n) = true ->
  forall z, (lo <= z < lo + Z.of_nat n)%Z -> P z = true.
Proof.
  intros H z Hz. rewrite forallb_forall in H. apply H.
  apply list_elem_of_In. by apply elem_of_Zrange.
Qed.

End NumberFacts.

(** ** The tempo override *)

Section TempoFacts.
Import JsNumber Tempo.

Lemma option_float_eqb_eq a b : option_float_eqb a b = true -> a = b.
Proof.
  destruct a, b; simpl; try discriminate; [|reflexivity].
  intros H. f_equal. by apply FloatAxioms.Leibniz.eqb_spec.
Qed.

Lemma tag_check_all : forallb tag_check (Zrange 1 399) = true.
Proof. vm_compute. reflexivity. Qed.

Lemma tag_facts z :
  (1 <= z <= 399)%Z ->
  PrimFloat.is_zero (Z2F z) = false
  /\ altTempo (Some (Z2F z)) 0.5%float = alt_of ((z + 1) / 2)
  /\ altTempo (Some (Z2F z)) 2%float = alt_of (2 * z).
Proof.
  intros Hz.
  assert (H : tag_check z = true).
  { apply (Zrange_check tag_check 1 399 tag_check_all). lia. }
  unfold tag_check in H. apply andb_true_iff in H as [H H3].
  apply andb_true_iff in H as [H1 H2]. apply negb_true_iff in H1.
  split; [done|]. split; by apply option_float_eqb_eq.
Qed.

End TempoFacts.

Example parseId3BpmSafe_examples :
  Tempo.parseId3BpmSafe JsNumber.decimal (Js.Number 148) = Some 148%float
  /\ Tempo.parseId3BpmSafe JsNumber.decimal (Js.Number 148.5) = Some 149%float
  /\ Tempo.parseId3BpmSafe JsNumber.decimal (Js.Str "148 bpm") = Some 148%float
  /\ Tempo.parseId3BpmSafe JsNumber.decimal (Js.Str "about 97.4") = Some 97%float
  /\ Tempo.parseId3BpmSafe JsNumber.decimal (Js.Str "fast") = None
  /\ Tempo.parseId3BpmSafe JsNumber.decimal (Js.Number 400) = None
  /\ Tempo.parseId3BpmSafe JsNumber.decimal (Js.Number 0) = None
  /\ Tempo.parseId3BpmSafe JsNumber.decimal Js.Nullish = None.
Proof. vm_compute. repeat split. Qed.

(** The first end-to-end scenario: an estimate of 98 and a tag of 148. *)
Example tag_override_wins :
  Tempo.overrideTempo JsNumber.decimal (Some 98%float) "thirds" (Js.Number 148)
  = {| Tempo.bpm := Some 148%float;
       Tempo.tempo_source := "id3";
       Tempo.tempo_alt_half_bpm := Some 74%float;
       Tempo.tempo_alt_double_bpm := None |}.
Proof. vm_compute. reflexivity. Qed.

(** C6, as stated, fails: when the estimator already returned the value of
    the tag, the source stays the estimator's. *)
Lemma tempo_source_counterexample :
  Tempo.parseId3BpmSafe JsNumber.decimal (Js.Number 120) = Some 120%float
  /\ Tempo.tempo_source
       (Tempo.overrideTempo JsNumber.decimal (Some 120%float) "thirds" (Js.Number 120))
     = "thirds".
Proof. vm_compute. split; reflexivity. Qed.

(** C6, amended: when the tag parses to an integer [B_t] in [1, 399], the
    record has [bpm = B_t] whatever the estimator returned; [tempo_source]
    is "id3" when the estimate differs from [B_t] and stays the estimator's
    label when the estimate equals it; the half and double tempos are
    [round(B_t / 2)], ties rounded up, and [2 * B_t], each present exactly
    when it lies in [50, 200]. *)
Theorem bpm_override (ToNumber : string -> float) (estimate : option float)
    (source : string) (tag : Js.value) (B_t : Z) :
  (1 <= B_t <= 399)%Z ->
  Tempo.parseId3BpmSafe ToNumber tag = Some (JsNumber.Z2F B_t) ->
  let record := Tempo.overrideTempo ToNumber estimate source tag in
  Tempo.bpm record = Some (JsNumber.Z2F B_t)
  /\ Tempo.tempo_source record
     = (if Tempo.differs estimate (JsNumber.Z2F B_t) then "id3" else source)
  /\ Tempo.tempo_alt_half_bpm record = Tempo.alt_of ((B_t + 1) / 2)
  /\ Tempo.tempo_alt_double_bpm record = Tempo.alt_of (2 * B_t).
Proof.
  intros Hz Hp. destruct (tag_facts B_t Hz) as (Hnz & Hhalf & Hdbl).
  unfold Tempo.overrideTempo. rewrite Hp.
  destruct (Tempo.differs estimate (JsNumber.Z2F B_t)) eqn:D;
    cbn [Tempo.bpm Tempo.tempo_source Tempo.tempo_alt_half_bpm
         Tempo.tempo_alt_double_bpm].
  - by rewrite Hhalf, Hdbl.
  - destruct estimate as [b|]; [|discriminate]. cbn [Tempo.differs] in D.
    apply negb_false_iff in D. apply eqb_eq_nonzero in D; [|done]. subst b.
    by rewrite Hhalf, Hdbl.
Qed.

Lemma bpm_override_witness :
  Tempo.bpm (Tempo.overrideTempo JsNumber.decimal (Some 98%float) "thirds" (Js.Str "148 bpm"))
  = Some (JsNumber.Z2F 148).
Proof.
  refine (proj1 (bpm_override JsNumber.decimal (Some 98%float) "thirds"
                   (Js.Str "148 bpm") 148 _ _)).
  - lia.
  - vm_compute. reflexivity.
Defined.

(** ** The range of the stored confidence *)

Section RoundingFacts.

(** Dividing by a finite number rounds a non-negative quotient; the
    rounding never yields [NaN]. *)
Lemma shr_1_nonneg mrs : (0 <= shr_m mrs)%Z -> (0 <= shr_m (shr_1 mrs))%Z.
Proof.
  destruct mrs as [m r s]. simpl. destruct m as [|[p|p|]|[p|p|]]; simpl; lia.
Qed.

Lemma iter_shr_1_nonneg p mrs :
  (0 <= shr_m mrs)%Z -> (0 <= shr_m (@SpecFloat.iter_pos _ shr_1 p mrs))%Z.
Proof.
  revert mrs. induction p as [p IH|p IH|]; intros mrs H; simpl.
  - apply IH, IH, shr_1_nonneg, H.
  - apply IH, IH, H.
  - apply shr_1_nonneg, H.
Qed.

Lemma shr_fexp_nonneg prec emax m e l :
  (0 <= m)%Z -> (0 <= shr_m (fst (shr_fexp prec emax m e l)))%Z.
Proof.
  intros H. unfold shr_fexp, shr.
  assert (H0 : (0 <= shr_m (shr_record_of_loc m l))%Z).
  { destruct l as [|[]]; simpl; exact H. }
  destruct (_ - e)%Z; simpl; try exact H0. by apply iter_shr_1_nonneg.
Qed.

Lemma round_nearest_even_nonneg m l : (0 <= m)%Z -> (0 <= round_nearest_even m l)%Z.
Proof.
  intros H. destruct l as [|[]]; simpl; try lia. destruct (Z.even m); lia.
Qed.

Lemma binary_round_aux_not_nan prec emax sx mx ex lx :
  (0 <= mx)%Z -> binary_round_aux prec emax sx mx ex lx <> S754_nan.
Proof.
  intros H. unfold binary_round_aux.
  pose proof (shr_fexp_nonneg prec emax mx ex lx H) as H1.
  destruct (shr_fexp prec emax mx ex lx) as [mrs' e']. simpl in H1.
  pose proof (shr_fexp_nonneg prec emax _ e' loc_Exact
                (round_nearest_even_nonneg _ (loc_of_shr_record mrs') H1)) as H2.
  destruct (shr_fexp prec emax _ e' loc_Exact) as [mrs'' e'']. simpl in H2.
  destruct (shr_m mrs''); [discriminate| |lia].
  destruct (Z.leb _ _); discriminate.
Qed.

Lemma SFdiv_finite_not_nan prec emax x sy my ey :
  x <> S754_nan -> SFdiv prec emax x (S754_finite sy my ey) <> S754_nan.
Proof.
  intros Hx. destruct x as [sx|sx| |sx mx ex]; simpl; try discriminate; [done|].
  unfold SFdiv_core_binary.
  set (m' := match _ with Zpos _ => _ | Z0 => _ | Zneg _ => _ end).
  assert (Hm : (0 <= m')%Z).
  { unfold m'. destruct (_ - _ - _)%Z; try lia. apply Z.shiftl_nonneg. lia. }
  pose proof (Z.div_pos m' (Z.pos my) Hm ltac:(lia)) as Hq.
  unfold Z.div in Hq. destruct (Z.div_eucl m' (Z.pos my)) as [q r]. simpl in Hq.
  by apply binary_round_aux_not_nan.
Qed.

Lemma Prim2SF_not_nan x : PrimFloat.is_nan x = false -> Prim2SF x <> S754_nan.
Proof.
  intros H. unfold Prim2SF. rewrite H.
  destruct (PrimFloat.is_zero x); [discriminate|].
  destruct (PrimFloat.is_infinity x); [discriminate|].
  destruct (Z.frexp x) as [r e]. destruct (shr_fexp _ _ _ _ _) as [s e'].
  destruct (shr_m s); discriminate.
Qed.

Lemma SFcompare_refl x : x <> S754_nan -> SFcompare x x = Some Eq.
Proof.
  destruct x as [s|s| |s m e]; simpl; try done.
  - by destruct s.
  - intros _. destruct s; rewrite Z.compare_refl, Pos.compare_cont_refl; reflexivity.
Qed.

Lemma is_nan_false x : Prim2SF x <> S754_nan -> PrimFloat.is_nan x = false.
Proof.
  intros H. unfold PrimFloat.is_nan. rewrite FloatAxioms.eqb_spec. unfold SFeqb.
  by rewrite SFcompare_refl.
Qed.

Lemma div_100_not_nan x :
  PrimFloat.is_nan x = false -> PrimFloat.is_nan (x / 100)%float = false.
Proof.
  intros H. apply is_nan_false. rewrite FloatAxioms.div_spec.
  change (Prim2SF 100) with (S754_finite false 7036874417766400 (-46)).
  apply SFdiv_finite_not_nan. by apply Prim2SF_not_nan.
Qed.

End RoundingFacts.

Section ConfidenceFacts.
Import JsNumber Creative.

Lemma is_zero_inv x :
  PrimFloat.is_zero x = true -> x = PrimFloat.zero \/ x = PrimFloat.neg_zero.
Proof.
  unfold PrimFloat.is_zero. rewrite FloatAxioms.eqb_spec. unfold SFeqb.
  destruct (SFcompare (Prim2SF x) (Prim2SF PrimFloat.zero)) as [[]|] eqn:E;
    try discriminate.
  intros _. change (Prim2SF PrimFloat.zero) with (S754_zero false) in E.
  rewrite <- (SF2Prim_Prim2SF x).
  destruct (Prim2SF x) as [[]|[]| |[] m e]; try discriminate; simpl; auto.
Qed.

Lemma scale_not_nan x : PrimFloat.is_nan x = false -> PrimFloat.is_nan (scale x) = false.
Proof.
  intros H. unfold scale. destruct (gt x 1); [by apply div_100_not_nan | exact H].
Qed.

Lemma isFinite_not_nan x : isFinite x = true -> PrimFloat.is_nan x = false.
Proof.
  unfold isFinite, PrimFloat.is_finite. intros H%negb_true_iff.
  by apply orb_false_iff in H as [H _].
Qed.

Lemma parseConfidence_not_nan pf raw :
  not_NaN raw -> PrimFloat.is_nan (parseConfidence pf raw) = false.
Proof.
  destruct raw as [|x|text|]; simpl; intros H; try reflexivity.
  - by apply scale_not_nan.
  - destruct (isFinite (pf _)) eqn:F; [|reflexivity].
    by apply scale_not_nan, isFinite_not_nan.
Qed.

(** [Math.min(1, Math.max(0, v))] lies in [0, 1] unless [v] is [NaN]. *)
Lemma clamp_range v :
  PrimFloat.is_nan v = false ->
  (0 <=? Math_min 1 (Math_max 0 v))%float = true
  /\ (Math_min 1 (Math_max 0 v) <=? 1)%float = true.
Proof.
  intros Hv.
  assert (Hm : exists m, Math_max 0 v = m /\ PrimFloat.is_nan m = false
                         /\ (0 <=? m)%float = true).
  { unfold Math_max. change (PrimFloat.is_nan 0) with false. rewrite Hv. simpl.
    destruct (0 <? v)%float eqn:L1; [exists v; auto using ltb_leb|].
    destruct (v <? 0)%float; [by exists 0%float|].
    change (PrimFloat.is_zero 0) with true. simpl.
    destruct (PrimFloat.is_zero v) eqn:Z; [|by exists 0%float].
    apply is_zero_inv in Z as [->| ->]; by exists 0%float. }
  destruct Hm as (m & -> & Hn & H0).
  unfold Math_min. change (PrimFloat.is_nan 1) with false. rewrite Hn. simpl.
  destruct (1 <? m)%float; [done|].
  destruct (m <? 1)%float eqn:L; [auto using ltb_leb|].
  change (PrimFloat.is_zero 1) with false. done.
Qed.

End ConfidenceFacts.

Example confidence_examples :
  Creative.confidence JsNumber.decimal (Js.Number 0.85) = 0.85%float
  /\ Creative.confidence JsNumber.decimal (Js.Number 85) = 0.85%float
  /\ Creative.confidence JsNumber.decimal (Js.Str "85%") = 0.85%float
  /\ Creative.confidence JsNumber.decimal (Js.Str " 0.5 ") = 0.5%float
  /\ Creative.confidence JsNumber.decimal (Js.Number 250) = 1%float
  /\ Creative.confidence JsNumber.decimal (Js.Number (-3)) = 0%float
  /\ Creative.confidence JsNumber.decimal Js.Other = 0.7%float.
Proof. vm_compute. repeat split. Qed.

(** C8, as stated, fails: a numeric confidence above 1 is divided by 100,
    not halved; 85 is stored as 0.85, where its half, clamped, would be 1. *)
Lemma confidence_counterexample :
  Creative.parseConfidence JsNumber.decimal (Js.Number 85) = (85 / 100)%float
  /\ Creative.parseConfidence JsNumber.decimal (Js.Number 85) <> (85 / 2)%float
  /\ Creative.confidence JsNumber.decimal (Js.Number 85) = 0.85%float
  /\ JsNumber.Math_min 1 (JsNumber.Math_max 0 (85 / 2)) = 1%float.
Proof.
  vm_compute. repeat split. intros H.
  apply (f_equal (fun x => PrimFloat.ltb x 1)) in H. vm_compute in H. discriminate.
Qed.

(** C8, amended: a numeric confidence is kept when it is at most 1 and
    divided by 100 when it is greater; a string has its first percent sign
    removed, is trimmed and read with [parseFloat], and a finite result is
    treated like a number; anything else counts as 0.7. The stored value is
    that parse clamped by [Math.min(1, Math.max(0, .))], and lies in [0, 1]. *)
Theorem confidence_contract (parseFloat : string -> float) (raw : Js.value) :
  Creative.not_NaN raw ->
  Creative.parseConfidence parseFloat raw
  = match raw with
    | Js.Number x => if JsNumber.gt x 1 then (x / 100)%float else x
    | Js.Str text =>
        let num := parseFloat (JsString.trim (JsString.remove_first Creative.percent text)) in
        if JsNumber.isFinite num
        then (if JsNumber.gt num 1 then (num / 100)%float else num)
        else 0.7%float
    | _ => 0.7%float
    end
  /\ (0 <=? Creative.confidence parseFloat raw)%float = true
  /\ (Creative.confidence parseFloat raw <=? 1)%float = true.
Proof.
  intros H. split; [by destruct raw|].
  apply clamp_range. by apply parseConfidence_not_nan.
Qed.

Lemma confidence_contract_witness :
  (0 <=? Creative.confidence JsNumber.decimal (Js.Str "85%"))%float = true
  /\ (Creative.confidence JsNumber.decimal (Js.Str "85%") <=? 1)%float = true.
Proof.
  exact (proj2 (confidence_contract JsNumber.decimal (Js.Str "85%") I)).
Defined.

(** ** The mix-only rescue *)

Example rescue_examples :
  Ensemble.rescuePicks Ensemble.guitar_trace = ["Electric Guitar"]
  /\ Ensemble.mixOnlyRescue (Some Ensemble.guitar_trace) = ["Electric Guitar"]
  /\ Ensemble.rescuePicks Ensemble.guitar_piano_trace = ["Electric Guitar"; "Piano"]
  /\ Ensemble.mixOnlyRescue (Some Ensemble.guitar_piano_trace) = ["Piano"; "Electric Guitar"]
  /\ Ensemble.rescuePicks Ensemble.crowded_trace
     = ["Drum Kit (acoustic)"; "Piano"; "Organ"; "Brass (section)"]
  /\ Ensemble.analyzeWithEnsemble ["Piano"] (Some Ensemble.brass_trace)
     = {| Ensemble.parsed_instruments := ["Piano"];
          Ensemble.resolved_instruments := ["Piano"] |}
  /\ Ensemble.analyzeWithEnsemble [] (Some Ensemble.brass_trace)
     = {| Ensemble.parsed_instruments := ["Brass (section)"];
          Ensemble.resolved_instruments := [] |}
  /\ Ensemble.analyzeWithEnsemble [] None
     = {| Ensemble.parsed_instruments := []; Ensemble.resolved_instruments := [] |}.
Proof. vm_compute. repeat split. Qed.

Section SortFacts.
Import Ensemble.
Context {A : Type} (score : A -> float).

Lemma insert_last_perm (sorted : list A) (x : A) :
  insert_last score sorted x ≡ₚ x :: sorted.
Proof.
  induction sorted as [|l rest IH]; simpl; [reflexivity|].
  destruct (before score x l && forallb (before score x) rest)%bool; [reflexivity|].
  rewrite IH. apply Permutation_swap.
Qed.

Lemma sort_desc_perm (l : list A) : sort_desc score l ≡ₚ l.
Proof.
  unfold sort_desc.
  assert (H : forall acc, foldl (insert_last score) acc l ≡ₚ acc ++ l).
  { induction l as [|x r IH]; intros acc; simpl.
    - by rewrite app_nil_r.
    - rewrite IH, insert_last_perm. simpl. apply Permutation_middle. }
  apply (H []).
Qed.

(** The head of an insertion is the inserted item or the old head. *)
Lemma insert_last_head (l : A) (rest : list A) (x : A) :
  (exists tl, insert_last score (l :: rest) x = x :: tl
              /\ forallb (before score x) (l :: rest) = true)
  \/ (exists tl, insert_last score (l :: rest) x = l :: tl).
Proof.
  simpl. destruct (before score x l && forallb (before score x) rest)%bool eqn:E.
  - left. eauto.
  - right. eauto.
Qed.

Lemma insert_last_sorted (sorted : list A) (x : A) :
  Sorted (ranked score) sorted -> Sorted (ranked score) (insert_last score sorted x).
Proof.
  induction sorted as [|l rest IH]; intros Hs.
  - simpl. repeat constructor.
  - simpl. destruct (before score x l && forallb (before score x) rest)%bool eqn:E.
    + apply andb_true_iff in E as [E _].
      constructor; [exact Hs|]. constructor. by left.
    + apply Sorted_inv in Hs as [Hrest Hhd].
      constructor; [by apply IH|].
      destruct rest as [|l' rest'].
      * simpl. constructor. right.
        simpl in E. by rewrite andb_true_r in E.
      * destruct (insert_last_head l' rest' x) as [(tl & -> & Hall)|(tl & ->)].
        -- constructor. right. by rewrite Hall, andb_true_r in E.
        -- constructor. by apply HdRel_inv in Hhd.
Qed.

Lemma sort_desc_sorted (l : list A) : Sorted (ranked score) (sort_desc score l).
Proof.
  unfold sort_desc.
  assert (H : forall acc, Sorted (ranked score) acc ->
                          Sorted (ranked score) (foldl (insert_last score) acc l)).
  { induction l as [|x r IH]; intros acc Hacc; simpl; [done|].
    by apply IH, insert_last_sorted. }
  apply H. constructor.
Qed.

End SortFacts.

Section RescueFacts.
Import JsNumber Ensemble.

Lemma Prim2SF_nan x : PrimFloat.is_nan x = true -> Prim2SF x = S754_nan.
Proof. intros H. unfold Prim2SF. by rewrite H. Qed.

Lemma leb_nan_r t x : PrimFloat.is_nan x = true -> (t <=? x)%float = false.
Proof.
  intros H. rewrite FloatAxioms.leb_spec, (Prim2SF_nan x H). unfold SFleb.
  by destruct (Prim2SF t).
Qed.

(** Against a positive threshold, [v || 0] and [v] compare alike. *)
Lemma ge_or0 x t :
  (t <=? 0)%float = false -> (t <=? -0)%float = false -> ge (or0 x) t = ge x t.
Proof.
  intros H0 H1. unfold or0, falsy, ge.
  destruct (PrimFloat.is_nan x) eqn:N; simpl.
  - by rewrite H0, leb_nan_r.
  - destruct (PrimFloat.is_zero x) eqn:Z; [|reflexivity].
    apply is_zero_inv in Z as [->| ->]; [reflexivity|].
    change PrimFloat.neg_zero with (-0)%float. by rewrite H0, H1.
Qed.

Lemma consider_passes dt k :
  match consider dt k with
  | Some c =>
      passes dt k = true /\ key c = k
      /\ score c = (meanCombined c * 0.7 + posCombined c * 0.3)%float
      /\ meanCombined c
         = or0 (get0 (mean_probs (panns dt)) k + get0 (mean_probs (yamnet dt)) k)%float
      /\ posCombined c
         = or0 (get0 (pos_ratio (panns dt)) k + get0 (pos_ratio (yamnet dt)) k)%float
      /\ posP c = get0 (pos_ratio (panns dt)) k
  | None => passes dt k = false
  end.
Proof.
  unfold consider, passes, MEAN_ANY, POS_ANY, PANN_POS_BONUS.
  rewrite !ge_or0 by reflexivity.
  destruct (_ || _)%bool; simpl; auto 10.
Qed.

End RescueFacts.


Section RankingFacts.
Import Ensemble.

(** *** Sorting records and sorting their keys *)

Section Related.
Context {A B : Type} (R : A -> B -> Prop) (s1 : A -> float) (s2 : B -> float).
Hypothesis R_score : forall a b, R a b -> s1 a = s2 b.

Lemma forallb_before_rel x1 x2 l1 l2 :
  R x1 x2 -> Forall2 R l1 l2 ->
  forallb (before s1 x1) l1 = forallb (before s2 x2) l2.
Proof.
  intros Hx H. induction H as [|a b l1 l2 Hab _ IH]; [reflexivity|].
  simpl. rewrite IH. f_equal. unfold before, comparator.
  by rewrite (R_score _ _ Hx), (R_score _ _ Hab).
Qed.

Lemma insert_last_rel x1 x2 l1 l2 :
  R x1 x2 -> Forall2 R l1 l2 ->
  Forall2 R (insert_last s1 l1 x1) (insert_last s2 l2 x2).
Proof.
  intros Hx H. induction H as [|a b l1 l2 Hab Hl IH]; [by repeat constructor|].
  cbn [insert_last].
  rewrite (forallb_before_rel x1 x2 (a :: l1) (b :: l2)) by (by try constructor).
  destruct (forallb (before s2 x2) (b :: l2)); by repeat constructor.
Qed.

Lemma sort_desc_rel l1 l2 :
  Forall2 R l1 l2 -> Forall2 R (sort_desc s1 l1) (sort_desc s2 l2).
Proof.
  unfold sort_desc.
  assert (H : forall acc1 acc2, Forall2 R acc1 acc2 -> Forall2 R l1 l2 ->
                Forall2 R (foldl (insert_last s1) acc1 l1) (foldl (insert_last s2) acc2 l2)).
  { intros acc1 acc2 Hacc Hl. revert acc1 acc2 Hacc.
    induction Hl as [|a b l1 l2 Hab _ IH]; intros acc1 acc2 Hacc; [done|].
    simpl. apply IH. by apply insert_last_rel. }
  intros Hl. apply H; [constructor|done].
Qed.

End Related.

(** *** Stability *)

Section Stable.
Context {A : Type} (score : A -> float).

(** An insertion puts the item in front of a tail of the list, and only of
    items the comparator puts it before. *)
Lemma insert_last_split (sorted : list A) (x : A) :
  exists pre suf,
    sorted = pre ++ suf /\ insert_last score sorted x = pre ++ x :: suf
    /\ forallb (before score x) suf = true.
Proof.
  induction sorted as [|l rest IH].
  - by exists [], [].
  - cbn [insert_last].
    destruct (forallb (before score x) (l :: rest)) eqn:E.
    + by exists [], (l :: rest).
    + destruct IH as (pre & suf & -> & -> & Hs).
      by exists (l :: pre), suf.
Qed.

Lemma precedes_app_l (a b : A) l1 l2 : precedes a b l1 -> precedes a b (l1 ++ l2).
Proof. unfold precedes. intros H. by apply sublist_inserts_r. Qed.

Lemma precedes_snoc (a x : A) l : a ∈ l -> precedes a x (l ++ [x]).
Proof.
  unfold precedes. intros Ha.
  change [a; x] with ([a] ++ [x]). apply sublist_app; [|done].
  by apply singleton_sublist_l.
Qed.

Lemma insert_last_stable (sorted processed : list A) (x a b : A) :
  sorted ≡ₚ processed ->
  (forall a b, precedes a b sorted -> precedes a b processed \/ before score a b = true) ->
  precedes a b (insert_last score sorted x) ->
  precedes a b (processed ++ [x]) \/ before score a b = true.
Proof.
  intros Hperm IH. destruct (insert_last_split sorted x) as (pre & suf & -> & -> & Hs).
  unfold precedes at 1. intros H.
  apply sublist_app_r in H as (k1 & k2 & Hk & H1 & H2).
  assert (Hold : precedes a b (pre ++ suf) ->
                 precedes a b (processed ++ [x]) \/ before score a b = true).
  { intros Hp. destruct (IH a b Hp) as [?|?]; [left; by apply precedes_app_l|by right]. }
  destruct k1 as [|a' [|b' k1]].
  - (* both in [x :: suf] *)
    simpl in Hk. subst k2. apply sublist_cons_r in H2 as [H2|(k & Hk & H2)].
    + apply Hold. unfold precedes. by apply sublist_inserts_l.
    + injection Hk as -> <-. right.
      apply singleton_sublist_l in H2.
      rewrite forallb_forall in Hs. apply Hs. by apply list_elem_of_In.
  - (* [a] in [pre], [b] in [x :: suf] *)
    injection Hk as <- <-. apply singleton_sublist_l in H1.
    apply sublist_cons_r in H2 as [H2|(k & Hk & _)].
    + apply Hold. unfold precedes. change [a; b] with ([a] ++ [b]).
      apply sublist_app; [by apply singleton_sublist_l|done].
    + injection Hk as -> _. left. apply precedes_snoc.
      rewrite <- Hperm. set_solver.
  - (* both in [pre] *)
    injection Hk as <- <- Hk. symmetry in Hk. apply app_eq_nil in Hk as [-> ->].
    apply Hold. unfold precedes. by apply sublist_inserts_r.
Qed.

(** The sort is stable: an item stands before another in the result only if
    it did in the input or the comparator puts it first. *)
Lemma sort_desc_stable (l : list A) (a b : A) :
  precedes a b (sort_desc score l) -> precedes a b l \/ before score a b = true.
Proof.
  unfold sort_desc.
  assert (H : forall processed acc,
            acc ≡ₚ processed ->
            (forall a b, precedes a b acc -> precedes a b processed \/ before score a b = true) ->
            forall a b, precedes a b (foldl (insert_last score) acc l) ->
              precedes a b (processed ++ l) \/ before score a b = true).
  { induction l as [|x r IH]; intros processed acc Hperm Hacc a' b'; simpl.
    - rewrite app_nil_r. apply Hacc.
    - intros Hp.
      rewrite (cons_middle x processed r), app_assoc.
      apply (IH (processed ++ [x]) (insert_last score acc x)); [| |done].
      + rewrite insert_last_perm, Hperm. by rewrite Permutation_cons_append.
      + intros a0 b0. by apply insert_last_stable. }
  apply (H [] []); [done|].
  intros a0 b0 Hp. unfold precedes in Hp. apply sublist_nil_r in Hp. discriminate Hp.
Qed.

End Stable.

(** *** The two rescues, by candidate key *)

Lemma considered_keys dt l :
  Forall (fun k => pretty k = display k) l ->
  Forall2 (fun c k => key c = k /\ score c = weighted dt k /\ pretty k = display k)
    (omap (consider dt) l) (List.filter (passes dt) l).
Proof.
  induction 1 as [|k r Hk _ IH]; simpl; [constructor|].
  pose proof (consider_passes dt k) as H.
  destruct (consider dt k) as [c|]; simpl.
  - destruct H as (Hp & Hkey & Hs & Hm & Hpos & _). rewrite Hp.
    constructor; [|exact IH]. split; [done|]. split; [|done].
    unfold weighted. by rewrite Hs, Hm, Hpos.
  - rewrite H. exact IH.
Qed.

Lemma picked_keys dt l :
  Forall (fun c => display (fst c) = snd c) l ->
  Forall2 (fun p k => label p = display k /\ pick_score p = summed dt k)
    (omap (try_pick dt) l) (List.filter (passes dt) (map fst l)).
Proof.
  induction 1 as [|[k lbl] r Hk _ IH]; simpl; [constructor|].
  unfold try_pick at 1, passes at 1, MEAN_ANY, POS_ANY, PANN_POS_BONUS.
  destruct (_ || _)%bool; simpl; [|exact IH].
  constructor; [|exact IH]. simpl in Hk. by split.
Qed.

Lemma Forall2_map_eq {A B C} (R : A -> B -> Prop) (f : A -> C) (g : B -> C) l1 l2 :
  (forall a b, R a b -> f a = g b) -> Forall2 R l1 l2 -> map f l1 = map g l2.
Proof.
  intros Hfg H. induction H as [|a b l1 l2 Hab _ IH]; [reflexivity|].
  simpl. by rewrite (Hfg _ _ Hab), IH.
Qed.

Lemma rescuePicks_ranked dt :
  rescuePicks dt
  = map display (take 4 (sort_desc (weighted dt) (List.filter (passes dt) CORE))).
Proof.
  unfold rescuePicks, candidates, MAX_PICKS.
  apply (Forall2_map_eq
           (fun c k => key c = k /\ score c = weighted dt k /\ pretty k = display k)).
  - by intros c k (-> & _ & ->).
  - apply Forall2_take.
    apply (sort_desc_rel _ score (weighted dt)); [by intros c k (_ & ? & _)|].
    apply considered_keys. by repeat constructor.
Qed.

Lemma mixOnlyRescue_ranked dt :
  mixOnlyRescue (Some dt)
  = map display
      (take 4 (sort_desc (summed dt) (List.filter (passes dt) (map fst CANDIDATES)))).
Proof.
  unfold mixOnlyRescue, MAX_PICKS.
  apply (Forall2_map_eq (fun p k => label p = display k /\ pick_score p = summed dt k)).
  - by intros p k [-> _].
  - apply Forall2_take.
    apply (sort_desc_rel _ pick_score (summed dt)); [by intros p k [_ ?]|].
    apply picked_keys. by repeat constructor.
Qed.

End RankingFacts.


(** ** The background phases *)

Section QueueFacts.
Context {creativeData instrumentation R : Type}.
Variable runCreativeAnalysis : nat -> creativeData.
Variable runInstrumentationAnalysis : nat -> creativeData -> instrumentation.

#[local] Abbreviation bodies_t := (list (Orchestration.async creativeData instrumentation R)).
#[local] Abbreviation pending_of :=
  (Orchestration.pending (R:=R) runCreativeAnalysis runInstrumentationAnalysis).
#[local] Abbreviation reachable_from :=
  (Orchestration.reachable (R:=R) runCreativeAnalysis runInstrumentationAnalysis).

Lemma shown_app (i : nat) (l1 l2 : list (nat * Orchestration.event creativeData)) :
  Orchestration.shown i (l1 ++ l2) = Orchestration.shown i l1 ++ Orchestration.shown i l2.
Proof.
  unfold Orchestration.shown. by rewrite List.filter_app, fmap_app.
Qed.

Lemma shown_logged (i j : nat) (e : option (Orchestration.event creativeData)) :
  Orchestration.shown i (Orchestration.logged j e)
  = if Nat.eqb j i then option_list e else [].
Proof.
  unfold Orchestration.shown, Orchestration.logged.
  destruct e as [ev|]; cbn; by destruct (Nat.eqb j i).
Qed.

Lemma elem_of_shown (i : nat) (ev : Orchestration.event creativeData)
    (log : list (nat * Orchestration.event creativeData)) :
  ev ∈ Orchestration.shown i log -> (i, ev) ∈ log.
Proof.
  unfold Orchestration.shown. induction log as [|[j e] log IH]; cbn.
  - by intros ?%elem_of_nil.
  - destruct (Nat.eqb_spec j i) as [->|Hne]; cbn.
    + intros [->|Hin]%elem_of_cons; [left | right; auto].
    + intros Hin. right. auto.
Qed.

Lemma run_fst_creative (c : creativeData) (f : creativeData -> instrumentation)
    (k : creativeData -> Orchestration.async creativeData instrumentation R) :
  fst (Orchestration.run c f (Orchestration.AwaitCreative k))
  = Orchestration.Started Orchestration.Creative None
    :: Orchestration.Completed Orchestration.Creative
    :: fst (Orchestration.run c f (k c)).
Proof. cbn. by destruct (Orchestration.run c f (k c)). Qed.

Lemma run_fst_instrumentation (c : creativeData) (f : creativeData -> instrumentation)
    (hints : creativeData)
    (k : instrumentation -> Orchestration.async creativeData instrumentation R) :
  fst (Orchestration.run c f (Orchestration.AwaitInstrumentation hints k))
  = Orchestration.Started Orchestration.Instrumentation (Some hints)
    :: Orchestration.Completed Orchestration.Instrumentation
    :: fst (Orchestration.run c f (k (f hints))).
Proof. cbn. by destruct (Orchestration.run c f (k (f hints))). Qed.

(** A step of a track shows the next event of its run. *)
Lemma task_step_history (i : nat) t e t' :
  Orchestration.task_step runCreativeAnalysis runInstrumentationAnalysis i t e t' ->
  pending_of i t = option_list e ++ pending_of i t'.
Proof.
  intros Hstep. destruct Hstep; cbn [Orchestration.pending option_list app].
  - apply run_fst_creative.
  - reflexivity.
  - apply run_fst_instrumentation.
  - reflexivity.
  - reflexivity.
Qed.

(** Every track of the queue is one of the enqueued bodies, and what the
    log shows of it, followed by what it will still show, is the run of
    that body. *)
Lemma reachable_history (bodies : bodies_t) st :
  reachable_from bodies st ->
  forall i t, fst st !! i = Some t ->
    exists body, bodies !! i = Some body
      /\ Orchestration.shown i (snd st) ++ pending_of i t
         = fst (Orchestration.run (runCreativeAnalysis i)
                  (runInstrumentationAnalysis i) body).
Proof.
  induction 1 as [|st st' Hreach IH Hstep]; intros j u Hj.
  - cbn in Hj. rewrite list_lookup_fmap in Hj.
    destruct (bodies !! j) as [body|] eqn:Hb; [|done].
    injection Hj as <-. by exists body.
  - destruct Hstep as [tasks log i body Hi Hfifo Hroom | tasks log i t e t' Hi Hstep];
      cbn [fst snd] in *.
    + apply list_lookup_insert_Some in Hj as [(<- & <- & _) | (Hne & Hj)].
      * apply (IH i _ Hi).
      * by apply IH.
    + rewrite shown_app, shown_logged.
      apply list_lookup_insert_Some in Hj as [(<- & <- & _) | (Hne & Hj)].
      * rewrite Nat.eqb_refl. destruct (IH i _ Hi) as (body & Hb & Heq).
        exists body. split; [done|].
        rewrite <- Heq, (task_step_history _ _ _ _ Hstep). by rewrite (assoc_L (++)).
      * apply Nat.eqb_neq in Hne. rewrite Hne, (right_id_L [] (++)). by apply IH.
Qed.

(** The queue keeps its tracks, and the log names only tracks of the queue. *)
Lemma reachable_tracks (bodies : bodies_t) st :
  reachable_from bodies st ->
  length (fst st) = length bodies
  /\ forall i ev, (i, ev) ∈ snd st -> i < length bodies.
Proof.
  induction 1 as [|st st' Hreach [IHlen IHlog] Hstep].
  - cbn. split; [by rewrite length_fmap | by intros i ev ?%elem_of_nil].
  - destruct Hstep as [tasks log i body Hi Hfifo Hroom | tasks log i t e t' Hi Hstep];
      cbn [fst snd] in *.
    + by rewrite length_insert.
    + rewrite length_insert. split; [done|].
      intros j ev [Hin|Hin]%elem_of_app; [by eapply IHlog|].
      destruct e as [ev'|]; cbn in Hin.
      * apply list_elem_of_singleton in Hin. injection Hin as -> ->.
        rewrite <- IHlen. by eapply lookup_lt_Some.
      * by apply elem_of_nil in Hin.
Qed.

End QueueFacts.

Section BackgroundFacts.
Context {creativeData instrumentation : Type}.
Variable runCreativeAnalysis : nat -> creativeData.
Variable runInstrumentationAnalysis : nat -> creativeData -> instrumentation.

Lemma background_run (m : Orchestration.mode) (creative : creativeData)
    (instrument : creativeData -> instrumentation) :
  Orchestration.run creative instrument (Orchestration.completeAnalysisInBackground m)
  = (Orchestration.phases creative, (creative, instrument creative)).
Proof. destruct m; reflexivity. Qed.

(** What the log shows of a track is the beginning of the four events of
    its body. *)
Lemma background_shown (modes : list Orchestration.mode) st (i : nat) :
  Orchestration.reachable runCreativeAnalysis runInstrumentationAnalysis
    (Orchestration.completeAnalysisInBackground <$> modes) st ->
  Orchestration.shown i (snd st)
    `prefix_of` Orchestration.phases (runCreativeAnalysis i).
Proof.
  intros Hreach.
  destruct (reachable_tracks _ _ _ _ Hreach) as [Hlen Hlog].
  destruct (fst st !! i) as [t|] eqn:Hi.
  - destruct (reachable_history _ _ _ _ Hreach i t Hi) as (body & Hb & Heq).
    rewrite list_lookup_fmap in Hb.
    destruct (modes !! i) as [m|]; [|done]. injection Hb as <-.
    rewrite background_run in Heq. cbn [fst] in Heq.
    eexists. symmetry. exact Heq.
  - apply lookup_ge_None in Hi.
    assert (Orchestration.shown i (snd st) = []) as ->; [|apply prefix_nil].
    destruct (Orchestration.shown i (snd st)) as [|ev l] eqn:Hs; [done|].
    assert (Hin : (i, ev) ∈ snd st) by (apply elem_of_shown; rewrite Hs; left).
    apply Hlog in Hin. lia.
Qed.

(** No track starts instrumentation before its creative phase completed. *)
Lemma no_early_instrumentation (modes : list Orchestration.mode) st (i : nat) :
  Orchestration.reachable runCreativeAnalysis runInstrumentationAnalysis
    (Orchestration.completeAnalysisInBackground <$> modes) st ->
  ~ Orchestration.starts_instrumentation_early i (snd st).
Proof.
  intros Hreach (before & hints & after & Hlog & Hnot).
  destruct (background_shown _ _ i Hreach) as [rest Hpre].
  rewrite Hlog, shown_app in Hpre. cbn in Hpre. rewrite Nat.eqb_refl in Hpre.
  cbn in Hpre. apply Hnot, elem_of_shown.
  unfold Orchestration.phases in Hpre.
  destruct (Orchestration.shown i before) as [|a [|b [|c [|d l]]]];
    cbn in Hpre; try discriminate Hpre.
  - injection Hpre as _ <- _ _. right. left.
  - injection Hpre as _ _ _ _ Hnil. by destruct l.
Qed.

End BackgroundFacts.

Example sequential_run :
  Orchestration.run "creative" (fun hints => hints +:+ "+instr")
    (Orchestration.completeAnalysisInBackground Orchestration.SEQUENTIAL)
  = ([ Orchestration.Started Orchestration.Creative None;
       Orchestration.Completed Orchestration.Creative;
       Orchestration.Started Orchestration.Instrumentation (Some "creative");
       Orchestration.Completed Orchestration.Instrumentation ],
     ("creative", "creative+instr")).
Proof. reflexivity. Qed.

(** Two tracks in the queue, the first in CONCURRENT mode: the second has
    started instrumentation while the first still waits for its creative
    phase. *)
Lemma two_tracks_reachable :
  Orchestration.reachable Orchestration.demo_creative Orchestration.demo_instrumentation
    (Orchestration.completeAnalysisInBackground
       <$> [Orchestration.CONCURRENT; Orchestration.SEQUENTIAL])
    Orchestration.two_tracks_midway.
Proof.
  pose proof (Orchestration.reach_start Orchestration.demo_creative
                Orchestration.demo_instrumentation
                (Orchestration.completeAnalysisInBackground
                   <$> [Orchestration.CONCURRENT; Orchestration.SEQUENTIAL])) as H0.
  cbn in H0.
  eapply Orchestration.reach_step in H0;
    [|eapply (Orchestration.step_admit _ _ _ _ 0);
      [reflexivity | intros; lia | cbn; unfold Orchestration.MAX_BACKGROUND_CONCURRENCY; lia]].
  cbn in H0.
  eapply Orchestration.reach_step in H0;
    [|eapply (Orchestration.step_admit _ _ _ _ 1);
      [reflexivity
      | intros [|j] t Hj Ht; [by injection Ht as <- | lia]
      | cbn; unfold Orchestration.MAX_BACKGROUND_CONCURRENCY; lia]].
  cbn in H0.
  eapply Orchestration.reach_step in H0;
    [|eapply (Orchestration.step_track _ _ _ _ 0);
      [reflexivity | apply Orchestration.step_call_creative]].
  cbn in H0.
  eapply Orchestration.reach_step in H0;
    [|eapply (Orchestration.step_track _ _ _ _ 1);
      [reflexivity | apply Orchestration.step_call_creative]].
  cbn in H0.
  eapply Orchestration.reach_step in H0;
    [|eapply (Orchestration.step_track _ _ _ _ 1);
      [reflexivity | apply Orchestration.step_creative_done]].
  cbn in H0.
  eapply Orchestration.reach_step in H0;
    [|eapply (Orchestration.step_track _ _ _ _ 1);
      [reflexivity | apply Orchestration.step_call_instrumentation]].
  exact H0.
Qed.

(** C1, as stated, fails: in CONCURRENT mode the creative phase of a track
    completes, at position 1 of what the track shows, before its
    instrumentation is started, at position 2; and the queue with one
    CONCURRENT track reaches no state whose log has the instrumentation of
    the track started before its creative phase completed. *)
Lemma concurrent_counterexample :
  (Orchestration.position (Orchestration.is_completion Orchestration.Creative)
     (fst (Orchestration.run tt (fun _ : unit => tt)
             (Orchestration.completeAnalysisInBackground Orchestration.CONCURRENT)))
   = Some 1
   /\ Orchestration.position (Orchestration.is_start Orchestration.Instrumentation)
        (fst (Orchestration.run tt (fun _ : unit => tt)
                (Orchestration.completeAnalysisInBackground Orchestration.CONCURRENT)))
      = Some 2)
  /\ ~ (exists st,
          Orchestration.reachable (fun _ : nat => tt) (fun (_ : nat) (_ : unit) => tt)
            [Orchestration.completeAnalysisInBackground Orchestration.CONCURRENT] st
          /\ Orchestration.starts_instrumentation_early 0 (snd st)).
Proof.
  split; [split; reflexivity|].
  intros (st & Hreach & Hearly).
  exact (no_early_instrumentation _ _ [Orchestration.CONCURRENT] st 0 Hreach Hearly).
Qed.

(** C1, amended: in CONCURRENT mode, as in SEQUENTIAL mode, the background
    work of a track awaits the creative phase and only then starts
    instrumentation, which is handed the creative result. In every state
    the background queue reaches, whatever the modes of its tracks and
    however the tracks interleave, what the log shows of a track is the
    beginning of: creative started, creative completed, instrumentation
    started with the creative data, instrumentation completed; and no
    track has started instrumentation before its creative phase completed. *)
Theorem background_phases_in_order {creativeData instrumentation : Type}
    (runCreativeAnalysis : nat -> creativeData)
    (runInstrumentationAnalysis : nat -> creativeData -> instrumentation)
    (modes : list Orchestration.mode)
    (st : list Orchestration.task * list (nat * Orchestration.event creativeData))
    (i : nat) :
  Orchestration.reachable runCreativeAnalysis runInstrumentationAnalysis
    (Orchestration.completeAnalysisInBackground <$> modes) st ->
  (forall m,
     Orchestration.run (runCreativeAnalysis i) (runInstrumentationAnalysis i)
       (Orchestration.completeAnalysisInBackground m)
     = ([ Orchestration.Started Orchestration.Creative None;
          Orchestration.Completed Orchestration.Creative;
          Orchestration.Started Orchestration.Instrumentation
            (Some (runCreativeAnalysis i));
          Orchestration.Completed Orchestration.Instrumentation ],
        (runCreativeAnalysis i,
         runInstrumentationAnalysis i (runCreativeAnalysis i))))
  /\ Orchestration.shown i (snd st)
       `prefix_of` [ Orchestration.Started Orchestration.Creative None;
                     Orchestration.Completed Orchestration.Creative;
                     Orchestration.Started Orchestration.Instrumentation
                       (Some (runCreativeAnalysis i));
                     Orchestration.Completed Orchestration.Instrumentation ]
  /\ ~ Orchestration.starts_instrumentation_early i (snd st).
Proof.
  intros Hreach. split; [|split].
  - intros m. apply background_run.
  - exact (background_shown _ _ modes st i Hreach).
  - exact (no_early_instrumentation _ _ modes st i Hreach).
Qed.

Lemma background_phases_in_order_witness :
  Orchestration.reachable Orchestration.demo_creative Orchestration.demo_instrumentation
    (Orchestration.completeAnalysisInBackground
       <$> [Orchestration.CONCURRENT; Orchestration.SEQUENTIAL])
    Orchestration.two_tracks_midway
  /\ Orchestration.shown 1 (snd Orchestration.two_tracks_midway)
     = [ Orchestration.Started Orchestration.Creative None;
         Orchestration.Completed Orchestration.Creative;
         Orchestration.Started Orchestration.Instrumentation (Some "creative 1") ]
  /\ ~ Orchestration.starts_instrumentation_early 1
         (snd Orchestration.two_tracks_midway).
Proof.
  split; [exact two_tracks_reachable|]. split; [reflexivity|].
  exact (proj2 (proj2 (background_phases_in_order
                         Orchestration.demo_creative Orchestration.demo_instrumentation
                         [Orchestration.CONCURRENT; Orchestration.SEQUENTIAL]
                         Orchestration.two_tracks_midway 1 two_tracks_reachable))).
Defined.

(** The fifth end-to-end scenario: two upserts whose paths differ in letter
    case write one entry, and the second keeps what the first stored. *)
Example upsert_same_entry :
  match JsonDb.upsertTrack ∅ "/Music/Song.mp3" (JsonDb.pipelineRec ["Piano"]) with
  | Some tracks1 =>
      match JsonDb.upsertTrack tracks1 "/music/Song.MP3" (JsonDb.pipelineRec ["Organ"]) with
      | Some tracks2 =>
          Some (map_to_list (JsonDb.instrument_list <$> tracks2))
      | None => None
      end
  | None => None
  end
  = Some [("/music/song.mp3", ["Piano"; "Organ"])].
Proof. vm_compute. reflexivity. Qed.

(** At the level of the store: after an upsert, the entry under the key
    still has every instrument the entry had before. *)
Lemma upsert_keeps_instruments (tracks tracks' : gmap string JsonDb.trackRec)
    (path : string) (rec prev : JsonDb.trackRec) (x : string) :
  JsonDb.upsertTrack tracks path rec = Some tracks' ->
  tracks !! JsonDb.normalizeKey path = Some prev ->
  x ∈ JsonDb.instrument_list prev ->
  exists merged,
    tracks' !! JsonDb.normalizeKey path = Some merged
    /\ x ∈ JsonDb.instrument_list merged.
Proof.
  unfold JsonDb.upsertTrack. intros Hu Hp Hx.
  destruct (negb (JsString.truthy (JsonDb.normalizeKey path))); [discriminate|].
  injection Hu as <-. rewrite Hp. simpl.
  eexists. split; [apply lookup_insert_eq|].
  rewrite mergeTrack_instrument. apply elem_of_unionInto. by left.
Qed.

Section SchedulingFacts.
Import Orchestration Scheduling.
Context {creativeData instrumentation R : Type}.
Variable runCreativeAnalysis : nat -> creativeData.
Variable runInstrumentationAnalysis : nat -> creativeData -> instrumentation.

#[local] Abbreviation tasks_t := (list (task (creativeData:=creativeData)
                                      (instrumentation:=instrumentation) (R:=R))).
#[local] Abbreviation step_of :=
  (queue_step (R:=R) runCreativeAnalysis runInstrumentationAnalysis).
#[local] Abbreviation task_step_of :=
  (task_step (R:=R) runCreativeAnalysis runInstrumentationAnalysis).

Lemma insert_split (tasks : tasks_t) i t t' :
  tasks !! i = Some t ->
  exists l1 l2, tasks = l1 ++ t :: l2 /\ <[i:=t']> tasks = l1 ++ t' :: l2 /\ length l1 = i.
Proof.
  intros Hi. exists (take i tasks), (drop (S i) tasks).
  assert (Hlen : i < length tasks) by (by eapply lookup_lt_Some).
  split; [by rewrite take_drop_middle|].
  split; [|rewrite length_take; lia].
  rewrite <- (take_drop_middle tasks i t Hi) at 1.
  rewrite insert_app_r_alt; rewrite length_take; [|lia].
  replace (i - i `min` length tasks) with 0 by lia. reflexivity.
Qed.

Lemma active_count_app (l1 l2 : tasks_t) :
  active_count (l1 ++ l2) = active_count l1 + active_count l2.
Proof. unfold active_count. by rewrite List.filter_app, length_app. Qed.

Lemma active_count_cons (t : task) (l : tasks_t) :
  active_count (t :: l) = (if is_active t then 1 else 0) + active_count l.
Proof. unfold active_count. cbn. by destruct (is_active t). Qed.

Lemma active_count_insert (tasks : tasks_t) i t t' :
  tasks !! i = Some t ->
  active_count (<[i:=t']> tasks) + (if is_active t then 1 else 0)
  = active_count tasks + (if is_active t' then 1 else 0).
Proof.
  intros (l1 & l2 & -> & -> & _)%(insert_split _ _ _ t').
  rewrite !active_count_app, !active_count_cons. lia.
Qed.

Lemma task_step_active i t e t' :
  task_step_of i t e t' -> is_active t = true /\ is_queued t' = false.
Proof. by destruct 1. Qed.

Lemma queue_step_active st st' :
  step_of st st' ->
  active_count (fst st) <= MAX_BACKGROUND_CONCURRENCY ->
  active_count (fst st') <= MAX_BACKGROUND_CONCURRENCY.
Proof.
  destruct 1 as [tasks log i body Hi Hfifo Hroom | tasks log i t e t' Hi Hstep];
    cbn [fst]; intros Hle.
  - pose proof (active_count_insert _ _ _ (Ready body) Hi) as H. cbn in H. lia.
  - pose proof (active_count_insert _ _ _ t' Hi) as H.
    apply task_step_active in Hstep as [Ha _]. rewrite Ha in H.
    destruct (is_active t'); lia.
Qed.

Lemma reachable_active (bodies : list (async creativeData instrumentation R)) st :
  reachable runCreativeAnalysis runInstrumentationAnalysis bodies st ->
  active_count (fst st) <= MAX_BACKGROUND_CONCURRENCY.
Proof.
  induction 1 as [|st st' Hreach IH Hstep].
  - cbn [fst]. replace (active_count (Queued <$> bodies)) with 0; [lia|].
    unfold active_count. induction bodies as [|b l IHl]; [done|]. cbn. exact IHl.
  - by eapply queue_step_active.
Qed.

(** Tracks are started in the order they were enqueued. *)
Lemma reachable_fifo (bodies : list (async creativeData instrumentation R)) st :
  reachable runCreativeAnalysis runInstrumentationAnalysis bodies st ->
  forall j k t u, j < k -> fst st !! j = Some t -> is_queued t = true ->
    fst st !! k = Some u -> is_queued u = true.
Proof.
  induction 1 as [|st st' Hreach IH Hstep]; intros j k t u Hjk Hj Hq Hk.
  - cbn [fst] in Hk. rewrite list_lookup_fmap in Hk.
    destruct (bodies !! k); [|done]. by injection Hk as <-.
  - destruct Hstep as [tasks log i body Hi Hfifo Hroom | tasks log i v e v' Hi Hstep];
      cbn [fst] in *.
    + apply list_lookup_insert_Some in Hj as [(<- & <- & _) | (Hne & Hj)]; [done|].
      destruct (decide (j < i)) as [Hlt|Hge].
      { by rewrite (Hfifo j t Hlt Hj) in Hq. }
      apply list_lookup_insert_Some in Hk as [(-> & _ & _) | (_ & Hk)]; [lia|].
      by apply (IH j k t u).
    + apply task_step_active in Hstep as [Hact Hnq].
      apply list_lookup_insert_Some in Hj as [(<- & <- & _) | (Hne & Hj)].
      { by rewrite Hnq in Hq. }
      apply list_lookup_insert_Some in Hk as [(<- & <- & _) | (_ & Hk)].
      * assert (is_queued v = true) as Hv by (by apply (IH j i t v)).
        by destruct v.
      * by apply (IH j k t u).
Qed.

End SchedulingFacts.

Lemma six_tracks_reachable :
  Orchestration.reachable Orchestration.demo_creative Orchestration.demo_instrumentation
    (replicate 6 (Orchestration.completeAnalysisInBackground Orchestration.CONCURRENT))
    Scheduling.six_tracks_full.
Proof.
  pose proof (Orchestration.reach_start Orchestration.demo_creative
                Orchestration.demo_instrumentation
                (replicate 6 (Orchestration.completeAnalysisInBackground
                                Orchestration.CONCURRENT))) as H0.
  cbn in H0.
  eapply Orchestration.reach_step in H0;
    [|eapply (Orchestration.step_admit _ _ _ _ 0);
      [reflexivity | intros; lia
      | cbn; unfold Orchestration.MAX_BACKGROUND_CONCURRENCY; lia]].
  cbn in H0.
  eapply Orchestration.reach_step in H0;
    [|eapply (Orchestration.step_admit _ _ _ _ 1);
      [reflexivity
      | intros [|j] t Hj Ht; [by injection Ht as <- | lia]
      | cbn; unfold Orchestration.MAX_BACKGROUND_CONCURRENCY; lia]].
  cbn in H0.
  eapply Orchestration.reach_step in H0;
    [|eapply (Orchestration.step_admit _ _ _ _ 2);
      [reflexivity
      | intros [|[|j]] t Hj Ht; [by injection Ht as <- | by injection Ht as <- | lia]
      | cbn; unfold Orchestration.MAX_BACKGROUND_CONCURRENCY; lia]].
  cbn in H0.
  eapply Orchestration.reach_step in H0;
    [|eapply (Orchestration.step_admit _ _ _ _ 3);
      [reflexivity
      | intros [|[|[|j]]] t Hj Ht;
          [by injection Ht as <- | by injection Ht as <- | by injection Ht as <- | lia]
      | cbn; unfold Orchestration.MAX_BACKGROUND_CONCURRENCY; lia]].
  exact H0.
Qed.

(** X1: [processNextBackgroundTask] starts a body only while fewer than
    [MAX_BACKGROUND_CONCURRENCY] are active: in every state the background
    queue reaches, at most four bodies are started and not finished. *)
Theorem background_concurrency_bound {creativeData instrumentation R : Type}
    (runCreativeAnalysis : nat -> creativeData)
    (runInstrumentationAnalysis : nat -> creativeData -> instrumentation)
    (bodies : list (Orchestration.async creativeData instrumentation R))
    (st : list Orchestration.task * list (nat * Orchestration.event creativeData)) :
  Orchestration.reachable runCreativeAnalysis runInstrumentationAnalysis bodies st ->
  Orchestration.active_count (fst st) <= 4.
Proof. apply reachable_active. Qed.

Lemma background_concurrency_bound_witness :
  Orchestration.reachable Orchestration.demo_creative Orchestration.demo_instrumentation
    (replicate 6 (Orchestration.completeAnalysisInBackground Orchestration.CONCURRENT))
    Scheduling.six_tracks_full
  /\ Orchestration.active_count (fst Scheduling.six_tracks_full) = 4
  /\ Orchestration.active_count (fst Scheduling.six_tracks_full) <= 4.
Proof.
  split; [exact six_tracks_reachable|]. split; [reflexivity|].
  exact (background_concurrency_bound _ _ _ _ six_tracks_reachable).
Defined.

(** X2: the queue is first in, first out: in every state it reaches, a
    track that is still waiting has only waiting tracks behind it. *)
Theorem background_queue_fifo {creativeData instrumentation R : Type}
    (runCreativeAnalysis : nat -> creativeData)
    (runInstrumentationAnalysis : nat -> creativeData -> instrumentation)
    (bodies : list (Orchestration.async creativeData instrumentation R))
    (st : list Orchestration.task * list (nat * Orchestration.event creativeData))
    (j k : nat) (t u : Orchestration.task) :
  Orchestration.reachable runCreativeAnalysis runInstrumentationAnalysis bodies st ->
  j < k ->
  fst st !! j = Some t -> Orchestration.is_queued t = true ->
  fst st !! k = Some u ->
  Orchestration.is_queued u = true.
Proof. intros Hreach. by apply (reachable_fifo _ _ bodies st Hreach). Qed.

Lemma background_queue_fifo_witness :
  Orchestration.reachable Orchestration.demo_creative Orchestration.demo_instrumentation
    (replicate 6 (Orchestration.completeAnalysisInBackground Orchestration.CONCURRENT))
    Scheduling.six_tracks_full
  /\ fst Scheduling.six_tracks_full !! 4
     = Some (Orchestration.Queued
               (Orchestration.completeAnalysisInBackground Orchestration.CONCURRENT))
  /\ Orchestration.is_queued
       (Orchestration.Queued (R:=string * string)
          (Orchestration.completeAnalysisInBackground Orchestration.CONCURRENT)) = true.
Proof.
  split; [exact six_tracks_reachable|]. split; [reflexivity|].
  refine (background_queue_fifo _ _ _ _ 4 5 _ _ six_tracks_reachable _ _ _ _);
    [lia | reflexivity | reflexivity | reflexivity].
Defined.

(** ** The library store: more on the merge and the upsert *)

Section StoreFacts.
Import JsString JsSet JsonDb.

Lemma union_step_absorb arr (seen : gset string) values :
  (forall v, v ∈ values -> v ∈ seen) ->
  foldl union_step (arr, seen) values = (arr, seen).
Proof.
  induction values as [|v r IH]; intros Hall; [done|]. cbn.
  assert (has seen v = true) as -> by (apply has_true, Hall; left).
  cbn. apply IH. intros x Hx. apply Hall. by right.
Qed.

(** Values that are all in the list already leave it as it is. *)
Lemma unionInto_absorb arr values :
  (forall v, v ∈ values -> v ∈ arr) -> unionInto arr values = arr.
Proof.
  intros Hall. unfold unionInto. rewrite union_step_absorb; [done|].
  intros v Hv. apply elem_of_list_to_set. by apply Hall.
Qed.

Lemma unionInto_twice arr values :
  unionInto (unionInto arr values) values = unionInto arr values.
Proof.
  apply unionInto_absorb. intros v Hv. apply elem_of_unionInto. by right.
Qed.

Lemma spread_twice o n : spread (spread o n) n = spread o n.
Proof. by destruct n. Qed.

Lemma mergeAnalysis_twice o n :
  mergeAnalysis (mergeAnalysis o n) n = mergeAnalysis o n.
Proof.
  destruct n as [n|]; [|done]. destruct o as [o|]; cbn.
  - by rewrite !spread_twice.
  - destruct n as [a b c]. cbn. f_equal. f_equal; by destruct a, b, c.
Qed.

Lemma mergeTrack_twice oldRec newRec :
  mergeTrack (mergeTrack oldRec newRec) newRec = mergeTrack oldRec newRec.
Proof.
  unfold mergeTrack. cbn -[unionInto mergeAnalysis instrumentsToMerge].
  rewrite mergeAnalysis_twice, !unionInto_twice. reflexivity.
Qed.

Lemma finish_nonempty a t body : NodePath.finish a t body <> "".
Proof.
  unfold NodePath.finish. destruct body as [|c r]; cbn.
  - by destruct a, t.
  - by destruct a, t.
Qed.

Lemma normalize_nonempty p : NodePath.normalize p <> "".
Proof.
  unfold NodePath.normalize. destruct (negb (truthy p)); [done|].
  apply finish_nonempty.
Qed.

Lemma normalizeKey_empty p : normalizeKey p = "" <-> p = "".
Proof.
  unfold normalizeKey. destruct p as [|c r]; [done|]. cbn [truthy negb].
  split; [|done]. unfold toLowerCase, slashify. rewrite !map_chars_empty.
  intros H. by apply normalize_nonempty in H.
Qed.

End StoreFacts.

(** ** The order of numbers *)

Section FloatOrder.

Lemma SFcompare_swap x y : SFcompare y x = CompOpp <$> SFcompare x y.
Proof.
  destruct x as [a|a| |s1 m1 e1], y as [b|b| |s2 m2 e2]; cbn; try reflexivity;
    try (by destruct a); try (by destruct b); try (by destruct a, b);
    try (by destruct s1); try (by destruct s2).
  change (Pos.compare_cont Eq m1 m2) with (Pos.compare m1 m2).
  change (Pos.compare_cont Eq m2 m1) with (Pos.compare m2 m1).
  destruct s1, s2; cbn; try reflexivity;
    destruct (Z.compare_spec e1 e2), (Z.compare_spec e2 e1); cbn;
    try reflexivity; try lia;
    destruct (Pos.compare_spec m1 m2), (Pos.compare_spec m2 m1); cbn;
    try reflexivity; lia.
Qed.

Lemma SFltb_leb_trans x y z :
  SFltb x y = true -> SFleb y z = true -> SFltb x z = true.
Proof.
  unfold SFltb, SFleb.
  destruct x as [a|a| |s1 m1 e1], y as [b|b| |s2 m2 e2], z as [c|c| |s3 m3 e3]; cbn;
    try discriminate; try reflexivity;
    try change (Pos.compare_cont Eq m1 m2) with (Pos.compare m1 m2);
    try change (Pos.compare_cont Eq m2 m3) with (Pos.compare m2 m3);
    try change (Pos.compare_cont Eq m1 m3) with (Pos.compare m1 m3);
    repeat match goal with b : bool |- _ => destruct b end; cbn;
    try discriminate; try reflexivity;
    repeat match goal with
    | |- context [Z.compare ?a ?b] => destruct (Z.compare_spec a b)
    | |- context [Pos.compare ?a ?b] => destruct (Pos.compare_spec a b)
    end; cbn; try discriminate; try reflexivity; lia.
Qed.

(** Of two numbers, neither [NaN], one is below the other or the other is
    at most the one. *)
Lemma ltb_false_leb (x y : float) :
  PrimFloat.is_nan x = false -> PrimFloat.is_nan y = false ->
  (x <? y)%float = false <-> (y <=? x)%float = true.
Proof.
  intros Hx%Prim2SF_not_nan Hy%Prim2SF_not_nan.
  rewrite FloatAxioms.ltb_spec, FloatAxioms.leb_spec. unfold SFltb, SFleb.
  rewrite (SFcompare_swap (Prim2SF x) (Prim2SF y)).
  destruct (Prim2SF x) as [a|a| |s1 m1 e1], (Prim2SF y) as [b|b| |s2 m2 e2];
    try done; destruct (SFcompare _ _) as [[]|] eqn:E; cbn; try done;
    cbn in E; discriminate E.
Qed.

Lemma leb_negb_ltb (x y : float) :
  PrimFloat.is_nan x = false -> PrimFloat.is_nan y = false ->
  (y <=? x)%float = negb (x <? y)%float.
Proof.
  intros Hx Hy. pose proof (ltb_false_leb x y Hx Hy) as H.
  destruct (x <? y)%float, (y <=? x)%float; cbn; try done.
  - by destruct H as [_ H]; specialize (H eq_refl).
  - by destruct H as [H _]; specialize (H eq_refl).
Qed.

Lemma ltb_leb_trans (x y z : float) :
  (x <? y)%float = true -> (y <=? z)%float = true -> (x <? z)%float = true.
Proof.
  rewrite !FloatAxioms.ltb_spec, FloatAxioms.leb_spec. apply SFltb_leb_trans.
Qed.

End FloatOrder.

(** X5: [tempoToBand] gives no band to a number that is not finite, and
    sorts every finite tempo, whatever its sign, into exactly one band by
    the thresholds 60, 90, 110, 140 and 160, each band closed below and
    open above. *)
Theorem tempoToBand_bands (bpm : float) :
  (Criteria.tempoToBand bpm = None <-> JsNumber.isFinite bpm = false)
  /\ (JsNumber.isFinite bpm = true ->
      (Criteria.tempoToBand bpm = Some "Very Slow (Below 60 BPM)"
       <-> (bpm <? 60)%float = true)
      /\ (Criteria.tempoToBand bpm = Some "Slow (60-90 BPM)"
          <-> (60 <=? bpm)%float = true /\ (bpm <? 90)%float = true)
      /\ (Criteria.tempoToBand bpm = Some "Medium (90-110 BPM)"
          <-> (90 <=? bpm)%float = true /\ (bpm <? 110)%float = true)
      /\ (Criteria.tempoToBand bpm = Some "Upbeat (110-140 BPM)"
          <-> (110 <=? bpm)%float = true /\ (bpm <? 140)%float = true)
      /\ (Criteria.tempoToBand bpm = Some "Fast (140-160 BPM)"
          <-> (140 <=? bpm)%float = true /\ (bpm <? 160)%float = true)
      /\ (Criteria.tempoToBand bpm = Some "Very Fast (160+ BPM)"
          <-> (160 <=? bpm)%float = true)).
Proof.
  unfold Criteria.tempoToBand, JsNumber.lt.
  destruct (JsNumber.isFinite bpm) eqn:Hfin; cbn [negb].
  2:{ split; [done|]. discriminate. }
  split.
  { split; [|done]. by repeat case_match. }
  intros _. apply isFinite_not_nan in Hfin.
  rewrite (leb_negb_ltb bpm 60 Hfin eq_refl), (leb_negb_ltb bpm 90 Hfin eq_refl),
    (leb_negb_ltb bpm 110 Hfin eq_refl), (leb_negb_ltb bpm 140 Hfin eq_refl),
    (leb_negb_ltb bpm 160 Hfin eq_refl).
  pose proof (fun H => ltb_leb_trans bpm 60 90 H eq_refl) as T1.
  pose proof (fun H => ltb_leb_trans bpm 90 110 H eq_refl) as T2.
  pose proof (fun H => ltb_leb_trans bpm 110 140 H eq_refl) as T3.
  pose proof (fun H => ltb_leb_trans bpm 140 160 H eq_refl) as T4.
  destruct (bpm <? 60)%float;
    [specialize (T1 eq_refl); rewrite T1 in *|clear T1];
    (destruct (bpm <? 90)%float;
     [specialize (T2 eq_refl); rewrite T2 in *|clear T2]);
    (destruct (bpm <? 110)%float;
     [specialize (T3 eq_refl); rewrite T3 in *|clear T3]);
    (destruct (bpm <? 140)%float;
     [specialize (T4 eq_refl); rewrite T4 in *|clear T4]);
    destruct (bpm <? 160)%float; cbn [negb];
    repeat split; intros; try discriminate; try done; by intuition.
Qed.

(** X6: [upsertTrack] throws exactly when the path is empty; otherwise the
    store holds, under the key of the path, the merge of the entry it had
    there (an empty record if none) with the new record, every other entry
    is untouched, and the number of tracks grows by one exactly when the
    key is new. *)
Theorem upsertTrack_stores (tracks : gmap string JsonDb.trackRec) (path : string)
    (rec : JsonDb.trackRec) :
  (JsonDb.upsertTrack tracks path rec = None <-> path = "")
  /\ (forall tracks',
        JsonDb.upsertTrack tracks path rec = Some tracks' ->
        tracks' !! JsonDb.normalizeKey path
        = Some (JsonDb.mergeTrack
                  (default JsonDb.emptyRec (tracks !! JsonDb.normalizeKey path)) rec)
        /\ (forall k, k <> JsonDb.normalizeKey path -> tracks' !! k = tracks !! k)
        /\ size tracks'
           = match tracks !! JsonDb.normalizeKey path with
             | Some _ => size tracks
             | None => S (size tracks)
             end).
Proof.
  unfold JsonDb.upsertTrack.
  destruct (JsString.truthy (JsonDb.normalizeKey path)) eqn:Hkey; cbn [negb].
  - split.
    + split; [done|]. intros ->. discriminate Hkey.
    + intros tracks' [= <-]. split; [apply lookup_insert_eq|].
      split; [intros k Hk; by apply lookup_insert_ne|].
      rewrite map_size_insert. by destruct (tracks !! JsonDb.normalizeKey path).
  - split; [|discriminate]. split; [|done]. intros _.
    apply normalizeKey_empty. by destruct (JsonDb.normalizeKey path).
Qed.

(** X7: upserting the same record a second time changes nothing in the
    store: the creative lists and the analysis fields of the entry are
    what the first upsert left (the time stamps are not part of the
    embedding). *)
Theorem upsertTrack_idempotent (tracks tracks' : gmap string JsonDb.trackRec)
    (path : string) (rec : JsonDb.trackRec) :
  JsonDb.upsertTrack tracks path rec = Some tracks' ->
  JsonDb.upsertTrack tracks' path rec = Some tracks'.
Proof.
  unfold JsonDb.upsertTrack.
  destruct (negb (JsString.truthy (JsonDb.normalizeKey path))); [discriminate|].
  intros [= <-]. rewrite lookup_insert_eq. cbn [default from_option id].
  by rewrite mergeTrack_twice, insert_insert_eq.
Qed.

Lemma upsertTrack_idempotent_witness :
  JsonDb.upsertTrack ∅ "/Music/Song.mp3" (JsonDb.pipelineRec ["Piano"; "Organ"])
  = Some {[ "/music/song.mp3" :=
              JsonDb.mergeTrack JsonDb.emptyRec (JsonDb.pipelineRec ["Piano"; "Organ"]) ]}
  /\ JsonDb.upsertTrack
       {[ "/music/song.mp3" :=
            JsonDb.mergeTrack JsonDb.emptyRec (JsonDb.pipelineRec ["Piano"; "Organ"]) ]}
       "/Music/Song.mp3" (JsonDb.pipelineRec ["Piano"; "Organ"])
     = Some {[ "/music/song.mp3" :=
                 JsonDb.mergeTrack JsonDb.emptyRec
                   (JsonDb.pipelineRec ["Piano"; "Organ"]) ]}.
Proof.
  assert (H : JsonDb.upsertTrack ∅ "/Music/Song.mp3"
                (JsonDb.pipelineRec ["Piano"; "Organ"])
              = Some {[ "/music/song.mp3" :=
                          JsonDb.mergeTrack JsonDb.emptyRec
                            (JsonDb.pipelineRec ["Piano"; "Organ"]) ]})
    by reflexivity.
  split; [exact H|]. exact (upsertTrack_idempotent _ _ _ _ H).
Defined.

Section UnionOrder.
Import JsString JsSet JsonDb Criteria.

Lemma filter_absent (x : string) (l : list string) :
  x ∉ l -> filter (fun y => y <> x) l = l.
Proof.
  induction l as [|a r IH]; intros Hx; [reflexivity|].
  rewrite filter_cons, decide_True by set_solver. f_equal. apply IH. set_solver.
Qed.

Lemma elem_of_first_occurrences l x : x ∈ first_occurrences l <-> x ∈ l.
Proof.
  induction l as [|a r IH]; simpl; [done|].
  rewrite !elem_of_cons, list_elem_of_filter, IH.
  destruct (decide (x = a)); tauto.
Qed.

Lemma first_occurrences_filter (P : string -> Prop) `{!forall x, Decision (P x)} l :
  filter P (first_occurrences l) = first_occurrences (filter P l).
Proof.
  induction l as [|a r IH]; simpl; [reflexivity|].
  rewrite !filter_cons. destruct (decide (P a)) as [Ha|Ha]; simpl.
  - f_equal. rewrite <- IH. rewrite !list_filter_filter.
    apply list_filter_iff. tauto.
  - rewrite list_filter_filter.
    rewrite (list_filter_iff _ (fun y => (fun y => y <> a) y /\ P y)) by tauto.
    rewrite <- list_filter_filter, IH. apply filter_absent.
    rewrite elem_of_first_occurrences, list_elem_of_filter. tauto.
Qed.

(** The loop of [unionInto], in closed form. *)
Lemma union_step_closed values : forall arr,
  fst (foldl union_step (arr, list_to_set arr) values)
  = arr ++ fresh_values arr values.
Proof.
  unfold fresh_values.
  induction values as [|v r IH]; intros arr; simpl.
  - by rewrite app_nil_r.
  - rewrite filter_cons.
    destruct (has (list_to_set arr) v) eqn:E; simpl.
    + apply has_true in E. rewrite elem_of_list_to_set in E.
      rewrite decide_False by tauto. apply IH.
    + apply has_false in E. rewrite elem_of_list_to_set in E.
      rewrite decide_True by done. simpl.
      rewrite (add_snoc arr v), IH, <- app_assoc. simpl. do 2 f_equal.
      rewrite first_occurrences_filter, list_filter_filter. f_equal.
      apply list_filter_iff. intros x. rewrite elem_of_app, list_elem_of_singleton. tauto.
Qed.

Lemma NoDup_first_occurrences l : NoDup (first_occurrences l).
Proof.
  induction l as [|a r IH]; simpl; constructor.
  - rewrite list_elem_of_filter. tauto.
  - by apply NoDup_filter.
Qed.

Lemma first_occurrences_sublist l : first_occurrences l `sublist_of` l.
Proof.
  induction l as [|a r IH]; simpl; [done|].
  apply sublist_skip. etrans; [apply sublist_filter|exact IH].
Qed.

Lemma unionInto_closed arr values :
  unionInto arr values = arr ++ fresh_values arr values.
Proof. apply union_step_closed. Qed.

End UnionOrder.

(** X8: the loop of [mergeTrack] over genre, mood, vocals and theme only
    ever appends: each merged list is the old list followed by the new
    record's values that the old list lacks, each once and in the order in
    which the new record first has them. *)
Theorem mergeTrack_unions_lists (oldRec newRec : JsonDb.trackRec) :
  Forall
    (fun f : JsonDb.creativeRec -> JsonDb.field =>
       JsonDb.toArray
         (f (default JsonDb.emptyCreative
               (JsonDb.creative (JsonDb.mergeTrack oldRec newRec))))
       = JsonDb.toArray (f (default JsonDb.emptyCreative (JsonDb.creative oldRec)))
         ++ Criteria.fresh_values
              (JsonDb.toArray (f (default JsonDb.emptyCreative (JsonDb.creative oldRec))))
              (JsonDb.toArray (f (default JsonDb.emptyCreative (JsonDb.creative newRec)))))
    Criteria.list_fields
  /\ Criteria.fresh_values ["Rock"] ["Pop"; "Rock"; "Jazz"; "Pop"] = ["Pop"; "Jazz"]
  /\ (forall old new,
        NoDup (Criteria.fresh_values old new)
        /\ (forall x, x ∈ Criteria.fresh_values old new <-> x ∈ new /\ x ∉ old)
        /\ Criteria.fresh_values old new `sublist_of` new).
Proof.
  split; [|split].
  - unfold Criteria.list_fields. repeat constructor; apply unionInto_closed.
  - reflexivity.
  - intros old new. unfold Criteria.fresh_values. split; [|split].
    + apply NoDup_first_occurrences.
    + intros x. rewrite elem_of_first_occurrences, list_elem_of_filter. tauto.
    + etrans; [apply first_occurrences_sublist|apply sublist_filter].
Qed.

(** ** The per-track JSON merger *)

Section TrackJsonFacts.
Import JsString JsSet TrackJson.

Lemma trimStart_trimEnd_clean s : starts_clean s -> trimStart (trimEnd s) = trimEnd s.
Proof. intros H. apply trimStart_of_clean. by apply trimEnd_clean. Qed.

(** The state of the loop after a list: what was seen is the lowercased
    output, and the output is case-insensitively distinct. *)
Lemma uniqCI_fold arr : forall seen out,
  exists out',
    foldl uniqCI_step (seen, out) arr
    = (list_to_set (toLowerCase <$> out') ∪ seen, out ++ out')
    /\ NoDup (toLowerCase <$> out')
    /\ (forall k, k ∈ out' ->
          (toLowerCase k ∉ seen) /\ exists v, v ∈ arr /\ truthy v = true /\ k = trim v)
    /\ (forall v, v ∈ arr -> truthy v = true ->
          toLowerCase (trim v) ∈ seen \/ toLowerCase (trim v) ∈ toLowerCase <$> out').
Proof.
  induction arr as [|v r IH]; intros seen out.
  - exists []. cbn. rewrite app_nil_r. split; [f_equal; set_solver|].
    split; [constructor|]. split; [by intros k ?%elem_of_nil|by intros v ?%elem_of_nil].
  - cbn [foldl uniqCI_step]. destruct (truthy v) eqn:Hv; cbn [negb].
    2:{ destruct (IH seen out) as (out' & Heq & Hnd & Hfrom & Hcov).
        exists out'. split; [done|]. split; [done|]. split.
        - intros k Hk. destruct (Hfrom k Hk) as (Hns & u & Hu & Htu & ->).
          split; [done|]. exists u. split; [by right|done].
        - intros u [->|Hu]%elem_of_cons Htu; [congruence|]. by apply Hcov. }
    destruct (has seen (toLowerCase (trim v))) eqn:Hs; cbn [negb].
    + apply has_true in Hs.
      destruct (IH seen out) as (out' & Heq & Hnd & Hfrom & Hcov).
      exists out'. split; [done|]. split; [done|]. split.
      * intros k Hk. destruct (Hfrom k Hk) as (Hns & u & Hu & Htu & ->).
        split; [done|]. exists u. split; [by right|done].
      * intros u [->|Hu]%elem_of_cons Htu; [by left|]. by apply Hcov.
    + apply has_false in Hs.
      destruct (IH (add (toLowerCase (trim v)) seen) (out ++ [trim v]))
        as (out' & Heq & Hnd & Hfrom & Hcov).
      exists (trim v :: out'). split.
      { rewrite Heq. f_equal; [|by rewrite <- app_assoc].
        unfold add. cbn. set_solver. }
      split.
      { cbn. constructor; [|done]. intros (k & Hk & Hin)%list_elem_of_fmap.
        destruct (Hfrom k Hin) as (Hns & _). apply Hns. unfold add. set_solver. }
      split.
      * intros k [->|Hk]%elem_of_cons.
        -- split; [done|]. exists v. split; [left|done].
        -- destruct (Hfrom k Hk) as (Hns & u & Hu & Htu & ->).
           split; [unfold add in Hns; set_solver|]. exists u. split; [by right|done].
      * intros u [->|Hu]%elem_of_cons Htu.
        -- right. cbn. left.
        -- destruct (Hcov u Hu Htu) as [Hin|Hin].
           ++ unfold add in Hin. apply elem_of_union in Hin as [Hin|Hin]; [|by left].
              apply elem_of_singleton in Hin. right. cbn. rewrite Hin. left.
           ++ right. cbn. by right.
Qed.

Lemma uniqCI_spec arr :
  NoDup (toLowerCase <$> uniqCI arr)
  /\ (forall k, k ∈ uniqCI arr -> exists v, v ∈ arr /\ truthy v = true /\ k = trim v)
  /\ (forall v, v ∈ arr -> truthy v = true ->
        toLowerCase (trim v) ∈ toLowerCase <$> uniqCI arr).
Proof.
  unfold uniqCI. destruct (uniqCI_fold arr ∅ []) as (out' & -> & Hnd & Hfrom & Hcov).
  cbn [snd app]. split; [done|]. split.
  - intros k Hk. by destruct (Hfrom k Hk) as (_ & H).
  - intros v Hv Htv. destruct (Hcov v Hv Htv) as [H|H]; [set_solver|done].
Qed.

(** A list of trimmed, case-insensitively distinct entries goes through
    the loop unchanged, its empty strings apart. *)
Lemma uniqCI_fold_fixed l : forall seen out,
  (forall k, k ∈ l -> trim k = k) ->
  NoDup (toLowerCase <$> l) ->
  (forall k, k ∈ l -> toLowerCase k ∉ seen) ->
  foldl uniqCI_step (seen, out) l
  = (list_to_set (toLowerCase <$> List.filter truthy l) ∪ seen,
     out ++ List.filter truthy l).
Proof.
  induction l as [|v r IH]; intros seen out Htrim Hnd Hseen.
  - cbn. rewrite app_nil_r. f_equal. set_solver.
  - cbn [foldl uniqCI_step List.filter]. rewrite fmap_cons in Hnd.
    apply NoDup_cons in Hnd as [Hv Hnd].
    assert (Htrim' : forall k, k ∈ r -> trim k = k) by (intros; apply Htrim; by right).
    destruct (truthy v) eqn:Htv; cbn [negb].
    + rewrite (Htrim v) by left.
      assert (has seen (toLowerCase v) = false) as ->
        by (apply has_false, Hseen; left).
      cbn [negb]. rewrite IH; [| done | done |].
      * f_equal; [|by rewrite <- app_assoc]. unfold add. cbn. set_solver.
      * intros k Hk. unfold add. intros [Hin|Hin]%elem_of_union.
        -- apply elem_of_singleton in Hin. apply Hv. rewrite <- Hin.
           by apply list_elem_of_fmap_2.
        -- by apply (Hseen k); [right|].
    + apply IH; [done|done|]. intros k Hk. apply Hseen. by right.
Qed.

Lemma uniqCI_trimmed arr k : k ∈ uniqCI arr -> trim k = k.
Proof.
  intros Hk. destruct (uniqCI_spec arr) as (_ & Hfrom & _).
  destruct (Hfrom k Hk) as (v & _ & _ & ->). apply trim_idem.
Qed.

Lemma uniqCI_state arr :
  foldl uniqCI_step (∅, []) (uniqCI arr)
  = (list_to_set (toLowerCase <$> List.filter truthy (uniqCI arr)),
     List.filter truthy (uniqCI arr)).
Proof.
  rewrite uniqCI_fold_fixed.
  - f_equal. set_solver.
  - apply uniqCI_trimmed.
  - apply uniqCI_spec.
  - set_solver.
Qed.

Lemma elem_of_filter_truthy (l : list string) k :
  k ∈ List.filter truthy l <-> k ∈ l /\ truthy k = true.
Proof. rewrite !list_elem_of_In. apply filter_In. Qed.

Lemma has_label_false lowered a b :
  has_label lowered a b = false -> (a ∉ lowered) /\ (b ∉ lowered).
Proof.
  unfold has_label. intros H. split; intros Hin%list_elem_of_In.
  - assert (existsb (fun x => (String.eqb x a || String.eqb x b)%bool) lowered = true)
      as E; [|congruence].
    apply existsb_exists. exists a. split; [done|]. by rewrite String.eqb_refl.
  - assert (existsb (fun x => (String.eqb x a || String.eqb x b)%bool) lowered = true)
      as E; [|congruence].
    apply existsb_exists. exists b. split; [done|].
    by rewrite String.eqb_refl, orb_true_r.
Qed.

Lemma has_label_true lowered a b :
  has_label lowered a b = true -> a ∈ lowered \/ b ∈ lowered.
Proof.
  unfold has_label. intros (x & Hx%list_elem_of_In & [E|E]%orb_true_iff)%existsb_exists;
    apply String.eqb_eq in E; subst; auto.
Qed.

Lemma not_in_filtered (l : list string) (c : string) :
  c ∉ toLowerCase <$> l ->
  c ∉ (list_to_set (toLowerCase <$> List.filter truthy l) : gset string).
Proof.
  intros Hc Hin. apply Hc. apply elem_of_list_to_set in Hin.
  apply list_elem_of_fmap in Hin as (k & -> & Hk%elem_of_filter_truthy).
  apply list_elem_of_fmap_2. tauto.
Qed.

End TrackJsonFacts.

(** X9: [uniqCI] returns a case-insensitively duplicate-free list: no two
    entries have the same lowercase form, every entry is a non-empty input
    entry trimmed, and every non-empty input entry is there up to case.
    An entry of white space only comes out as the empty string. *)
Theorem uniqCI_case_insensitive (arr : list string) :
  NoDup (JsString.toLowerCase <$> TrackJson.uniqCI arr)
  /\ (forall k, k ∈ TrackJson.uniqCI arr ->
        exists v, v ∈ arr /\ v <> "" /\ k = JsString.trim v)
  /\ (forall v, v ∈ arr -> v <> "" ->
        exists k, k ∈ TrackJson.uniqCI arr
          /\ JsString.toLowerCase k = JsString.toLowerCase (JsString.trim v))
  /\ TrackJson.uniqCI ["Piano"; " piano "; "  "; ""; "PIANO"; "Organ"]
     = ["Piano"; ""; "Organ"].
Proof.
  destruct (uniqCI_spec arr) as (Hnd & Hfrom & Hcov).
  split; [done|]. split; [|split].
  - intros k Hk. destruct (Hfrom k Hk) as (v & Hv & Htv & ->).
    exists v. split; [done|]. split; [by destruct v|done].
  - intros v Hv Hne. assert (Htv : JsString.truthy v = true) by (by destruct v).
    specialize (Hcov v Hv Htv). apply list_elem_of_fmap in Hcov as (k & Hk & Hin).
    by exists k.
  - vm_compute. reflexivity.
Qed.

(** X10: [uniqCI] applied to its own output only drops the empty string:
    it is idempotent on every array that has no entry of white space only. *)
Theorem uniqCI_twice (arr : list string) :
  TrackJson.uniqCI (TrackJson.uniqCI arr)
  = List.filter JsString.truthy (TrackJson.uniqCI arr)
  /\ ((forall v, v ∈ arr -> v <> "" -> JsString.trim v <> "") ->
      TrackJson.uniqCI (TrackJson.uniqCI arr) = TrackJson.uniqCI arr).
Proof.
  assert (H : TrackJson.uniqCI (TrackJson.uniqCI arr)
              = List.filter JsString.truthy (TrackJson.uniqCI arr)).
  { unfold TrackJson.uniqCI at 1. by rewrite uniqCI_state. }
  split; [exact H|]. intros Hws. rewrite H.
  apply forallb_filter_id, forallb_forall. intros k Hk%list_elem_of_In.
  destruct (uniqCI_spec arr) as (_ & Hfrom & _).
  destruct (Hfrom k Hk) as (v & Hv & Htv & ->).
  assert (JsString.trim v <> "") by (apply Hws; [done|by destruct v]).
  by destruct (JsString.trim v).
Qed.

(** X11: on a list that went through [uniqCI], as [instrumentFallback] has,
    [addInstrumentFamilies] only appends: the result is the list without
    its empty string, followed by "Brass" if a brass key occurs in an entry
    and no entry is a brass label, then by "Woodwinds" likewise; so no
    instrument is removed, and after the step a list with a brass (or
    woodwind) key in an entry always carries a brass (or woodwinds) label. *)
Theorem addInstrumentFamilies_appends (arr : list string) :
  let fallback := TrackJson.uniqCI arr in
  let lowered := map JsString.toLowerCase fallback in
  TrackJson.addInstrumentFamilies fallback
  = List.filter JsString.truthy fallback
    ++ (if TrackJson.lacks_brass fallback then ["Brass"] else [])
    ++ (if TrackJson.lacks_woodwinds fallback then ["Woodwinds"] else [])
  /\ (TrackJson.hasAny lowered TrackJson.brassKeys = true ->
      exists x, x ∈ TrackJson.addInstrumentFamilies fallback
        /\ (JsString.toLowerCase x = "brass"
            \/ JsString.toLowerCase x = "brass (section)"))
  /\ (TrackJson.hasAny lowered TrackJson.woodKeys = true ->
      exists x, x ∈ TrackJson.addInstrumentFamilies fallback
        /\ (JsString.toLowerCase x = "woodwinds"
            \/ JsString.toLowerCase x = "woodwinds (section)")).
Proof.
  intros fallback lowered.
  assert (Heq : TrackJson.addInstrumentFamilies fallback
    = List.filter JsString.truthy fallback
      ++ (if TrackJson.lacks_brass fallback then ["Brass"] else [])
      ++ (if TrackJson.lacks_woodwinds fallback then ["Woodwinds"] else [])).
  { unfold TrackJson.addInstrumentFamilies.
    destruct fallback as [|k0 rest] eqn:Hfb; [reflexivity|]. rewrite <- Hfb.
    assert (Hst := uniqCI_state arr). fold fallback in Hst.
    unfold TrackJson.uniqCI at 1.
    destruct (TrackJson.lacks_brass fallback) eqn:Hb;
      destruct (TrackJson.lacks_woodwinds fallback) eqn:Hw;
      rewrite ?foldl_app, Hst; cbn [foldl TrackJson.uniqCI_step JsString.truthy negb].
    - apply andb_true_iff in Hb as [_ Hb], Hw as [_ Hw].
      apply negb_true_iff, has_label_false in Hb as [Hb _], Hw as [Hw _].
      change (JsString.toLowerCase (JsString.trim "Brass")) with "brass".
      change (JsString.toLowerCase (JsString.trim "Woodwinds")) with "woodwinds".
      change (JsString.trim "Brass") with "Brass".
      change (JsString.trim "Woodwinds") with "Woodwinds".
      assert (JsSet.has (list_to_set (JsString.toLowerCase
                <$> List.filter JsString.truthy fallback)) "brass" = false) as ->
        by (by apply has_false, not_in_filtered).
      cbn [negb TrackJson.uniqCI_step JsString.truthy].
      change (JsString.toLowerCase (JsString.trim "Woodwinds")) with "woodwinds".
      change (JsString.trim "Woodwinds") with "Woodwinds".
      assert (JsSet.has (JsSet.add "brass" (list_to_set (JsString.toLowerCase
                <$> List.filter JsString.truthy fallback))) "woodwinds" = false) as ->.
      { apply has_false. unfold JsSet.add. intros [Hin|Hin]%elem_of_union.
        - by apply elem_of_singleton in Hin.
        - by apply (not_in_filtered fallback "woodwinds"). }
      cbn [negb snd]. by rewrite <- app_assoc.
    - apply andb_true_iff in Hb as [_ Hb].
      apply negb_true_iff, has_label_false in Hb as [Hb _].
      change (JsString.toLowerCase (JsString.trim "Brass")) with "brass".
      change (JsString.trim "Brass") with "Brass".
      assert (JsSet.has (list_to_set (JsString.toLowerCase
                <$> List.filter JsString.truthy fallback)) "brass" = false) as ->
        by (by apply has_false, not_in_filtered).
      reflexivity.
    - apply andb_true_iff in Hw as [_ Hw].
      apply negb_true_iff, has_label_false in Hw as [Hw _].
      change (JsString.toLowerCase (JsString.trim "Woodwinds")) with "woodwinds".
      change (JsString.trim "Woodwinds") with "Woodwinds".
      assert (JsSet.has (list_to_set (JsString.toLowerCase
                <$> List.filter JsString.truthy fallback)) "woodwinds" = false) as ->
        by (by apply has_false, not_in_filtered).
      reflexivity.
    - cbn [snd]. by rewrite app_nil_r. }
  split; [exact Heq|]. rewrite Heq. split.
  - intros Hany. destruct (TrackJson.lacks_brass fallback) eqn:Hb.
    + exists "Brass". split; [|by left]. set_solver.
    + unfold TrackJson.lacks_brass in Hb. fold lowered in Hb. rewrite Hany in Hb.
      cbn in Hb. apply negb_false_iff, has_label_true in Hb.
      destruct Hb as [Hin|Hin]; apply list_elem_of_fmap in Hin as (x & Hx & Hin);
        (exists x; split; [|by auto]);
        apply elem_of_app; left; apply elem_of_filter_truthy;
        (split; [done|]); by destruct x.
  - intros Hany. destruct (TrackJson.lacks_woodwinds fallback) eqn:Hw.
    + exists "Woodwinds". split; [|by left]. set_solver.
    + unfold TrackJson.lacks_woodwinds in Hw. fold lowered in Hw. rewrite Hany in Hw.
      cbn in Hw. apply negb_false_iff, has_label_true in Hw.
      destruct Hw as [Hin|Hin]; apply list_elem_of_fmap in Hin as (x & Hx & Hin);
        (exists x; split; [|by auto]);
        apply elem_of_app; left; apply elem_of_filter_truthy;
        (split; [done|]); by destruct x.
Qed.

(** ** Sets in iteration order *)

Section OrderedSetFacts.
Import OrderedSet.

Lemma has_true_iff S0 x : has S0 x = true <-> x ∈ S0.
Proof. unfold has. apply bool_decide_eq_true. Qed.

Lemma elem_of_add x S0 y : y ∈ add x S0 <-> y = x \/ y ∈ S0.
Proof.
  unfold add. destruct (has S0 x) eqn:E.
  - apply has_true_iff in E. split; [auto|]. by intros [->|?].
  - rewrite elem_of_app, list_elem_of_singleton. tauto.
Qed.

Lemma NoDup_add x S0 : NoDup S0 -> NoDup (add x S0).
Proof.
  unfold add. destruct (has S0 x) eqn:E; [done|]. intros Hnd.
  apply NoDup_app. split; [done|]. split; [|apply NoDup_singleton].
  intros y Hy ->%list_elem_of_singleton.
  apply not_true_iff_false in E. by apply E, has_true_iff.
Qed.

Lemma add_present x S0 : x ∈ S0 -> add x S0 = S0.
Proof. intros H. unfold add. by apply has_true_iff in H as ->. Qed.

Lemma elem_of_delete x S0 y : y ∈ delete x S0 <-> y ∈ S0 /\ y <> x.
Proof.
  unfold delete. rewrite !list_elem_of_In, filter_In, negb_true_iff, String.eqb_neq.
  tauto.
Qed.

Lemma NoDup_delete x S0 : NoDup S0 -> NoDup (delete x S0).
Proof. rewrite !NoDup_ListNoDup. apply List.NoDup_filter. Qed.

Lemma delete_absent x S0 : x ∉ S0 -> delete x S0 = S0.
Proof.
  intros H. unfold delete. apply forallb_filter_id, forallb_forall.
  intros y Hy%list_elem_of_In. apply negb_true_iff, String.eqb_neq. by intros ->.
Qed.

Lemma of_array_fold arr : forall S0,
  NoDup S0 ->
  NoDup (foldl (fun S1 x => add x S1) S0 arr)
  /\ (forall y, y ∈ foldl (fun S1 x => add x S1) S0 arr <-> y ∈ S0 \/ y ∈ arr).
Proof.
  induction arr as [|x r IH]; intros S0 Hnd; cbn.
  - split; [done|]. set_solver.
  - destruct (IH (add x S0) (NoDup_add x S0 Hnd)) as [H1 H2].
    split; [done|]. intros y. rewrite H2, elem_of_add, elem_of_cons. tauto.
Qed.

Lemma NoDup_of_array arr : NoDup (of_array arr).
Proof. apply of_array_fold. constructor. Qed.

Lemma elem_of_of_array arr y : y ∈ of_array arr <-> y ∈ arr.
Proof.
  unfold of_array. destruct (of_array_fold arr [] (NoDup_nil_2)) as [_ H].
  rewrite H. set_solver.
Qed.

Lemma of_array_fixed_from S1 : forall S0,
  NoDup (S0 ++ S1) -> foldl (fun S2 x => add x S2) S0 S1 = S0 ++ S1.
Proof.
  induction S1 as [|x r IH]; intros S0 Hnd; cbn.
  - by rewrite app_nil_r.
  - assert (add x S0 = S0 ++ [x]) as ->.
    { unfold add. destruct (has S0 x) eqn:E; [|done].
      apply has_true_iff in E. apply NoDup_app in Hnd as (_ & Hd & _).
      exfalso. apply (Hd x E). left. }
    rewrite IH; rewrite <- app_assoc; [done|]. exact Hnd.
Qed.

(** A duplicate-free array is the set made of it. *)
Lemma of_array_fixed S0 : NoDup S0 -> of_array S0 = S0.
Proof. intros H. unfold of_array. by rewrite of_array_fixed_from. Qed.

End OrderedSetFacts.

(** ** The renderer's access to instruments *)

Section SectionTagFacts.
Import OrderedSet InstrumentAccess.

Lemma count_in_ext S0 S1 kids :
  (forall k, k ∈ kids -> (k ∈ S0 <-> k ∈ S1)) ->
  count_in S0 kids = count_in S1 kids.
Proof.
  intros H. unfold count_in. f_equal. apply filter_ext_in.
  intros k Hk%list_elem_of_In. specialize (H k Hk).
  unfold has. destruct (bool_decide (k ∈ S0)) eqn:E0, (bool_decide (k ∈ S1)) eqn:E1;
    try done.
  - apply bool_decide_eq_true in E0. apply bool_decide_eq_false in E1. tauto.
  - apply bool_decide_eq_false in E0. apply bool_decide_eq_true in E1. tauto.
Qed.

Lemma elem_of_deriveSectionTags accepted x :
  x ∈ deriveSectionTags accepted
  <-> (x = "Strings (section)" /\ 2 <= count_in accepted stringsKids)
      \/ (x <> "Strings (section)"
          /\ ((x = "Brass (section)" /\ 2 <= count_in accepted brassKids)
              \/ (x <> "Brass (section)" /\ x ∈ accepted))).
Proof.
  unfold deriveSectionTags.
  rewrite (count_in_ext (of_array accepted) accepted brassKids)
    by (intros; apply elem_of_of_array).
  rewrite (count_in_ext (of_array accepted) accepted stringsKids)
    by (intros; apply elem_of_of_array).
  destruct (Nat.leb_spec 2 (count_in accepted stringsKids)) as [Hs|Hs];
    destruct (Nat.leb_spec 2 (count_in accepted brassKids)) as [Hb|Hb];
    rewrite ?elem_of_add, ?elem_of_delete, ?elem_of_add, ?elem_of_delete,
      elem_of_of_array;
    destruct (decide (x = "Strings (section)")) as [Hxs|Hxs];
    destruct (decide (x = "Brass (section)")) as [Hxb|Hxb];
    try (exfalso; congruence);
    intuition (try lia; try congruence).
Qed.

Lemma NoDup_deriveSectionTags accepted : NoDup (deriveSectionTags accepted).
Proof.
  unfold deriveSectionTags.
  repeat case_match; repeat (apply NoDup_add || apply NoDup_delete);
    apply NoDup_of_array.
Qed.

End SectionTagFacts.

(** X12: [deriveSectionTags] returns a duplicate-free list that holds
    "Brass (section)" exactly when at least two of Trumpet, Trombone,
    Saxophone and French Horn were accepted, "Strings (section)" exactly
    when at least two of Violin, Viola, Cello and Double Bass were, and
    every other label exactly when it was accepted: a section tag in the
    input is dropped when its members do not back it. *)
Theorem deriveSectionTags_contract (accepted : list string) :
  NoDup (InstrumentAccess.deriveSectionTags accepted)
  /\ ("Brass (section)" ∈ InstrumentAccess.deriveSectionTags accepted
      <-> 2 <= InstrumentAccess.count_in accepted InstrumentAccess.brassKids)
  /\ ("Strings (section)" ∈ InstrumentAccess.deriveSectionTags accepted
      <-> 2 <= InstrumentAccess.count_in accepted InstrumentAccess.stringsKids)
  /\ (forall x, x <> "Brass (section)" -> x <> "Strings (section)" ->
        (x ∈ InstrumentAccess.deriveSectionTags accepted <-> x ∈ accepted)).
Proof.
  split; [apply NoDup_deriveSectionTags|].
  split; [|split].
  - rewrite elem_of_deriveSectionTags. intuition (try lia; try congruence).
  - rewrite elem_of_deriveSectionTags. intuition (try lia; try congruence).
  - intros x Hb Hs. rewrite elem_of_deriveSectionTags. tauto.
Qed.

(** X13: [deriveSectionTags] is idempotent: deriving the tags of a derived
    list returns that list, in the same order. *)
Theorem deriveSectionTags_idempotent (accepted : list string) :
  InstrumentAccess.deriveSectionTags (InstrumentAccess.deriveSectionTags accepted)
  = InstrumentAccess.deriveSectionTags accepted.
Proof.
  set (out := InstrumentAccess.deriveSectionTags accepted).
  assert (Hkids : forall (kids : list string) k, k ∈ kids -> k <> "Brass (section)" ->
            k <> "Strings (section)" -> (k ∈ out <-> k ∈ accepted)).
  { intros kids k _ Hb Hs. unfold out. rewrite elem_of_deriveSectionTags. tauto. }
  assert (Hbc : InstrumentAccess.count_in out InstrumentAccess.brassKids
                = InstrumentAccess.count_in accepted InstrumentAccess.brassKids).
  { apply count_in_ext. intros k Hk. apply (Hkids _ k Hk);
      intros ->; revert Hk; unfold InstrumentAccess.brassKids; set_solver. }
  assert (Hsc : InstrumentAccess.count_in out InstrumentAccess.stringsKids
                = InstrumentAccess.count_in accepted InstrumentAccess.stringsKids).
  { apply count_in_ext. intros k Hk. apply (Hkids _ k Hk);
      intros ->; revert Hk; unfold InstrumentAccess.stringsKids; set_solver. }
  assert (Hb : "Brass (section)" ∈ out
               <-> 2 <= InstrumentAccess.count_in accepted InstrumentAccess.brassKids).
  { unfold out. rewrite elem_of_deriveSectionTags. intuition (try lia; try congruence). }
  assert (Hs : "Strings (section)" ∈ out
               <-> 2 <= InstrumentAccess.count_in accepted InstrumentAccess.stringsKids).
  { unfold out. rewrite elem_of_deriveSectionTags. intuition (try lia; try congruence). }
  unfold InstrumentAccess.deriveSectionTags at 1. fold out.
  rewrite (of_array_fixed out) by apply NoDup_deriveSectionTags.
  rewrite Hbc, Hsc.
  destruct (Nat.leb_spec 2
              (InstrumentAccess.count_in accepted InstrumentAccess.brassKids)) as [H1|H1].
  - rewrite (add_present "Brass (section)" out) by (by apply Hb).
    destruct (Nat.leb_spec 2
                (InstrumentAccess.count_in accepted InstrumentAccess.stringsKids))
      as [H2|H2].
    + apply add_present. by apply Hs.
    + apply delete_absent. rewrite Hs. lia.
  - rewrite (delete_absent "Brass (section)" out) by (rewrite Hb; lia).
    destruct (Nat.leb_spec 2
                (InstrumentAccess.count_in accepted InstrumentAccess.stringsKids))
      as [H2|H2].
    + apply add_present. by apply Hs.
    + apply delete_absent. rewrite Hs. lia.
Qed.

(** ** What the store holds after a series of upserts *)

Section StoredFacts.
Import JsString JsonDb InstrumentAccess.

Lemma NoDup_unionInto arr values : NoDup arr -> NoDup (unionInto arr values).
Proof.
  intros Hnd. destruct (unionInto_spec arr values) as (app & -> & Hnd' & Hin).
  apply NoDup_app. split; [done|]. split; [|done].
  intros x Hx Hx'. apply Hin in Hx'. tauto.
Qed.

Lemma mergeTrack_plain oldRec newRec :
  plain oldRec ->
  plain (mergeTrack oldRec newRec)
  /\ c_instrument (default emptyCreative (creative (mergeTrack oldRec newRec)))
     = Arr (instrument_list (mergeTrack oldRec newRec)).
Proof.
  intros (Hf & Hi & Hnd). split; [|reflexivity].
  split; [exact Hf|]. split; [exact Hi|].
  rewrite mergeTrack_instrument. by apply NoDup_unionInto.
Qed.

Lemma normalizeKey_shape p : p <> "" -> key_shape (normalizeKey p).
Proof.
  intros Hp. split; [by rewrite normalizeKey_empty|].
  unfold normalizeKey. destruct p as [|c r]; [done|]. cbn [truthy negb].
  split; [apply toLowerCase_idem|].
  by rewrite <- toLowerCase_slashify, slashify_idem.
Qed.

Lemma upsertAll_stored ops : forall tracks tracks',
  (forall k r, tracks !! k = Some r -> key_shape k /\ stored r) ->
  upsertAll tracks ops = Some tracks' ->
  forall k r, tracks' !! k = Some r -> key_shape k /\ stored r.
Proof.
  induction ops as [|[path rec] rest IH]; intros tracks tracks' Hall Hu.
  - by injection Hu as <-.
  - cbn [upsertAll] in Hu.
    destruct (upsertTrack tracks path rec) as [tracks1|] eqn:H1; [|discriminate].
    apply (IH tracks1 tracks'); [|exact Hu]. clear IH Hu.
    unfold upsertTrack in H1.
    destruct (truthy (normalizeKey path)) eqn:Hkey; [|discriminate]. cbn [negb] in H1.
    injection H1 as <-. intros k r Hk.
    apply lookup_insert_Some in Hk as [(<- & <-) | (Hne & Hk)]; [|by apply Hall].
    split.
    + apply normalizeKey_shape. intros ->. discriminate Hkey.
    + apply mergeTrack_plain.
      destruct (tracks !! normalizeKey path) as [prev|] eqn:Hp; cbn.
      * by destruct (Hall _ _ Hp) as (_ & Hplain & _).
      * repeat split. constructor.
Qed.

Lemma getDetectedInstruments_stored r :
  stored r -> instrument_list r <> [] -> getDetectedInstruments r = instrument_list r.
Proof.
  intros ((Hf & Hi & _) & Hc) Hne. unfold getDetectedInstruments.
  rewrite Hf, Hi, Hc. cbn [nonempty_array array_of].
  by destruct (instrument_list r).
Qed.

End StoredFacts.

(** X14: in a store built from the empty one by any series of upserts,
    every key is non-empty, lowercase and free of backslashes, every entry
    carries its instruments in [creative.instrument] without duplicates and
    has no root [finalInstruments] or [instruments], and the renderer's
    [getDetectedInstruments] returns exactly that list whenever it is not
    empty. *)
Theorem stored_tracks_invariant (ops : list (string * JsonDb.trackRec))
    (tracks : gmap string JsonDb.trackRec) (k : string) (r : JsonDb.trackRec) :
  InstrumentAccess.upsertAll ∅ ops = Some tracks ->
  tracks !! k = Some r ->
  (k <> "" /\ JsString.toLowerCase k = k /\ JsString.slashify k = k)
  /\ JsonDb.finalInstruments r = JsonDb.Absent
  /\ JsonDb.instruments r = JsonDb.Absent
  /\ NoDup (JsonDb.instrument_list r)
  /\ (JsonDb.instrument_list r <> [] ->
      InstrumentAccess.getDetectedInstruments r = JsonDb.instrument_list r).
Proof.
  intros Hu Hk.
  destruct (upsertAll_stored ops ∅ tracks) with (k := k) (r := r)
    as (Hshape & Hstored); [by intros ? ? ?%lookup_empty_Some|done|done|].
  split; [exact Hshape|].
  destruct Hstored as ((Hf & Hi & Hnd) & Hc).
  split; [done|]. split; [done|]. split; [done|].
  apply getDetectedInstruments_stored. by repeat split.
Qed.

Lemma stored_tracks_invariant_witness :
  InstrumentAccess.upsertAll ∅
    [ ("/Music/Song.mp3", JsonDb.pipelineRec ["Piano"]);
      ("/music/Song.MP3", JsonDb.pipelineRec ["Organ"; "Piano"]) ]
  = Some {[ "/music/song.mp3" :=
              JsonDb.mergeTrack
                (JsonDb.mergeTrack JsonDb.emptyRec (JsonDb.pipelineRec ["Piano"]))
                (JsonDb.pipelineRec ["Organ"; "Piano"]) ]}
  /\ InstrumentAccess.getDetectedInstruments
       (JsonDb.mergeTrack
          (JsonDb.mergeTrack JsonDb.emptyRec (JsonDb.pipelineRec ["Piano"]))
          (JsonDb.pipelineRec ["Organ"; "Piano"]))
     = ["Piano"; "Organ"].
Proof.
  assert (Hu : InstrumentAccess.upsertAll ∅
                 [ ("/Music/Song.mp3", JsonDb.pipelineRec ["Piano"]);
                   ("/music/Song.MP3", JsonDb.pipelineRec ["Organ"; "Piano"]) ]
               = Some {[ "/music/song.mp3" :=
                           JsonDb.mergeTrack
                             (JsonDb.mergeTrack JsonDb.emptyRec
                                (JsonDb.pipelineRec ["Piano"]))
                             (JsonDb.pipelineRec ["Organ"; "Piano"]) ]})
    by reflexivity.
  split; [exact Hu|].
  destruct (stored_tracks_invariant _ _ "/music/song.mp3" _ Hu (lookup_singleton_eq _ _))
    as (_ & _ & _ & _ & Hget).
  rewrite Hget; [reflexivity|discriminate].
Defined.

(** ** The renderer's normalization of an analysis object *)

Section AnalysisShapeFacts.
Import JsString JsonDb AnalysisShape.

Lemma or_else_truthy x y :
  (exists s, y = Some s /\ truthy s = true) ->
  exists s, or_else x y = Some s /\ truthy s = true.
Proof.
  intros Hy. unfold or_else. destruct x as [s|]; [|done].
  destruct (truthy s) eqn:E; [by exists s|done].
Qed.

Lemma source_truthy x y :
  exists s, or_else x (or_else y (Some "legacy")) = Some s /\ truthy s = true.
Proof. apply or_else_truthy, or_else_truthy. by exists "legacy". Qed.

Lemma or_else_fixed s z : truthy s = true -> or_else (Some s) z = Some s.
Proof. intros Hs. unfold or_else. by rewrite Hs. Qed.

Lemma normalize_instruments_twice a :
  normalize_instruments (normalize_instruments a) = normalize_instruments a.
Proof.
  destruct a as [fi ens src ins isrc ad b t ab].
  destruct (source_truthy isrc src) as (s & Hs & Hts).
  unfold normalize_instruments. cbn -[or_else]. rewrite Hs.
  destruct fi as [|fs|fl], ens as [|es|el], ins as [|is_|il];
    cbn -[or_else]; try destruct (bool_decide (src = Some "ensemble")) eqn:Hd;
    cbn -[or_else]; rewrite ?Hd; cbn -[or_else];
    rewrite ?(or_else_fixed s _ Hts); reflexivity.
Qed.

Lemma normalize_tempo_twice a : normalize_tempo (normalize_tempo a) = normalize_tempo a.
Proof.
  destruct a as [fi ens src ins isrc ad b t ab]. unfold normalize_tempo.
  destruct b, t, ab; reflexivity.
Qed.

Lemma normalize_instruments_bpm a v :
  normalize_instruments (set_bpm a v) = set_bpm (normalize_instruments a) v.
Proof.
  destruct a as [fi ens src ins isrc ad b t ab].
  unfold normalize_instruments. cbn -[or_else].
  by repeat case_match.
Qed.

Lemma normalize_parts_commute a :
  normalize_instruments (normalize_tempo a) = normalize_tempo (normalize_instruments a).
Proof.
  unfold normalize_tempo at 1.
  assert (Hb : bpm (normalize_instruments a) = bpm a
               /\ tempo (normalize_instruments a) = tempo a
               /\ analysis_bpm (normalize_instruments a) = analysis_bpm a).
  { unfold normalize_instruments. by repeat case_match. }
  destruct Hb as (Hb & Ht & Hab). unfold normalize_tempo. rewrite Hb, Ht, Hab.
  repeat case_match; try reflexivity; apply normalize_instruments_bpm.
Qed.

Lemma normalizeAnalysis_twice a :
  normalizeAnalysis (normalizeAnalysis a) = normalizeAnalysis a.
Proof.
  unfold normalizeAnalysis.
  by rewrite normalize_parts_commute, normalize_instruments_twice, normalize_tempo_twice.
Qed.

Lemma normalize_tempo_instruments a :
  instruments (normalize_tempo a) = instruments a
  /\ audioDetected (normalize_tempo a) = audioDetected a
  /\ instrumentsSource (normalize_tempo a) = instrumentsSource a.
Proof. unfold normalize_tempo. by repeat case_match. Qed.

Lemma normalize_instruments_shape a :
  isArray (audioDetected (normalize_instruments a)) = true
  /\ (isArray (instruments (normalize_instruments a)) = true ->
      audioDetected (normalize_instruments a) = instruments (normalize_instruments a))
  /\ (exists s, instrumentsSource (normalize_instruments a) = Some s /\ s <> "")
  /\ (isArray (final_instruments a) = true ->
      instruments (normalize_instruments a) = final_instruments a).
Proof.
  destruct a as [fi ens src ins isrc ad b t ab].
  destruct (source_truthy isrc src) as (s & Hs & Hts).
  unfold normalize_instruments. cbn -[or_else]. rewrite Hs.
  destruct fi as [|fs|fl], ens as [|es|el], ins as [|is_|il];
    cbn -[or_else]; try destruct (bool_decide (src = Some "ensemble")) eqn:Hd;
    cbn -[or_else];
    (repeat split; try done; try discriminate;
     try (eexists; split; [reflexivity|discriminate]);
     try (exists s; split; [done|by destruct s])).
Qed.

End AnalysisShapeFacts.

(** X15: [normalizeAnalysis] is idempotent, and after it [audioDetected] is
    always an array, equal to [instruments] whenever that is an array;
    [instrumentsSource] is a non-empty string; a [final_instruments] array
    always becomes [instruments]; and a [bpm] that was set is kept. *)
Theorem normalizeAnalysis_idempotent (a : AnalysisShape.analysisObj) :
  let n := AnalysisShape.normalizeAnalysis a in
  AnalysisShape.normalizeAnalysis n = n
  /\ AnalysisShape.isArray (AnalysisShape.audioDetected n) = true
  /\ (AnalysisShape.isArray (AnalysisShape.instruments n) = true ->
      AnalysisShape.audioDetected n = AnalysisShape.instruments n)
  /\ (exists s, AnalysisShape.instrumentsSource n = Some s /\ s <> "")
  /\ (AnalysisShape.isArray (AnalysisShape.final_instruments a) = true ->
      AnalysisShape.instruments n = AnalysisShape.final_instruments a)
  /\ (AnalysisShape.is_nullish (AnalysisShape.bpm a) = false ->
      AnalysisShape.bpm n = AnalysisShape.bpm a).
Proof.
  intros n. split; [apply normalizeAnalysis_twice|].
  unfold n, AnalysisShape.normalizeAnalysis.
  destruct (normalize_tempo_instruments (AnalysisShape.normalize_instruments a))
    as (-> & -> & ->).
  destruct (normalize_instruments_shape a) as (H1 & H2 & H3 & H4).
  split; [done|]. split; [done|]. split; [done|]. split; [done|].
  intros Hb. unfold AnalysisShape.normalize_tempo.
  assert (AnalysisShape.bpm (AnalysisShape.normalize_instruments a)
          = AnalysisShape.bpm a) as Hbpm
    by (unfold AnalysisShape.normalize_instruments; by repeat case_match).
  by rewrite Hbpm, Hb.
Qed.

(** ** The schema guard of the creative client *)

Section LlmParseFacts.
Import LlmParse.

Lemma array_or_single_array v : is_array (array_or_single v) = true.
Proof. destruct v; cbn; try done; by case_match. Qed.

Lemma array_or_empty_array v : is_array (array_or_empty v) = true.
Proof. by destruct v. Qed.

Lemma array_or_single_fixed v : is_array v = true -> array_or_single v = v.
Proof. by destruct v. Qed.

Lemma array_or_empty_fixed v : is_array v = true -> array_or_empty v = v.
Proof. by destruct v. Qed.

End LlmParseFacts.

(** X16: [coerceCreativeSchema] always returns an object of the shape
    downstream code relies on (six arrays, a string narrative, a finite
    confidence), and it returns its argument unchanged exactly when the
    argument has that shape already; so it is idempotent. A scalar genre
    or mood is wrapped in an array, and a missing or non-finite confidence
    becomes 0.6. *)
Theorem coerceCreativeSchema_projection (obj : LlmParse.creativeObj) :
  LlmParse.well_formed (LlmParse.coerceCreativeSchema obj) = true
  /\ (LlmParse.coerceCreativeSchema obj = obj <-> LlmParse.well_formed obj = true)
  /\ LlmParse.coerceCreativeSchema (LlmParse.coerceCreativeSchema obj)
     = LlmParse.coerceCreativeSchema obj.
Proof.
  assert (Hwf : forall o, LlmParse.well_formed (LlmParse.coerceCreativeSchema o) = true).
  { intros o. unfold LlmParse.well_formed, LlmParse.coerceCreativeSchema.
    cbn [LlmParse.genre LlmParse.mood LlmParse.theme LlmParse.suggestedInstruments
         LlmParse.vocals LlmParse.lyricThemes LlmParse.narrative LlmParse.confidence].
    rewrite !array_or_single_array, !array_or_empty_array. cbn [andb].
    destruct (LlmParse.narrative o); cbn [andb];
      destruct (LlmParse.confidence o) as [| | |c| | |]; try reflexivity;
      by destruct (JsNumber.isFinite c) eqn:E. }
  assert (Hfix : forall o, LlmParse.well_formed o = true ->
                   LlmParse.coerceCreativeSchema o = o).
  { intros [g m t s v l n c]. unfold LlmParse.well_formed, LlmParse.coerceCreativeSchema.
    cbn [LlmParse.genre LlmParse.mood LlmParse.theme LlmParse.suggestedInstruments
         LlmParse.vocals LlmParse.lyricThemes LlmParse.narrative LlmParse.confidence].
    rewrite !andb_true_iff. intros (((((((Hg & Hm) & Ht) & Hs) & Hv) & Hl) & Hn) & Hc).
    rewrite (array_or_single_fixed g Hg), (array_or_single_fixed m Hm),
      (array_or_empty_fixed t Ht), (array_or_empty_fixed s Hs),
      (array_or_empty_fixed v Hv), (array_or_empty_fixed l Hl).
    destruct n; try discriminate. destruct c; try discriminate. by rewrite Hc. }
  split; [apply Hwf|]. split.
  - split; [|apply Hfix]. intros <-. apply Hwf.
  - apply Hfix, Hwf.
Qed.

(** ** The rescue from the audio probe *)

Section ProbeRescueFacts.
Import JsString ProbeRescue.

#[local] Abbreviation rank := (indexOf ENSEMBLE_RESCUE_PRIORITY).
#[local] Abbreviation precedes := (fun a b : string => (rank a < rank b)%Z).
#[local] Abbreviation not_after := (fun a b : string => (rank a <= rank b)%Z).

Lemma insert_by_perm sorted x : insert_by by_priority sorted x ≡ₚ x :: sorted.
Proof.
  induction sorted as [|e rest IH]; cbn [insert_by]; [done|].
  case_match; [done|]. rewrite IH. apply Permutation_swap.
Qed.

Lemma sort_by_perm arr : sort_by by_priority arr ≡ₚ arr.
Proof.
  unfold sort_by.
  assert (H : forall acc, foldl (insert_by by_priority) acc arr ≡ₚ acc ++ arr).
  { induction arr as [|x r IH]; intros acc; cbn [foldl].
    - by rewrite app_nil_r.
    - rewrite IH, insert_by_perm. cbn [app]. apply Permutation_middle. }
  apply (H []).
Qed.

Lemma insert_by_sorted sorted x :
  StronglySorted not_after sorted ->
  StronglySorted not_after (insert_by by_priority sorted x).
Proof.
  induction 1 as [|e rest Hs IH Hall]; cbn [insert_by].
  - repeat constructor.
  - unfold by_priority at 1. destruct (Z.ltb_spec (rank x - rank e) 0) as [Hlt|Hge].
    + constructor; [by constructor|]. constructor; [lia|].
      eapply Forall_impl; [exact Hall|]. cbn beta. intros y Hy. lia.
    + constructor; [exact IH|].
      rewrite (insert_by_perm rest x). constructor; [lia|exact Hall].
Qed.

Lemma sort_by_sorted arr : StronglySorted not_after (sort_by by_priority arr).
Proof.
  unfold sort_by.
  assert (H : forall acc, StronglySorted not_after acc ->
                StronglySorted not_after (foldl (insert_by by_priority) acc arr)).
  { induction arr as [|x r IH]; intros acc Hacc; cbn [foldl]; [done|].
    apply IH. by apply insert_by_sorted. }
  apply H. constructor.
Qed.

(** Two lists in strict priority order with the same elements are the
    same list. *)
Lemma sorted_unique (l1 : list string) : forall l2,
  StronglySorted precedes l1 -> StronglySorted precedes l2 ->
  (forall x, x ∈ l1 <-> x ∈ l2) -> l1 = l2.
Proof.
  induction l1 as [|a r1 IH]; intros l2 H1 H2 Hsame.
  - destruct l2 as [|b r2]; [done|]. exfalso.
    assert (b ∈ []) by (apply Hsame; left). by apply elem_of_nil in H.
  - destruct l2 as [|b r2].
    { exfalso. assert (a ∈ []) by (apply Hsame; left). by apply elem_of_nil in H. }
    apply StronglySorted_inv in H1 as [Hs1 Hall1].
    apply StronglySorted_inv in H2 as [Hs2 Hall2].
    rewrite Forall_forall in Hall1, Hall2.
    assert (a = b) as <-.
    { assert (Ha : a ∈ b :: r2) by (apply Hsame; left).
      assert (Hb : b ∈ a :: r1) by (apply Hsame; left).
      apply elem_of_cons in Ha as [Ha|Ha]; [done|].
      apply elem_of_cons in Hb as [Hb|Hb]; [done|].
      specialize (Hall2 a Ha). specialize (Hall1 b Hb). cbn beta in *. lia. }
    f_equal. apply IH; [done|done|]. intros x. split; intros Hx.
    + assert (Hx' : x ∈ a :: r2) by (apply Hsame; by right).
      apply elem_of_cons in Hx' as [->|Hx']; [|done].
      specialize (Hall1 a Hx). cbn beta in Hall1. lia.
    + assert (Hx' : x ∈ a :: r1) by (apply Hsame; by right).
      apply elem_of_cons in Hx' as [->|Hx']; [|done].
      specialize (Hall2 a Hx). cbn beta in Hall2. lia.
Qed.

Lemma rank_injective a b :
  a ∈ ENSEMBLE_RESCUE_PRIORITY -> b ∈ ENSEMBLE_RESCUE_PRIORITY -> rank a = rank b -> a = b.
Proof.
  unfold ENSEMBLE_RESCUE_PRIORITY. rewrite !elem_of_cons, !elem_of_nil.
  intros Ha Hb; repeat (destruct Ha as [->|Ha]; [|]); try done;
    repeat (destruct Hb as [->|Hb]; [|]); try done; vm_compute; congruence.
Qed.

Lemma strictly_sorted (l : list string) :
  StronglySorted not_after l -> NoDup l ->
  (forall x, x ∈ l -> x ∈ ENSEMBLE_RESCUE_PRIORITY) ->
  StronglySorted precedes l.
Proof.
  induction 1 as [|a r Hs IH Hall]; intros Hnd Hin; [constructor|].
  apply NoDup_cons in Hnd as [Ha Hnd].
  constructor; [apply IH; [done|]; intros; apply Hin; by right|].
  rewrite Forall_forall in Hall |- *. intros x Hx. specialize (Hall x Hx). cbn beta in *.
  destruct (decide (rank a = rank x)) as [Heq|Hne]; [|lia].
  apply rank_injective in Heq; [by subst| apply Hin; left | apply Hin; by right].
Qed.

Lemma priority_sorted : StronglySorted precedes ENSEMBLE_RESCUE_PRIORITY.
Proof. repeat (constructor; [|repeat constructor; vm_compute; reflexivity]). constructor. Qed.

Lemma filter_sorted (P : string -> bool) (l : list string) :
  StronglySorted precedes l -> StronglySorted precedes (List.filter P l).
Proof.
  induction 1 as [|a r Hs IH Hall]; cbn [List.filter]; [constructor|].
  destruct (P a); [|done]. constructor; [done|].
  rewrite Forall_forall in Hall |- *. intros x Hx%list_elem_of_In.
  apply filter_In in Hx as [Hx _]. apply Hall. by apply list_elem_of_In.
Qed.

Lemma lookup_value tbl k v : lookup tbl k = Some v -> v ∈ map snd tbl.
Proof.
  induction tbl as [|[k' v'] rest IH]; cbn [lookup map snd]; [discriminate|].
  destruct (String.eqb k' k); [intros [= <-]; left | intros H; right; by apply IH].
Qed.

Lemma lookup_display k v :
  lookup PROBE_TO_DISPLAY k = Some v -> v ∈ ENSEMBLE_RESCUE_PRIORITY.
Proof. intros H%lookup_value. exact H. Qed.

Lemma mapped_display d v : v ∈ mapped d -> v ∈ ENSEMBLE_RESCUE_PRIORITY.
Proof.
  unfold mapped. intros (raw & _ & H)%list_elem_of_omap. by eapply lookup_display.
Qed.

Lemma mapped_perm d d' : d ≡ₚ d' -> forall v, v ∈ mapped d <-> v ∈ mapped d'.
Proof.
  intros Hp v. unfold mapped. rewrite !list_elem_of_omap.
  split; intros (raw & Hraw & H); exists raw; (split; [|done]).
  - by rewrite <- Hp.
  - by rewrite Hp.
Qed.

(** The sorted, duplicate-free display names are the priority list cut
    down to the names that were mapped. *)
Lemma sort_closed_form d :
  sort_by by_priority (OrderedSet.of_array (mapped d))
  = List.filter (fun label => bool_decide (label ∈ mapped d)) ENSEMBLE_RESCUE_PRIORITY.
Proof.
  apply sorted_unique.
  - apply strictly_sorted.
    + apply sort_by_sorted.
    + rewrite sort_by_perm. apply NoDup_of_array.
    + intros x. rewrite sort_by_perm, elem_of_of_array. apply mapped_display.
  - apply filter_sorted, priority_sorted.
  - intros x. rewrite sort_by_perm, elem_of_of_array. split.
    + intros Hx. apply list_elem_of_In, filter_In.
      split; [apply list_elem_of_In; by eapply mapped_display|].
      by apply bool_decide_eq_true.
    + intros Hx%list_elem_of_In%filter_In. destruct Hx as [_ Hx].
      by apply bool_decide_eq_true in Hx.
Qed.

End ProbeRescueFacts.


(** ** The booster merge of [normalizePyResult] *)

Section PyResultFacts.
Import JsString PyResult.

Lemma merge_boosters_flat instruments boosts :
  merge_boosters instruments boosts = foldl push_booster instruments (boosted boosts).
Proof.
  unfold merge_boosters, boosted. revert instruments.
  induction boosts as [|[e|] rest IH]; intros instruments; cbn [foldl map concat].
  - reflexivity.
  - by rewrite foldl_app, IH.
  - by rewrite IH.
Qed.

Lemma push_boosters_spec values : forall instruments,
  exists appended,
    foldl push_booster instruments values = instruments ++ appended
    /\ NoDup appended
    /\ (forall s, s ∈ appended
          <-> Js.Str s ∈ values /\ s <> "" /\ (s ∉ instruments)).
Proof.
  induction values as [|v r IH]; intros instruments; cbn [foldl].
  - exists []. rewrite app_nil_r. split; [done|]. split; [constructor|]. set_solver.
  - assert (Hskip : push_booster instruments v = instruments ->
              (forall s, v = Js.Str s -> s = "" \/ s ∈ instruments) ->
              exists appended,
                foldl push_booster (push_booster instruments v) r
                = instruments ++ appended
                /\ NoDup appended
                /\ (forall s, s ∈ appended
                      <-> Js.Str s ∈ v :: r /\ s <> "" /\ (s ∉ instruments))).
    { intros -> Hv. destruct (IH instruments) as (app & Heq & Hnd & Hin).
      exists app. split; [done|]. split; [done|]. intros s. rewrite Hin, elem_of_cons.
      split; [tauto|]. intros ([Hs|Hs] & Hne & Hni); [|tauto].
      destruct (Hv s (eq_sym Hs)); tauto. }
    destruct v as [|x|s|]; try (apply Hskip; [reflexivity|discriminate]).
    destruct (truthy s) eqn:Hts.
    2:{ apply Hskip; [cbn [push_booster]; by rewrite Hts|].
        intros s' [= <-]. left. by destruct s. }
    destruct (bool_decide (s ∈ instruments)) eqn:Hin.
    { apply Hskip; [cbn [push_booster]; by rewrite Hts, Hin|].
      apply bool_decide_eq_true in Hin. intros s' [= <-]. by right. }
    cbn [push_booster]. rewrite Hts, Hin. cbn [andb negb].
    apply bool_decide_eq_false in Hin.
    destruct (IH (instruments ++ [s])) as (app & Heq & Hnd & Happ).
    exists (s :: app). split; [by rewrite Heq, <- app_assoc|]. split.
    + constructor; [|done]. rewrite Happ. set_solver.
    + intros s'. rewrite !elem_of_cons, Happ. split.
      * intros [->|(Hs' & Hne & Hni)].
        -- split; [by left|]. split; [by destruct s|done].
        -- split; [by right|]. split; [done|]. set_solver.
      * intros ([Hs'|Hs'] & Hne & Hni).
        -- left. congruence.
        -- destruct (decide (s' = s)) as [|Hd]; [by left|right].
           split; [done|]. split; [done|]. set_solver.
Qed.

End PyResultFacts.

(** X18: the booster merge of [normalizePyResult] only appends: the
    instruments the Python result lists stay in place, and behind them
    come the instruments named by the boosters that are non-empty strings
    and not listed yet, each once. *)
Theorem merge_boosters_appends (instruments : list string)
    (boosts : list (option PyResult.boostEntry)) :
  exists appended,
    PyResult.merge_boosters instruments boosts = instruments ++ appended
    /\ NoDup appended
    /\ (forall s, s ∈ appended
          <-> Js.Str s ∈ PyResult.boosted boosts /\ s <> "" /\ (s ∉ instruments)).
Proof. rewrite merge_boosters_flat. apply push_boosters_spec. Qed.

(** ** Names made safe for files and keys *)

Section SanitizeFacts.
Import JsString Sanitize.

Lemma all_chars_map P f s :
  (forall c, P (f c) = true) -> all_chars P (map_chars f s) = true.
Proof. intros H. induction s as [|c r IH]; cbn; [done|]. by rewrite H, IH. Qed.

Lemma map_chars_fixed P f s :
  (forall c, P c = true -> f c = c) -> all_chars P s = true -> map_chars f s = s.
Proof.
  intros H. induction s as [|c r IH]; cbn; [done|].
  intros [Hc Hr]%andb_true_iff. by rewrite (H c Hc), IH.
Qed.

Lemma all_chars_impl (P Q : ascii -> bool) s :
  (forall c, P c = true -> Q c = true) -> all_chars P s = true -> all_chars Q s = true.
Proof.
  intros H. induction s as [|c r IH]; cbn; [done|].
  intros [Hc Hr]%andb_true_iff. by rewrite (H c Hc), IH.
Qed.

Lemma length_map_chars f s : String.length (map_chars f s) = String.length s.
Proof. induction s as [|c r IH]; cbn; [done|]. by rewrite IH. Qed.

Lemma map_chars_fixed_inv P f s :
  (forall c, f c = c -> P c = true) -> map_chars f s = s -> all_chars P s = true.
Proof.
  intros H. induction s as [|c r IH]; cbn; [done|].
  intros [= Hc Hr]. by rewrite (H c Hc), IH.
Qed.

Lemma collapse_runs_chars P Q rep b s :
  Q rep = true -> all_chars Q s = true -> all_chars Q (collapse_runs P rep b s) = true.
Proof.
  intros Hrep. revert b. induction s as [|c r IH]; intros b; cbn; [done|].
  intros [Hc Hr]%andb_true_iff.
  destruct (P c), b; cbn; rewrite ?Hrep, ?Hc, ?IH; done.
Qed.

Lemma collapse_runs_clears P rep b s :
  P rep = false -> all_chars (fun c => negb (P c)) (collapse_runs P rep b s) = true.
Proof.
  intros Hrep. revert b. induction s as [|c r IH]; intros b; cbn; [done|].
  destruct (P c) eqn:Hc, b; cbn; rewrite ?Hrep, ?Hc, ?IH; done.
Qed.

Lemma collapse_runs_fixed P rep b s :
  all_chars (fun c => negb (P c)) s = true -> collapse_runs P rep b s = s.
Proof.
  revert b. induction s as [|c r IH]; intros b; cbn; [done|].
  intros [Hc Hr]%andb_true_iff. apply negb_true_iff in Hc. by rewrite Hc, IH.
Qed.

Lemma all_chars_and P Q s :
  all_chars (fun c => (P c && Q c)%bool) s = (all_chars P s && all_chars Q s)%bool.
Proof.
  induction s as [|c r IH]; cbn; [done|]. rewrite IH.
  destruct (P c), (Q c), (all_chars P r), (all_chars Q r); done.
Qed.

Lemma all_chars_map_impl (P Q : ascii -> bool) f s :
  (forall c, P c = true -> Q (f c) = true) ->
  all_chars P s = true -> all_chars Q (map_chars f s) = true.
Proof.
  intros H. induction s as [|c r IH]; cbn; [done|].
  intros [Hc Hr]%andb_true_iff. by rewrite (H c Hc), IH.
Qed.

Lemma lower_char_slug c :
  (negb (fs_reserved c) && negb (is_ws c))%bool = true -> slug_char (lower_char c) = true.
Proof. destruct c as [[] [] [] [] [] [] [] []]; vm_compute; done. Qed.

Lemma slug_char_fixed c :
  slug_char c = true ->
  fs_reserved c = false /\ is_ws c = false /\ lower_char c = c.
Proof. destruct c as [[] [] [] [] [] [] [] []]; vm_compute; done. Qed.

Lemma slugifyForFs_slug s : all_chars slug_char (slugifyForFs s) = true.
Proof.
  unfold slugifyForFs, toLowerCase.
  apply (all_chars_map_impl (fun c => (negb (fs_reserved c) && negb (is_ws c))%bool));
    [apply lower_char_slug|].
  rewrite all_chars_and. apply andb_true_iff. split.
  - apply collapse_runs_chars; [done|]. by apply collapse_runs_clears.
  - by apply collapse_runs_clears.
Qed.

Lemma slugifyForFs_fixed s : all_chars slug_char s = true -> slugifyForFs s = s.
Proof.
  intros H. unfold slugifyForFs, replace_runs.
  rewrite (collapse_runs_fixed fs_reserved), (collapse_runs_fixed is_ws).
  - apply (map_chars_fixed slug_char); [|done]. intros c Hc. by apply slug_char_fixed.
  - eapply all_chars_impl; [|exact H]. intros c Hc.
    apply slug_char_fixed in Hc as (_ & -> & _). done.
  - eapply all_chars_impl; [|exact H]. intros c Hc.
    apply slug_char_fixed in Hc as (-> & _ & _). done.
Qed.

(** *** [normalizeStem] *)

Lemma remove_chars_clears P s : all_chars (fun c => negb (P c)) (remove_chars P s) = true.
Proof.
  induction s as [|c r IH]; cbn; [done|]. destruct (P c) eqn:Hc; cbn; [done|].
  by rewrite Hc, IH.
Qed.

Lemma remove_chars_fixed P s :
  all_chars (fun c => negb (P c)) s = true -> remove_chars P s = s.
Proof.
  induction s as [|c r IH]; cbn; [done|].
  intros [Hc Hr]%andb_true_iff. apply negb_true_iff in Hc. by rewrite Hc, IH.
Qed.

Lemma remove_chars_map P f s :
  (forall c, P (f c) = P c) ->
  remove_chars P (map_chars f s) = map_chars f (remove_chars P s).
Proof.
  intros H. induction s as [|c r IH]; cbn; [done|]. rewrite H, IH. by destruct (P c).
Qed.

Lemma collapse_runs_map P rep f b s :
  (forall c, P (f c) = P c) -> f rep = rep ->
  collapse_runs P rep b (map_chars f s) = map_chars f (collapse_runs P rep b s).
Proof.
  intros H Hrep. revert b. induction s as [|c r IH]; intros b; cbn; [done|].
  rewrite H. destruct (P c), b; cbn; rewrite ?IH, ?Hrep; done.
Qed.

Lemma collapse_runs_class P Q rep b s :
  Q rep = true -> all_chars (fun c => (P c || Q c)%bool) s = true ->
  all_chars Q (collapse_runs P rep b s) = true.
Proof.
  intros Hrep. revert b. induction s as [|c r IH]; intros b; cbn; [done|].
  intros [Hc Hr]%andb_true_iff.
  destruct (P c) eqn:HP, b; cbn; rewrite ?Hrep, ?IH; try done;
    cbn in Hc; by rewrite Hc.
Qed.

Lemma collapse_runs_spaced rep b s :
  is_ws rep = true -> single_spaced b (collapse_runs is_ws rep b s) = true.
Proof.
  intros Hrep. revert b. induction s as [|c r IH]; intros b; cbn; [done|].
  destruct (is_ws c) eqn:Hc, b; cbn; rewrite ?Hrep, ?Hc; cbn; apply IH.
Qed.

Lemma single_spaced_weaken s : single_spaced true s = true -> single_spaced false s = true.
Proof. destruct s as [|c r]; cbn; [done|]. by destruct (is_ws c). Qed.

Lemma collapse_runs_spaced_fixed b s :
  all_chars (fun c => (negb (is_ws c) || code_is 32 c)%bool) s = true ->
  single_spaced b s = true -> collapse_runs is_ws space b s = s.
Proof.
  revert b. induction s as [|c r IH]; intros b; cbn; [done|].
  intros [Hc Hr]%andb_true_iff. destruct (is_ws c) eqn:Hws.
  - intros [Hb Hs]%andb_true_iff. apply negb_true_iff in Hb. subst b.
    cbn in Hc. rewrite (IH true Hr Hs). f_equal.
    unfold code_is in Hc. apply Nat.eqb_eq in Hc.
    rewrite <- (ascii_nat_embedding c), Hc. reflexivity.
  - intros Hs. by rewrite (IH false Hr Hs).
Qed.

Lemma all_chars_trimStart Q s : all_chars Q s = true -> all_chars Q (trimStart s) = true.
Proof.
  induction s as [|c r IH]; cbn; [done|]. intros [Hc Hr]%andb_true_iff.
  destruct (is_ws c); [by apply IH|]. cbn. by rewrite Hc, Hr.
Qed.

Lemma all_chars_trimEnd Q s : all_chars Q s = true -> all_chars Q (trimEnd s) = true.
Proof.
  induction s as [|c r IH]; cbn; [done|]. intros [Hc Hr]%andb_true_iff.
  specialize (IH Hr). destruct (trimEnd r) as [|c' r'] eqn:E.
  - destruct (is_ws c); cbn; [done|]. by rewrite Hc.
  - cbn in *. by rewrite Hc, IH.
Qed.

Lemma single_spaced_trimStart s :
  single_spaced false s = true -> single_spaced true (trimStart s) = true.
Proof.
  destruct s as [|c r]; cbn; [done|]. destruct (is_ws c) eqn:Hc; cbn.
  - intros Hs. destruct r as [|d r']; cbn in *; [done|].
    destruct (is_ws d) eqn:Hd; [discriminate|]. cbn. by rewrite Hd.
  - intros Hs. by rewrite Hc.
Qed.

Lemma single_spaced_trimEnd b s :
  single_spaced b s = true -> single_spaced b (trimEnd s) = true.
Proof.
  revert b. induction s as [|c r IH]; intros b; cbn; [done|].
  destruct (is_ws c) eqn:Hc.
  - intros [Hb Hs]%andb_true_iff. specialize (IH true Hs).
    destruct (trimEnd r) as [|c' r'] eqn:E; [done|]. cbn [single_spaced].
    by rewrite Hc, Hb.
  - intros Hs. specialize (IH false Hs).
    destruct (trimEnd r) as [|c' r'] eqn:E; cbn [single_spaced]; by rewrite Hc.
Qed.

Lemma ends_clean_trimEnd s : ends_clean (trimEnd s) = true.
Proof.
  unfold ends_clean. induction s as [|c r IH]; cbn; [done|].
  destruct (trimEnd r) as [|c' r'] eqn:E.
  - destruct (is_ws c) eqn:Hc; cbn; [done|]. by rewrite Hc.
  - exact IH.
Qed.

Lemma trimEnd_fixed s : ends_clean s = true -> trimEnd s = s.
Proof.
  unfold ends_clean. induction s as [|c r IH]; cbn; [done|].
  destruct r as [|d r']; cbn in *.
  - intros Hc. apply negb_true_iff in Hc. by rewrite Hc.
  - intros H. rewrite (IH H). by destruct (trimEnd _).
Qed.

Lemma trimStart_fixed s : single_spaced true s = true -> trimStart s = s.
Proof. destruct s as [|c r]; cbn; [done|]. by destruct (is_ws c). Qed.

Lemma trimStart_map f s :
  (forall c, is_ws (f c) = is_ws c) -> trimStart (map_chars f s) = map_chars f (trimStart s).
Proof.
  intros H. induction s as [|c r IH]; cbn; [done|]. rewrite H.
  by destruct (is_ws c).
Qed.

Lemma trimEnd_map f s :
  (forall c, is_ws (f c) = is_ws c) -> trimEnd (map_chars f s) = map_chars f (trimEnd s).
Proof.
  intros H. induction s as [|c r IH]; cbn; [done|]. rewrite IH, H.
  destruct (trimEnd r); cbn; [by destruct (is_ws c)|done].
Qed.

Lemma trim_map f s :
  (forall c, is_ws (f c) = is_ws c) -> trim (map_chars f s) = map_chars f (trim s).
Proof. intros H. unfold trim. by rewrite trimStart_map, trimEnd_map. Qed.

Lemma single_spaced_map f b s :
  (forall c, is_ws (f c) = is_ws c) -> single_spaced b (map_chars f s) = single_spaced b s.
Proof.
  intros H. revert b. induction s as [|c r IH]; intros b; cbn; [done|].
  rewrite H. destruct (is_ws c); by rewrite IH.
Qed.

Lemma last_char_map_chars f s : last_char (map_chars f s) = f <$> last_char s.
Proof.
  induction s as [|c r IH]; cbn; [done|]. destruct r as [|d r']; [done|].
  exact IH.
Qed.

Lemma ends_clean_map f s :
  (forall c, is_ws (f c) = is_ws c) -> ends_clean (map_chars f s) = ends_clean s.
Proof.
  intros H. unfold ends_clean. rewrite last_char_map_chars.
  destruct (last_char s); cbn; [by rewrite H|done].
Qed.

Lemma is_ws_lower c : is_ws (lower_char c) = is_ws c.
Proof. destruct c as [[] [] [] [] [] [] [] []]; reflexivity. Qed.

Lemma is_paren_lower c : is_paren (lower_char c) = is_paren c.
Proof. destruct c as [[] [] [] [] [] [] [] []]; reflexivity. Qed.

Lemma is_paren_underscore c : is_paren (underscore_to_space c) = is_paren c.
Proof. destruct c as [[] [] [] [] [] [] [] []]; reflexivity. Qed.

Lemma underscore_lower c :
  underscore_to_space (lower_char c) = lower_char (underscore_to_space c).
Proof. destruct c as [[] [] [] [] [] [] [] []]; reflexivity. Qed.

Lemma underscore_twice c :
  underscore_to_space (underscore_to_space c) = underscore_to_space c.
Proof. destruct c as [[] [] [] [] [] [] [] []]; reflexivity. Qed.

Lemma stem_char_lower c :
  (negb (is_paren c) && negb (code_is 95 c) && (negb (is_ws c) || code_is 32 c))%bool = true ->
  stem_char (lower_char c) = true.
Proof. destruct c as [[] [] [] [] [] [] [] []]; vm_compute; done. Qed.

Lemma stem_char_inv c :
  stem_char c = true ->
  is_paren c = false /\ underscore_to_space c = c /\ lower_char c = c
  /\ (negb (is_ws c) || code_is 32 c)%bool = true.
Proof. destruct c as [[] [] [] [] [] [] [] []]; vm_compute; done. Qed.

Lemma pre_stem_class c :
  is_paren c = false ->
  (is_ws (underscore_to_space c)
   || (negb (is_paren (underscore_to_space c)) && negb (code_is 95 (underscore_to_space c))
       && (negb (is_ws (underscore_to_space c)) || code_is 32 (underscore_to_space c))))%bool
  = true.
Proof. destruct c as [[] [] [] [] [] [] [] []]; vm_compute; done. Qed.

Lemma normalizeStem_clean name : clean_stem (normalizeStem name) = true.
Proof.
  unfold clean_stem, normalizeStem, toLowerCase.
  set (x2 := map_chars underscore_to_space (remove_chars is_paren name)).
  set (Q := fun c => (negb (is_paren c) && negb (code_is 95 c)
                      && (negb (is_ws c) || code_is 32 c))%bool).
  assert (H3 : all_chars Q (replace_runs is_ws space x2) = true).
  { apply collapse_runs_class; [done|]. unfold x2.
    apply (all_chars_map_impl (fun c => negb (is_paren c))).
    - intros c Hc%negb_true_iff. by apply pre_stem_class.
    - apply remove_chars_clears. }
  assert (S3 : single_spaced false (replace_runs is_ws space x2) = true)
    by (by apply collapse_runs_spaced).
  repeat (apply andb_true_iff; split).
  - apply (all_chars_map_impl Q); [apply stem_char_lower|].
    by apply all_chars_trimEnd, all_chars_trimStart.
  - rewrite single_spaced_map by apply is_ws_lower.
    by apply single_spaced_trimEnd, single_spaced_trimStart.
  - rewrite ends_clean_map by apply is_ws_lower. apply ends_clean_trimEnd.
Qed.

Lemma normalizeStem_fixed t : clean_stem t = true -> normalizeStem t = t.
Proof.
  unfold clean_stem. intros [[Hc Hs]%andb_true_iff He]%andb_true_iff.
  unfold normalizeStem, replace_runs.
  rewrite (remove_chars_fixed is_paren).
  2:{ eapply all_chars_impl; [|exact Hc]. intros c H.
      by apply stem_char_inv in H as (-> & _). }
  rewrite (map_chars_fixed stem_char underscore_to_space); [|by intros c (_ & H & _)%stem_char_inv|done].
  rewrite collapse_runs_spaced_fixed.
  - unfold trim. rewrite (trimStart_fixed t Hs), (trimEnd_fixed t He).
    apply (map_chars_fixed stem_char); [|done]. by intros c (_ & _ & H & _)%stem_char_inv.
  - eapply all_chars_impl; [|exact Hc]. by intros c (_ & _ & _ & H)%stem_char_inv.
  - by apply single_spaced_weaken.
Qed.

Lemma map_underscore_lower x :
  map_chars underscore_to_space (map_chars lower_char x)
  = map_chars lower_char (map_chars underscore_to_space x).
Proof.
  rewrite !map_chars_compose. apply map_chars_ext. intros c. apply underscore_lower.
Qed.

Lemma JsString_map_twice f x :
  (forall c, f (f c) = f c) -> map_chars f (map_chars f x) = map_chars f x.
Proof. intros H. rewrite map_chars_compose. by apply map_chars_ext. Qed.

Lemma normalizeStem_lower s : normalizeStem (toLowerCase s) = normalizeStem s.
Proof.
  unfold normalizeStem, toLowerCase, replace_runs.
  rewrite (remove_chars_map is_paren lower_char) by apply is_paren_lower.
  rewrite map_underscore_lower.
  rewrite (collapse_runs_map is_ws space lower_char) by (done || apply is_ws_lower).
  rewrite (trim_map lower_char) by apply is_ws_lower.
  apply (toLowerCase_idem).
Qed.

End SanitizeFacts.

(** X19: [fileSafe] keeps the length of the stem, returns only letters,
    digits, dots, underscores, spaces and dashes of the ASCII range, leaves
    a stem made of those unchanged and no other, and is idempotent. *)
Theorem fileSafe_contract (stem : string) :
  String.length (Sanitize.fileSafe stem) = String.length stem
  /\ Sanitize.all_chars Sanitize.file_safe_char (Sanitize.fileSafe stem) = true
  /\ (Sanitize.fileSafe stem = stem
      <-> Sanitize.all_chars Sanitize.file_safe_char stem = true)
  /\ Sanitize.fileSafe (Sanitize.fileSafe stem) = Sanitize.fileSafe stem.
Proof.
  assert (Hsafe : forall s, Sanitize.all_chars Sanitize.file_safe_char
                              (Sanitize.fileSafe s) = true).
  { intros s. apply all_chars_map. intros c.
    destruct (Sanitize.file_safe_char c) eqn:E; [done|reflexivity]. }
  assert (Hfix : forall s, Sanitize.all_chars Sanitize.file_safe_char s = true ->
                   Sanitize.fileSafe s = s).
  { intros s. apply map_chars_fixed. by intros c ->. }
  split; [apply length_map_chars|]. split; [apply Hsafe|]. split.
  - split; [|apply Hfix]. intros <-. apply Hsafe.
  - apply Hfix, Hsafe.
Qed.

(** X20: [slugifyForFs] returns a name without slash, backslash, colon,
    question mark, star, double quote, angle bracket or bar, without white
    space and without capital letters; it leaves such a name unchanged, so
    it is idempotent. *)
Theorem slugifyForFs_contract (s : string) :
  Sanitize.all_chars Sanitize.slug_char (Sanitize.slugifyForFs s) = true
  /\ (Sanitize.slugifyForFs s = s <-> Sanitize.all_chars Sanitize.slug_char s = true)
  /\ Sanitize.slugifyForFs (Sanitize.slugifyForFs s) = Sanitize.slugifyForFs s.
Proof.
  split; [apply slugifyForFs_slug|]. split.
  - split; [|apply slugifyForFs_fixed]. intros <-. apply slugifyForFs_slug.
  - apply slugifyForFs_fixed, slugifyForFs_slug.
Qed.

(** X21: [normalizeStem] returns a stem without parentheses, underscores or
    capital letters, whose white space is single spaces between other
    characters; it leaves such a stem unchanged and no other, so it is
    idempotent. *)
Theorem normalizeStem_contract (name : string) :
  Sanitize.clean_stem (Sanitize.normalizeStem name) = true
  /\ (Sanitize.normalizeStem name = name <-> Sanitize.clean_stem name = true)
  /\ Sanitize.normalizeStem (Sanitize.normalizeStem name) = Sanitize.normalizeStem name.
Proof.
  split; [apply normalizeStem_clean|]. split.
  - split; [|apply normalizeStem_fixed]. intros <-. apply normalizeStem_clean.
  - apply normalizeStem_fixed, normalizeStem_clean.
Qed.

(** X22: [normalizeStem] does not tell letter case, underscores from
    spaces, or parentheses: lowercasing a name, replacing its underscores
    by spaces, or striking its parentheses does not change its stem. *)
Theorem normalizeStem_insensitive (name : string) :
  Sanitize.normalizeStem (JsString.toLowerCase name) = Sanitize.normalizeStem name
  /\ Sanitize.normalizeStem (JsString.map_chars Sanitize.underscore_to_space name)
     = Sanitize.normalizeStem name
  /\ Sanitize.normalizeStem (Sanitize.remove_chars Sanitize.is_paren name)
     = Sanitize.normalizeStem name
  /\ Sanitize.normalizeStem "  Full_Song  (Radio Edit) " = "full song radio edit".
Proof.
  split; [apply normalizeStem_lower|]. split; [|split].
  - unfold Sanitize.normalizeStem.
    rewrite (remove_chars_map Sanitize.is_paren Sanitize.underscore_to_space)
      by apply is_paren_underscore.
    rewrite (JsString_map_twice Sanitize.underscore_to_space) by apply underscore_twice.
    reflexivity.
  - unfold Sanitize.normalizeStem.
    rewrite (remove_chars_fixed Sanitize.is_paren (Sanitize.remove_chars _ _))
      by apply remove_chars_clears.
    reflexivity.
  - vm_compute. reflexivity.
Qed.

(** ** The finalizer with a Strings family *)

Section StringsFamilyFacts.
Import JsString JsSet Finalize StringsFamily.

Lemma elem_of_collapse_strings O x :
  x ∈ collapse_strings O <->
  if (some_has STRING_MEMBERS O || has O "Strings")%bool
  then x = "Strings" \/ (x ∈ O /\ (x ∉ STRING_MEMBERS) /\ x <> "Strings (section)")
  else x ∈ O.
Proof.
  unfold collapse_strings.
  destruct (some_has STRING_MEMBERS O || has O "Strings")%bool; [|reflexivity].
  unfold add, delete. rewrite elem_of_union, elem_of_singleton, elem_of_difference,
    elem_of_singleton, elem_of_delete_all. tauto.
Qed.

(** After the collapse no string instrument is left in the set. *)
Lemma collapse_strings_members O m : m ∈ STRING_MEMBERS -> m ∉ collapse_strings O.
Proof.
  intros Hm. rewrite elem_of_collapse_strings.
  destruct (some_has STRING_MEMBERS O || has O "Strings")%bool eqn:E.
  - intros [->|(_ & Hn & _)]; [|done].
    revert Hm. unfold STRING_MEMBERS. rewrite !elem_of_cons, elem_of_nil.
    intuition discriminate.
  - apply orb_false_iff in E as [E _]. rewrite some_has_false in E. by apply E.
Qed.

Lemma soft_guard_subset O x : x ∈ soft_guard O -> x ∈ O.
Proof.
  unfold soft_guard. case_match; [|done]. unfold delete. set_solver.
Qed.

Lemma bowed_string_members m : m ∈ BOWED -> m ∈ STRING_MEMBERS.
Proof.
  unfold BOWED, STRING_MEMBERS. rewrite !elem_of_cons, !elem_of_nil. tauto.
Qed.

(** With a pad in the collapsed set, the soft-guard leaves no "Strings". *)
Lemma soft_guard_pads O pad :
  pad ∈ PADS -> pad ∈ soft_guard (collapse_strings O) ->
  "Strings" ∉ soft_guard (collapse_strings O).
Proof.
  intros Hpad Hin. assert (Hin' := soft_guard_subset _ _ Hin).
  unfold soft_guard.
  assert (some_has BOWED (collapse_strings O) = false) as ->.
  { apply some_has_false. intros m Hm. by apply collapse_strings_members, bowed_string_members. }
  assert (some_has PADS (collapse_strings O) = true) as ->
    by (apply some_has_true; eauto).
  destruct (has (collapse_strings O) "Strings") eqn:E; cbn.
  - unfold delete. set_solver.
  - by apply has_false in E.
Qed.

Lemma canonicalize_cases x :
  canonicalizeCapitalization x = x
  \/ canonicalizeCapitalization x ∈ Canonical.FAMILY_LABELS.
Proof.
  unfold canonicalizeCapitalization, Canonical.FAMILY_LABELS.
  repeat case_match; set_solver.
Qed.

Lemma map_fixed_on {A} (f : A -> A) (l : list A) :
  (forall v, v ∈ l -> f v = v) -> map f l = l.
Proof.
  induction l as [|a r IH]; intros H; cbn; [done|].
  rewrite (H a) by left. f_equal. apply IH. intros v Hv. apply H. by right.
Qed.

Lemma elem_of_final x y z v :
  v ∈ final x y z ->
  truthy v = true
  /\ v ∈ soft_guard (collapse_strings (Canonical.collapse_woodwinds
         (Canonical.collapse_brass
            (list_to_set (dedupe ∅ (map (normalize Canonical.CANON_ALIASES)
                                       (x ++ y ++ z))))))).
Proof.
  unfold final. rewrite elem_of_assemble. intros [[H|H] HS]; (split; [|done]).
  - by apply out_fixed in H as [H _].
  - by apply family_label_fixed in H as [H _].
Qed.

End StringsFamilyFacts.

(** X23: in the finalizer with a Strings family, a pad-like instrument
    (Organ, Keyboard, Synth) in the result excludes every string
    instrument: Violin, Viola, Cello, Double Bass and Harp are collapsed
    into "Strings" before the soft-guard looks for bowed instruments, so
    the guard always fires and the list before the capitalization pass has
    no "Strings" either. *)
Theorem strings_family_pads (x y z : list string) (pad : string) :
  pad ∈ Finalize.PADS ->
  pad ∈ StringsFamily.finalizeInstruments x y z ->
  (forall m, m ∈ StringsFamily.STRING_MEMBERS ->
     m ∉ StringsFamily.finalizeInstruments x y z)
  /\ ("Strings" ∉ StringsFamily.final x y z)
  /\ StringsFamily.finalizeInstruments ["Violin"; "Organ"] [] [] = ["Organ"].
Proof.
  intros Hpad Hin.
  assert (Hpad' : pad ∈ StringsFamily.final x y z).
  { unfold StringsFamily.finalizeInstruments in Hin.
    apply list_elem_of_fmap in Hin as (v & Hv & Hin).
    destruct (canonicalize_cases v) as [E|E]; [rewrite E in Hv; by subst v|].
    exfalso. rewrite <- Hv in E. revert Hpad E.
    unfold Finalize.PADS, Canonical.FAMILY_LABELS.
    rewrite !elem_of_cons, !elem_of_nil. intuition congruence. }
  apply elem_of_final in Hpad' as [_ Hpad'].
  split; [|split].
  - intros m Hm Hin'. unfold StringsFamily.finalizeInstruments in Hin'.
    apply list_elem_of_fmap in Hin' as (v & Hv & Hin').
    destruct (canonicalize_cases v) as [E|E].
    + rewrite E in Hv. subst v. apply elem_of_final in Hin' as [_ Hin'].
      apply soft_guard_subset in Hin'. by apply collapse_strings_members in Hin'.
    + rewrite <- Hv in E. revert Hm E.
      unfold StringsFamily.STRING_MEMBERS, Canonical.FAMILY_LABELS.
      rewrite !elem_of_cons, !elem_of_nil. intuition congruence.
  - intros Hs. apply elem_of_final in Hs as [_ Hs].
    by apply (soft_guard_pads _ pad Hpad Hpad').
  - vm_compute. reflexivity.
Qed.

Lemma strings_family_pads_witness :
  "Organ" ∈ Finalize.PADS
  /\ "Organ" ∈ StringsFamily.finalizeInstruments ["Cello"; "Harp"; "Organ"] [] []
  /\ "Strings" ∉ StringsFamily.final ["Cello"; "Harp"; "Organ"] [] [].
Proof.
  assert (H1 : "Organ" ∈ Finalize.PADS) by (unfold Finalize.PADS; left).
  assert (H2 : "Organ" ∈ StringsFamily.finalizeInstruments ["Cello"; "Harp"; "Organ"] [] [])
    by (vm_compute; left).
  split; [exact H1|]. split; [exact H2|].
  exact (proj1 (proj2 (strings_family_pads _ _ _ _ H1 H2))).
Defined.

(** X24: the finalizer with a Strings family returns no empty string, and
    the list it assembles is duplicate-free; the closing capitalization
    pass can merge entries, so the returned list is duplicate-free when no
    assembled entry is a family token in another capitalization, and not in
    general: ["brass", "Brass"] comes back as ["Brass", "Brass"]. *)
Theorem strings_family_duplicates (x y z : list string) :
  NoDup (StringsFamily.final x y z)
  /\ ("" ∉ StringsFamily.finalizeInstruments x y z)
  /\ ((forall v, v ∈ StringsFamily.final x y z ->
         StringsFamily.canonicalizeCapitalization v = v) ->
      NoDup (StringsFamily.finalizeInstruments x y z))
  /\ StringsFamily.finalizeInstruments ["brass"; "Brass"] [] [] = ["Brass"; "Brass"].
Proof.
  split; [apply NoDup_assemble|]. split; [|split].
  - unfold StringsFamily.finalizeInstruments.
    intros (v & Hv & Hin)%list_elem_of_fmap.
    apply elem_of_final in Hin as [Ht _].
    destruct (canonicalize_cases v) as [E|E].
    + rewrite E in Hv. by subst v.
    + rewrite <- Hv in E. revert E. unfold Canonical.FAMILY_LABELS.
      rewrite !elem_of_cons, !elem_of_nil. intuition discriminate.
  - intros Hfix. unfold StringsFamily.finalizeInstruments.
    rewrite (map_fixed_on _ _ Hfix). apply NoDup_assemble.
  - vm_compute. reflexivity.
Qed.

(** ** The range of the tag parser *)

Section TagRange.
Import JsNumber Tempo.

Lemma digits2_pos_bound m : (Z.pos m < 2 ^ Z.pos (digits2_pos m))%Z.
Proof.
  induction m as [p IH|p IH|]; cbn [digits2_pos].
  - rewrite Pos2Z.inj_succ, Z.pow_succ_r by lia. lia.
  - rewrite Pos2Z.inj_succ, Z.pow_succ_r by lia. lia.
  - reflexivity.
Qed.

(** The mantissa of a number has at most 53 bits. *)
Lemma mantissa_bound x s m e :
  Prim2SF x = S754_finite s m e -> (Z.pos m < 2 ^ 53)%Z.
Proof.
  intros H. pose proof (FloatAxioms.Prim2SF_valid x) as Hv. rewrite H in Hv.
  cbn [SpecFloat.valid_binary] in Hv. unfold bounded, canonical_mantissa, fexp in Hv.
  apply andb_true_iff in Hv as [Hc _]. apply Z.eqb_eq in Hc.
  pose proof (digits2_pos_bound m) as Hd.
  assert (Z.pos (digits2_pos m) <= 53)%Z by (unfold prec in Hc; lia).
  eapply Z.lt_le_trans; [exact Hd|]. apply Z.pow_le_mono_r; lia.
Qed.

(** A number in the range of a tag is positive, with a negative exponent
    and a value below 400. *)
Lemma in_range_shape n :
  in_range n = true ->
  exists m e, Prim2SF n = S754_finite false m e
    /\ (e <= -44)%Z /\ (Z.pos m < 2 ^ 53)%Z
    /\ (e = -44 -> Z.pos m < 7036874417766400)%Z.
Proof.
  unfold in_range, gt, lt, isFinite.
  intros [[Hfin Hpos]%andb_true_iff Hlt]%andb_true_iff.
  rewrite FloatAxioms.ltb_spec in Hpos, Hlt.
  change (Prim2SF 0) with (S754_zero false) in Hpos.
  change (Prim2SF 400) with (S754_finite false 7036874417766400 (-44)) in Hlt.
  destruct (Prim2SF n) as [s|s| |s m e] eqn:E; try discriminate.
  - by destruct s.
  - unfold SFltb, SFcompare in Hpos, Hlt.
    destruct s; [discriminate|]. exists m, e. split; [done|].
    pose proof (mantissa_bound n _ _ _ E) as Hm.
    destruct (Z.compare_spec e (-44)) as [->|He|He]; try discriminate.
    + split; [lia|]. split; [done|]. intros _.
      destruct (PosDef.Pos.compare_cont Eq m 7036874417766400) eqn:Hc;
        try discriminate.
      rewrite Pos.compare_cont_spec in Hc.
      destruct (Pos.compare_spec m 7036874417766400%positive) as [|Hlt'|];
        cbn [Pos.switch_Eq] in Hc; try discriminate.
      exact Hlt'.
    + split; [lia|]. split; [done|]. intros ->. by apply Z.lt_irrefl in He.
Qed.

Lemma round_in_range n :
  in_range n = true -> exists k, (0 <= k <= 400)%Z /\ Math_round n = Z2F k.
Proof.
  intros (m & e & E & He & Hm & H44)%in_range_shape.
  unfold Math_round. rewrite E.
  destruct (Z.leb_spec 0 e) as [|_]; [lia|].
  set (k := ((2 * Z.pos m + 2 ^ (- e)) / 2 ^ (1 - e))%Z).
  assert (Hpow : (2 ^ (1 - e) = 2 * 2 ^ (- e))%Z).
  { replace (1 - e)%Z with (Z.succ (- e)) by lia. apply Z.pow_succ_r. lia. }
  assert (HP : (2 ^ 44 <= 2 ^ (- e))%Z) by (apply Z.pow_le_mono_r; lia).
  assert (Hk : (0 <= k <= 400)%Z).
  { unfold k. rewrite Hpow. split.
    - apply Z.div_pos; lia.
    - apply Z.lt_succ_r, Z.div_lt_upper_bound; [lia|].
      destruct (Z.eq_dec e (-44)%Z) as [->|Hne].
      + specialize (H44 eq_refl). change (- (-44))%Z with 44%Z. lia.
      + assert (2 ^ 45 <= 2 ^ (- e))%Z by (apply Z.pow_le_mono_r; lia). lia. }
  exists k. split; [exact Hk|].
  destruct (Z.eqb_spec k 0) as [->|_]; reflexivity.
Qed.

End TagRange.

(** X25: [parseId3BpmSafe] returns [null] or an integer from 0 to 400, both
    ends included: a tag between 0 and 0.5 is rounded to 0, and one from
    399.5 up to 400; the override of [completeAnalysisInBackground] then
    stores that value, so a tag of 0.4 makes the stored tempo 0. *)
Theorem parseId3BpmSafe_range (ToNumber : string -> float) (tag : Js.value) (r : float) :
  Tempo.parseId3BpmSafe ToNumber tag = Some r ->
  (exists k, (0 <= k <= 400)%Z /\ r = JsNumber.Z2F k)
  /\ Tempo.parseId3BpmSafe ToNumber (Js.Number 0.4) = Some (JsNumber.Z2F 0)
  /\ Tempo.parseId3BpmSafe ToNumber (Js.Number 399.5) = Some (JsNumber.Z2F 400)
  /\ Tempo.bpm (Tempo.overrideTempo ToNumber (Some 120%float) "thirds" (Js.Number 0.4))
     = Some (JsNumber.Z2F 0).
Proof.
  intros H. split; [|by vm_compute].
  unfold Tempo.parseId3BpmSafe in H.
  destruct tag as [|n|text|]; try discriminate.
  - destruct (Tempo.in_range n) eqn:E; [|discriminate]. injection H as <-.
    by apply round_in_range.
  - destruct (Tempo.first_decimal text) as [d|]; [|discriminate].
    destruct (Tempo.in_range (ToNumber d)) eqn:E; [|discriminate]. injection H as <-.
    by apply round_in_range.
Qed.

Lemma parseId3BpmSafe_range_witness :
  Tempo.parseId3BpmSafe JsNumber.decimal (Js.Str "0.4 bpm") = Some (JsNumber.Z2F 0)
  /\ exists k, (0 <= k <= 400)%Z /\ JsNumber.Z2F 0 = JsNumber.Z2F k.
Proof.
  assert (H : Tempo.parseId3BpmSafe JsNumber.decimal (Js.Str "0.4 bpm")
              = Some (JsNumber.Z2F 0)) by (vm_compute; reflexivity).
  split; [exact H|].
  exact (proj1 (parseId3BpmSafe_range _ _ _ H)).
Defined.

(** ** The merged hints of the audio probes *)

Section ProbeFacts.
Import JsNumber Probes.

Lemma or0_not_nan x : PrimFloat.is_nan (or0 x) = false.
Proof.
  unfold or0, falsy. destruct (PrimFloat.is_nan x) eqn:E; [reflexivity|].
  destruct (PrimFloat.is_zero x); [reflexivity|exact E].
Qed.

Lemma score_not_nan s k : PrimFloat.is_nan (score s k) = false.
Proof. unfold score. destruct (s !! k); [apply or0_not_nan|reflexivity]. Qed.

Lemma score_empty k : score ∅ k = 0%float.
Proof. unfold score. by rewrite lookup_empty. Qed.

Lemma truthy_at_insert h k b k' :
  truthy_at (<[k := b]> h) k' = if decide (k = k') then b else truthy_at h k'.
Proof.
  unfold truthy_at. destruct (decide (k = k')) as [->|Hne].
  - by rewrite lookup_insert_eq.
  - by rewrite lookup_insert_ne.
Qed.

Lemma truthy_at_insert_eq h k b : truthy_at (<[k := b]> h) k = b.
Proof. unfold truthy_at. by rewrite lookup_insert_eq. Qed.

Lemma truthy_at_insert_ne h k b k' :
  k <> k' -> truthy_at (<[k := b]> h) k' = truthy_at h k'.
Proof. intros. unfold truthy_at. by rewrite lookup_insert_ne. Qed.

Lemma truthy_at_orHints a b k :
  truthy_at (orHints a b) k = (hint_of a k || hint_of b k)%bool.
Proof.
  unfold orHints, truthy_at, hint_of, truthy_at.
  rewrite lookup_union_with.
  destruct a as [a|], b as [b|]; cbn; rewrite ?lookup_empty;
    try destruct (a !! k) as [[]|]; try destruct (b !! k) as [[]|]; reflexivity.
Qed.

Lemma cleanHints_brass_lookup h s :
  cleanHints h s !! "brass"
  = if (truthy_at h "brass" && negb (brass_evidence s))%bool then Some false
    else h !! "brass".
Proof.
  unfold cleanHints, brass_evidence.
  set (h1 := if (truthy_at h "banjo" && truthy_at h "guitar")%bool then _ else h).
  assert (Hb : h1 !! "brass" = h !! "brass").
  { subst h1. destruct (_ && _)%bool; [|done]. destruct (gt _ _); [|done].
    by rewrite lookup_insert_ne. }
  assert (Hb' : truthy_at h1 "brass" = truthy_at h "brass").
  { unfold truthy_at. by rewrite Hb. }
  rewrite <- Hb, <- Hb'. clearbody h1. clear Hb Hb'.
  pose proof (leb_negb_ltb (score s "brass") 0x1.c28f5c28f5c29p-3
                (score_not_nan _ _) eq_refl) as H22.
  pose proof (leb_negb_ltb (score s "brass") 0x1.1eb851eb851ecp-2
                (score_not_nan _ _) eq_refl) as H28.
  pose proof (leb_negb_ltb (score s "piano") 0x1.6666666666666p-2
                (score_not_nan _ _) eq_refl) as H35.
  assert (Hmono : (score s "brass" <? 0x1.c28f5c28f5c29p-3)%float = true ->
                  (score s "brass" <? 0x1.1eb851eb851ecp-2)%float = true).
  { intros H. by apply (ltb_leb_trans _ _ _ H). }
  unfold ge, lt. rewrite H22, H28, H35.
  destruct (truthy_at h1 "brass") eqn:E1; [|reflexivity].
  destruct (familyHit s), (score s "brass" <? 0x1.c28f5c28f5c29p-3)%float;
    try (rewrite (Hmono eq_refl));
    destruct (score s "brass" <? 0x1.1eb851eb851ecp-2)%float,
      (score s "piano" <? 0x1.6666666666666p-2)%float;
    cbn [negb andb orb]; rewrite ?truthy_at_insert_eq, ?E1; cbn [negb andb orb];
    rewrite ?truthy_at_insert_eq, ?E1, ?lookup_insert_eq;
    try reflexivity; try discriminate.
Qed.

Lemma cleanHints_brass_raw h s :
  truthy_at (cleanHints h s) "brass" = (truthy_at h "brass" && brass_evidence s)%bool.
Proof.
  unfold truthy_at at 1. rewrite cleanHints_brass_lookup.
  destruct (truthy_at h "brass") eqn:E, (brass_evidence s); cbn; try reflexivity;
    exact E.
Qed.

(** The banjo hint is dropped when the guitar scores well above it. *)
Lemma cleanHints_banjo_lookup h s :
  cleanHints h s !! "banjo"
  = if (truthy_at h "banjo" && truthy_at h "guitar"
        && gt (Math_max (score s "guitar") (score s "electric guitar"))
              (score s "banjo" * 1.5)%float)%bool
    then Some false else h !! "banjo".
Proof.
  unfold cleanHints.
  destruct (truthy_at h "banjo" && truthy_at h "guitar")%bool; cbn [andb];
    [destruct (gt _ _)|];
    repeat match goal with
    | |- context [if ?c then _ else _] => destruct c
    end; rewrite ?(lookup_insert_ne _ "brass" "banjo") by done;
    rewrite ?lookup_insert_eq; reflexivity.
Qed.

Lemma cleanHints_other h s k :
  k <> "banjo" -> k <> "brass" -> cleanHints h s !! k = h !! k.
Proof.
  intros Hbanjo Hbrass. unfold cleanHints.
  repeat match goal with
  | |- context [if ?c then _ else _] => destruct c
  end; rewrite ?lookup_insert_ne by done; reflexivity.
Qed.

Lemma cleanHints_lowers h s k :
  truthy_at (cleanHints h s) k = true -> truthy_at h k = true.
Proof.
  destruct (decide (k = "brass")) as [->|Hbrass].
  { rewrite cleanHints_brass_raw. by intros [? _]%andb_true_iff. }
  destruct (decide (k = "banjo")) as [->|Hbanjo].
  - unfold truthy_at at 1. rewrite cleanHints_banjo_lookup.
    by destruct (_ && _ && _)%bool.
  - unfold truthy_at. by rewrite cleanHints_other.
Qed.

Lemma cleanHints_twice h s : cleanHints (cleanHints h s) s = cleanHints h s.
Proof.
  apply map_eq. intros k.
  destruct (decide (k = "brass")) as [->|Hbrass].
  { rewrite (cleanHints_brass_lookup (cleanHints h s)), cleanHints_brass_raw.
    by destruct (truthy_at h "brass"), (brass_evidence s). }
  destruct (decide (k = "banjo")) as [->|Hbanjo]; [|by rewrite !cleanHints_other].
  rewrite (cleanHints_banjo_lookup (cleanHints h s)).
  assert (Hg : truthy_at (cleanHints h s) "guitar" = truthy_at h "guitar").
  { unfold truthy_at. by rewrite cleanHints_other. }
  rewrite Hg. unfold truthy_at at 1. rewrite !cleanHints_banjo_lookup.
  fold (truthy_at h "banjo").
  destruct (truthy_at h "banjo") eqn:E, (truthy_at h "guitar"), (gt _ _);
    cbn; try reflexivity; unfold truthy_at in E; rewrite ?E; reflexivity.
Qed.

(** X26: [cleanHints] never turns a hint on and never removes a key: a hint
    that is true afterwards was true before, every key other than [banjo]
    and [brass] keeps its value, and a second pass with the same scores
    changes nothing. *)
Theorem cleanHints_only_lowers (h : gmap string bool) (s : gmap string float) (k : string) :
  (Probes.truthy_at (Probes.cleanHints h s) k = true -> Probes.truthy_at h k = true)
  /\ (k <> "banjo" -> k <> "brass" -> Probes.cleanHints h s !! k = h !! k)
  /\ (is_Some (h !! k) -> is_Some (Probes.cleanHints h s !! k))
  /\ Probes.cleanHints (Probes.cleanHints h s) s = Probes.cleanHints h s.
Proof.
  split; [apply cleanHints_lowers|]. split; [apply cleanHints_other|].
  split; [|apply cleanHints_twice].
  intros Hk.
  destruct (decide (k = "brass")) as [->|Hbrass].
  { rewrite cleanHints_brass_lookup. by destruct (_ && _)%bool. }
  destruct (decide (k = "banjo")) as [->|Hbanjo].
  { rewrite cleanHints_banjo_lookup. by destruct (_ && _ && _)%bool. }
  by rewrite cleanHints_other.
Qed.

(** X27: the brass hint survives [cleanHints] exactly when it was on and the
    scores carry evidence: a trumpet or saxophone score of at least 0.18, a
    trombone score of at least 0.16, a brass score of at least 0.28, or a
    brass score of at least 0.22 together with a piano score below 0.35. *)
Theorem cleanHints_brass (h : gmap string bool) (s : gmap string float) :
  Probes.truthy_at (Probes.cleanHints h s) "brass"
  = (Probes.truthy_at h "brass"
     && (JsNumber.ge (Probes.score s "trumpet") 0x1.70a3d70a3d70ap-3
         || JsNumber.ge (Probes.score s "trombone") 0x1.47ae147ae147bp-3
         || JsNumber.ge (Probes.score s "saxophone") 0x1.70a3d70a3d70ap-3
         || JsNumber.ge (Probes.score s "brass") 0x1.1eb851eb851ecp-2
         || (JsNumber.ge (Probes.score s "brass") 0x1.c28f5c28f5c29p-3
             && JsNumber.lt (Probes.score s "piano") 0x1.6666666666666p-2)))%bool.
Proof. apply cleanHints_brass_raw. Qed.

Lemma runAudioProbes_hints_other ci cm co i m o k :
  k <> "vocals" -> k <> "banjo" -> k <> "brass" ->
  truthy_at (runAudioProbes_hints ci cm co i m o) k
  = (hint_of (hints ci) k || hint_of (hints cm) k || hint_of (hints co) k
     || hint_of i k || hint_of m k || hint_of o k)%bool.
Proof.
  intros Hv Hbanjo Hbrass. unfold runAudioProbes_hints.
  unfold truthy_at at 1. rewrite cleanHints_other by done.
  rewrite lookup_insert_ne by done.
  fold (truthy_at (orHints (Some (orHints (hints ci) (hints cm)))
          (Some (orHints (hints co) (Some (orHints i (Some (orHints m o))))))) k).
  rewrite !truthy_at_orHints. cbn [hint_of]. rewrite !truthy_at_orHints.
  cbn [hint_of]. rewrite !truthy_at_orHints. cbn [hint_of].
  rewrite !truthy_at_orHints.
  by destruct (hint_of (hints ci) k), (hint_of (hints cm) k), (hint_of (hints co) k),
    (hint_of i k), (hint_of m k), (hint_of o k).
Qed.

(** X28: in the hints that [runAudioProbes] returns, a hint other than
    [vocals], [banjo] and [brass] is on exactly when one of the six probe
    windows reports it; [vocals] is on exactly when a CLAP window and an AST
    window both report it; and [banjo] and [brass] are on only if one of
    the windows reports them. *)
Theorem runAudioProbes_hints_merge (clapIntro clapMiddle clapOutro : Probes.probe)
    (intro middle outro : option (gmap string bool)) (k : string) :
  (k <> "vocals" -> k <> "banjo" -> k <> "brass" ->
   Probes.truthy_at
     (Probes.runAudioProbes_hints clapIntro clapMiddle clapOutro intro middle outro) k
   = (Probes.hint_of (Probes.hints clapIntro) k
      || Probes.hint_of (Probes.hints clapMiddle) k
      || Probes.hint_of (Probes.hints clapOutro) k
      || Probes.hint_of intro k || Probes.hint_of middle k || Probes.hint_of outro k)%bool)
  /\ Probes.runAudioProbes_hints clapIntro clapMiddle clapOutro intro middle outro
       !! "vocals"
     = Some ((Probes.hint_of (Probes.hints clapIntro) "vocals"
              || Probes.hint_of (Probes.hints clapMiddle) "vocals"
              || Probes.hint_of (Probes.hints clapOutro) "vocals")
             && (Probes.hint_of intro "vocals" || Probes.hint_of middle "vocals"
                 || Probes.hint_of outro "vocals"))%bool
  /\ (Probes.truthy_at
        (Probes.runAudioProbes_hints clapIntro clapMiddle clapOutro intro middle outro) k
      = true ->
      k <> "vocals" ->
      (Probes.hint_of (Probes.hints clapIntro) k
       || Probes.hint_of (Probes.hints clapMiddle) k
       || Probes.hint_of (Probes.hints clapOutro) k
       || Probes.hint_of intro k || Probes.hint_of middle k || Probes.hint_of outro k)%bool
      = true).
Proof.
  split; [|split].
  - apply runAudioProbes_hints_other.
  - unfold runAudioProbes_hints. rewrite cleanHints_other by done.
    by rewrite lookup_insert_eq.
  - unfold runAudioProbes_hints. intros H%cleanHints_lowers Hv.
    rewrite truthy_at_insert_ne in H by done.
    rewrite !truthy_at_orHints in H. cbn [hint_of] in H.
    rewrite !truthy_at_orHints in H. cbn [hint_of] in H.
    rewrite !truthy_at_orHints in H. cbn [hint_of] in H.
    rewrite !truthy_at_orHints in H.
    by destruct (hint_of (hints clapIntro) k), (hint_of (hints clapMiddle) k),
      (hint_of (hints clapOutro) k), (hint_of intro k), (hint_of middle k).
Qed.

Lemma score_union_l (a b : gmap string float) k x :
  a !! k = Some x -> score (a ∪ b) k = score a k.
Proof. intros H. unfold score. by rewrite (lookup_union_Some_l _ _ _ _ H), H. Qed.

(** X29: the scores that gate the hints are those of the CLAP windows only,
    and of the last window that has the label: when the three CLAP probes
    were skipped, or when the outro window scores brass, trumpet, trombone
    and saxophone below their thresholds, the merged brass hint is off,
    whatever the AST probes and the earlier windows found. *)
Theorem runAudioProbes_brass_needs_scores (clapIntro clapMiddle clapOutro : Probes.probe)
    (intro middle outro : option (gmap string bool)) :
  (Probes.scores clapIntro = None /\ Probes.scores clapMiddle = None
   /\ Probes.scores clapOutro = None)
  \/ (exists so, Probes.scores clapOutro = Some so
        /\ is_Some (so !! "brass") /\ is_Some (so !! "trumpet")
        /\ is_Some (so !! "trombone") /\ is_Some (so !! "saxophone")
        /\ JsNumber.lt (Probes.score so "brass") 0x1.c28f5c28f5c29p-3 = true
        /\ JsNumber.lt (Probes.score so "trumpet") 0x1.70a3d70a3d70ap-3 = true
        /\ JsNumber.lt (Probes.score so "trombone") 0x1.47ae147ae147bp-3 = true
        /\ JsNumber.lt (Probes.score so "saxophone") 0x1.70a3d70a3d70ap-3 = true) ->
  Probes.truthy_at
    (Probes.runAudioProbes_hints clapIntro clapMiddle clapOutro intro middle outro)
    "brass" = false.
Proof.
  intros H. unfold runAudioProbes_hints. rewrite cleanHints_brass_raw.
  apply andb_false_iff. right.
  destruct H as [(-> & -> & ->)|(so & -> & [b Hb] & [t Ht] & [tb Htb] & [sx Hsx]
                                  & Lb & Lt & Ltb & Lsx)].
  - cbn [default]. rewrite !(left_id_L ∅ (∪)).
    unfold brass_evidence, familyHit. rewrite !score_empty. reflexivity.
  - cbn [default]. unfold brass_evidence, familyHit.
    rewrite <- !(assoc_L (∪)).
    rewrite (score_union_l _ _ _ _ Hb), (score_union_l _ _ _ _ Ht),
      (score_union_l _ _ _ _ Htb), (score_union_l _ _ _ _ Hsx).
    unfold ge, lt in *.
    rewrite !leb_negb_ltb by (apply score_not_nan || reflexivity).
    rewrite Lb, Lt, Ltb, Lsx.
    rewrite (ltb_leb_trans _ _ 0x1.1eb851eb851ecp-2 Lb eq_refl). reflexivity.
Qed.

Lemma runAudioProbes_brass_needs_scores_witness :
  Probes.truthy_at
    (Probes.runAudioProbes_hints
       {| Probes.hints := Some {[ "brass" := true ]};
          Probes.scores := Some {[ "brass" := 0.9%float ]} |}
       {| Probes.hints := None; Probes.scores := None |}
       {| Probes.hints := Some {[ "brass" := false ]};
          Probes.scores :=
            Some (<[ "brass" := 0.1%float ]> (<[ "trumpet" := 0.1%float ]>
                   (<[ "trombone" := 0.1%float ]> {[ "saxophone" := 0.1%float ]}))) |}
       (Some {[ "brass" := true ]}) None None)
    "brass" = false.
Proof.
  apply runAudioProbes_brass_needs_scores. right.
  eexists. split; [reflexivity|].
  repeat split; try (by vm_compute; eexists); vm_compute; reflexivity.
Defined.

End ProbeFacts.
